(** * BlockCache: a verification development

    Shallow embedding of the cache data plane of BlockCache (Go):

    - [store]: the lock-guarded LRU store of [store/lru.go];
    - [store_draft]: the earlier store without lock that the same file
      holds;
    - [singleflight]: the request coalescer of [singleflight/singleflight.go],
      as an interleaving of its critical sections;
    - [blockcache]: the peer picker ([peers.go]), the group layer
      ([group.go]) and the RPC adapters ([server.go], [client.go]).

    Conventions.  Go's [int] and [int64] are 64-bit two's complement
    integers: they are modelled in [Z] with the wrap-around [wrap64] applied
    after every arithmetic operation.  A [time.Time] is an instant in
    nanoseconds and a [time.Duration] a number of nanoseconds, both in [Z];
    [time.Now()] is an argument [now] of the operation that reads the clock.
    A goroutine started with [go] is returned as a task to be run later. *)

From Stdlib Require Import ZArith Lia.
From stdpp Require Import gmap strings list.

Open Scope Z_scope.

(** ** 64-bit integers *)

Definition wrap64 (z : Z) : Z := (z + 2^63) `mod` 2^64 - 2^63.

(** ** The LRU store ([store/lru.go], the lock-guarded variant) *)

Module store.

(** [type Value interface { Len() int }] *)
Class Value (V : Type) := Len : V → Z.

(** The test suite's [type String string] with [Len() = len(d)]. *)
#[global] Instance String_Value : Value string :=
  λ d, Z.of_nat (String.length d).

(** [time.Minute] in nanoseconds. *)
Definition Minute : Z := 60 * 1000000000.

(** [deleteExpired]'s [const maxScan = 100]. *)
Definition maxScan : nat := 100.

Section LRU.
Context {V : Type} `{Value V}.

(** [type Options struct]; [OnEvicted] tells whether a callback is
    configured, the calls made to it are recorded in [evictedLog] below. *)
Record Options := mkOptions {
  MaxBytes : Z;
  BucketCount : Z;
  CapPerBucket : Z;
  Level2Cap : Z;
  CleanupInterval : Z;
  OnEvicted : bool }.

(** [type lruEntry struct { key string; value Value }] *)
Record lruEntry := mkEntry { key : string; value : V }.

(** [type lruCache struct].  [ll] lists the entries front first: the front
    is the least recently used end, the back the most recently used one.
    The map [items] of the source indexes the nodes of [ll] by key: it is
    read off the list with [items_lookup].  [stopped] stands for the closed
    channel [stopCleanup]. *)
Record lruCache := mkLRU {
  maxBytes : Z;
  usedBytes : Z;
  ll : list lruEntry;
  expiredTime : gmap string Z;
  onEvicted : bool;
  evictedLog : list lruEntry;
  cleanupInterval : Z;
  stopped : bool }.

(** A goroutine started by the store: [go c.Delete(key)]. *)
Inductive task := GoDelete (k : string).

(** [c.items[k]] *)
Fixpoint items_lookup (k : string) (l : list lruEntry) : option lruEntry :=
  match l with
  | [] => None
  | e :: l' => if decide (key e = k) then Some e else items_lookup k l'
  end.

(** [c.ll.Remove(elem)] for the node that [items] holds under [k]. *)
Fixpoint ll_Remove (k : string) (l : list lruEntry) : list lruEntry :=
  match l with
  | [] => []
  | e :: l' => if decide (key e = k) then l' else e :: ll_Remove k l'
  end.

(** [c.ll.MoveToBack(elem)], the node now holding [e]. *)
Definition ll_MoveToBack (e : lruEntry) (l : list lruEntry) : list lruEntry :=
  ll_Remove (key e) l ++ [e].

(** [int64(len(entry.key) + entry.value.Len())] *)
Definition entry_bytes (e : lruEntry) : Z :=
  wrap64 (Z.of_nat (String.length (key e)) + Len (value e)).

Definition newLRUCache (opts : Options) : lruCache :=
  {| maxBytes := MaxBytes opts;
     usedBytes := 0;
     ll := [];
     expiredTime := ∅;
     onEvicted := OnEvicted opts;
     evictedLog := [];
     cleanupInterval :=
       if CleanupInterval opts <=? 0 then Minute else CleanupInterval opts;
     stopped := false |}.

(** [removeElement]: unlink the node, drop both map entries, give the bytes
    back, call the callback. *)
Definition removeElement (c : lruCache) (entry : lruEntry) : lruCache :=
  {| maxBytes := maxBytes c;
     usedBytes := wrap64 (usedBytes c - entry_bytes entry);
     ll := ll_Remove (key entry) (ll c);
     expiredTime := delete (key entry) (expiredTime c);
     onEvicted := onEvicted c;
     evictedLog :=
       if onEvicted c then evictedLog c ++ [entry] else evictedLog c;
     cleanupInterval := cleanupInterval c;
     stopped := stopped c |}.

(** The loop condition of [removeOldest]. *)
Definition over_budget (c : lruCache) : bool :=
  (0 <? maxBytes c) && (maxBytes c <? usedBytes c)
  && (0 <? Z.of_nat (length (ll c))).

(** [removeOldest]: [for c.maxBytes > 0 && c.usedBytes > c.maxBytes &&
    c.ll.Len() > 0 { remove c.ll.Front() }].  Every turn of the loop unlinks
    a node, so the length of the list bounds the number of turns. *)
Fixpoint removeOldest_loop (turns : nat) (c : lruCache) : lruCache :=
  match turns with
  | O => c
  | S turns' =>
      if over_budget c then
        match ll c with
        | elem :: _ => removeOldest_loop turns' (removeElement c elem)
        | [] => c
        end
      else c
  end.

Definition removeOldest (c : lruCache) : lruCache :=
  removeOldest_loop (length (ll c)) c.

(** [SetWithExpiration(key, value, duration)] at clock reading [now]. *)
Definition SetWithExpiration (c : lruCache) (k : string) (v : V)
    (duration now : Z) : lruCache :=
  let expiry :=
    if 0 <? duration then <[k := now + duration]> (expiredTime c)
    else delete k (expiredTime c) in
  let c' :=
    match items_lookup k (ll c) with
    | Some entry =>
        {| maxBytes := maxBytes c;
           usedBytes :=
             wrap64 (usedBytes c + wrap64 (Len v - Len (value entry)));
           ll := ll_MoveToBack (mkEntry (key entry) v) (ll c);
           expiredTime := expiry;
           onEvicted := onEvicted c;
           evictedLog := evictedLog c;
           cleanupInterval := cleanupInterval c;
           stopped := stopped c |}
    | None =>
        {| maxBytes := maxBytes c;
           usedBytes :=
             wrap64 (usedBytes c
                     + wrap64 (Z.of_nat (String.length k) + Len v));
           ll := ll c ++ [mkEntry k v];
           expiredTime := expiry;
           onEvicted := onEvicted c;
           evictedLog := evictedLog c;
           cleanupInterval := cleanupInterval c;
           stopped := stopped c |}
    end in
  removeOldest c'.

(** [Set(key, value) = SetWithExpiration(key, value, 0)]; the name [Set] is
    reserved in Rocq. *)
Definition Set_ (c : lruCache) (k : string) (v : V) (now : Z) : lruCache :=
  SetWithExpiration c k v 0 now.

(** [Delete(key)] *)
Definition Delete (c : lruCache) (k : string) : lruCache * bool :=
  match items_lookup k (ll c) with
  | Some ele => (removeElement c ele, true)
  | None => (c, false)
  end.

(** The second critical section of [Get]: [if _, ok := c.items[key]; ok
    { c.ll.MoveToBack(ele) }]. *)
Definition touch (c : lruCache) (ele : lruEntry) : lruCache :=
  match items_lookup (key ele) (ll c) with
  | Some _ =>
      {| maxBytes := maxBytes c;
         usedBytes := usedBytes c;
         ll := ll_MoveToBack ele (ll c);
         expiredTime := expiredTime c;
         onEvicted := onEvicted c;
         evictedLog := evictedLog c;
         cleanupInterval := cleanupInterval c;
         stopped := stopped c |}
  | None => c
  end.

(** [Get(key)] at clock reading [now]: the value and the [ok] flag, the
    store afterwards, and the goroutines started.  [time.Now().After(t)] is
    [now > t]. *)
Definition Get (c : lruCache) (k : string) (now : Z)
    : option V * bool * lruCache * list task :=
  match items_lookup k (ll c) with
  | None => (None, false, c, [])
  | Some ele =>
      match expiredTime c !! k with
      | Some expireTime =>
          if expireTime <? now then (None, false, c, [GoDelete k])
          else (Some (value ele), true, touch c ele, [])
      | None => (Some (value ele), true, touch c ele, [])
      end
  end.

(** One turn of the loop of [deleteExpired] on the key the map iteration
    produces. *)
Definition deleteExpired_visit (now : Z) (c : lruCache) (k : string)
    : lruCache :=
  match expiredTime c !! k with
  | Some expTime =>
      if expTime <? now then
        match items_lookup k (ll c) with
        | Some elem => removeElement c elem
        | None => c
        end
      else c
  | None => c
  end.

(** [deleteExpired]: at most [maxScan] entries of the expiry map are
    visited; [order] is the order in which the runtime enumerates them. *)
Definition deleteExpired (c : lruCache) (now : Z) (order : list string)
    : lruCache :=
  fold_left (deleteExpired_visit now) (take maxScan order) c.

(** [Clear]; the callback is called on the entry of every key that
    [range c.items] yields; [order] is the order in which the runtime
    enumerates the keys of the map. *)
Definition Clear (c : lruCache) (order : list string) : lruCache :=
  {| maxBytes := maxBytes c;
     usedBytes := 0;
     ll := [];
     expiredTime := ∅;
     onEvicted := onEvicted c;
     evictedLog :=
       if onEvicted c
       then evictedLog c ++ omap (λ k, items_lookup k (ll c)) order
       else evictedLog c;
     cleanupInterval := cleanupInterval c;
     stopped := stopped c |}.

(** [Len] of the store: [c.ll.Len()] *)
Definition Len_store (c : lruCache) : Z := Z.of_nat (length (ll c)).

(** [Close]: stop the ticker and close [stopCleanup], once. *)
Definition Close (c : lruCache) : lruCache :=
  {| maxBytes := maxBytes c;
     usedBytes := usedBytes c;
     ll := ll c;
     expiredTime := expiredTime c;
     onEvicted := onEvicted c;
     evictedLog := evictedLog c;
     cleanupInterval := cleanupInterval c;
     stopped := true |}.

(** A task of the store, run to completion. *)
Definition run_task (c : lruCache) (t : task) : lruCache :=
  match t with GoDelete k => fst (Delete c k) end.

(** The operations that reach a store, each one critical section: the
    public methods, the tick of the reaper and the goroutines of [Get].
    [OpGet] is a [Get] whose two critical sections run back to back;
    [OpTouch] is the second critical section of a [Get] that runs after
    other operations have come in between, on a node that is still
    linked. *)
Inductive op :=
| OpGet (k : string) (now : Z)
| OpTouch (k : string)
| OpSet (k : string) (v : V) (now : Z)
| OpSetWithExpiration (k : string) (v : V) (duration now : Z)
| OpDelete (k : string)
| OpClear (order : list string)
| OpTick (now : Z) (order : list string)
| OpClose.

Definition exec (c : lruCache) (o : op) : lruCache :=
  match o with
  | OpGet k now => (Get c k now).1.2
  | OpTouch k =>
      match items_lookup k (ll c) with
      | Some ele => touch c ele
      | None => c
      end
  | OpSet k v now => Set_ c k v now
  | OpSetWithExpiration k v d now => SetWithExpiration c k v d now
  | OpDelete k => fst (Delete c k)
  | OpClear order => Clear c order
  | OpTick now order => if stopped c then c else deleteExpired c now order
  | OpClose => Close c
  end.

(** The store after a history of operations on a fresh cache. *)
Definition run (opts : Options) (history : list op) : lruCache :=
  fold_left exec history (newLRUCache opts).

(** The bytes of the live entries, [len(key) + value.Len()] each, as an
    unbounded sum. *)
Fixpoint live_bytes (l : list lruEntry) : Z :=
  match l with
  | [] => 0
  | e :: l' => Z.of_nat (String.length (key e)) + Len (value e) + live_bytes l'
  end.

(** The representation invariant of the store: the counter is the 64-bit
    sum of the live entries, a key has one node, and an expiry is recorded
    for live keys only. *)
Record lru_inv (c : lruCache) : Prop := {
  inv_used : usedBytes c = wrap64 (live_bytes (ll c));
  inv_nodup : NoDup (map key (ll c));
  inv_expiry : ∀ k, is_Some (expiredTime c !! k) →
                    is_Some (items_lookup k (ll c)) }.

End LRU.
End store.

(** ** The draft of the LRU store ([store/lru.go], second part)

    The file holds an earlier [lruCache] without lock, ticker and eviction:
    [newLRUCache], [Get], [Delete], [removeElement] and [Set].  Its list has
    the most recently used entry at the front ([PushFront],
    [MoveToFront]).  It shares [Value], [lruEntry] and [Options] with the
    store above. *)
Module store_draft.
Section Draft.
Context {V : Type} `{store.Value V}.

Local Abbreviation lruEntry := (@store.lruEntry V).

(** [type lruCache struct]; [ll] lists the entries front first, and
    [items] is read off it as above. *)
Record lruCache := mkLRU {
  maxBytes : Z;
  usedBytes : Z;
  ll : list lruEntry;
  expiredTime : gmap string Z;
  onEvicted : bool;
  evictedLog : list lruEntry }.

Definition newLRUCache (opts : store.Options) : lruCache :=
  {| maxBytes := store.MaxBytes opts;
     usedBytes := 0;
     ll := [];
     expiredTime := ∅;
     onEvicted := store.OnEvicted opts;
     evictedLog := [] |}.

(** [removeElement] *)
Definition removeElement (c : lruCache) (entry : lruEntry) : lruCache :=
  {| maxBytes := maxBytes c;
     usedBytes := wrap64 (usedBytes c - store.entry_bytes entry);
     ll := store.ll_Remove (store.key entry) (ll c);
     expiredTime := delete (store.key entry) (expiredTime c);
     onEvicted := onEvicted c;
     evictedLog :=
       if onEvicted c then evictedLog c ++ [entry] else evictedLog c |}.

(** [Delete(key)] *)
Definition Delete (c : lruCache) (k : string) : lruCache * bool :=
  match store.items_lookup k (ll c) with
  | Some ele => (removeElement c ele, true)
  | None => (c, false)
  end.

(** What a call of [Get] ends with: its results, or a panic. *)
Inductive result :=
| Returned (value : option V) (ok : bool)
| Panicked (msg : string).

(** [Get(key)]; [now1] and [now2] are the two readings of [time.Now()].
    After the two expiry checks the element [c.items[key]] is passed to
    [c.ll.MoveToFront], which reads [e.list]: for a key that is not in
    [items] the element is nil and the read panics. *)
Definition Get (c : lruCache) (k : string) (now1 now2 : Z)
    : result * lruCache * list store.task :=
  let expired1 :=
    match store.items_lookup k (ll c), expiredTime c !! k with
    | Some _, Some expTime => expTime <? now1
    | _, _ => false
    end in
  match store.items_lookup k (ll c) with
  | Some ele =>
      if expired1 then (Returned None false, removeElement c ele, [])
      else
        match expiredTime c !! k with
        | Some expTime =>
            if expTime <? now2 then
              (Returned None false, c, [store.GoDelete k])
            else
              (Returned (Some (store.value ele)) true,
               {| maxBytes := maxBytes c; usedBytes := usedBytes c;
                  ll := ele :: store.ll_Remove k (ll c);
                  expiredTime := expiredTime c; onEvicted := onEvicted c;
                  evictedLog := evictedLog c |}, [])
        | None =>
            (Returned (Some (store.value ele)) true,
             {| maxBytes := maxBytes c; usedBytes := usedBytes c;
                ll := ele :: store.ll_Remove k (ll c);
                expiredTime := expiredTime c; onEvicted := onEvicted c;
                evictedLog := evictedLog c |}, [])
        end
  | None =>
      match expiredTime c !! k with
      | Some expTime =>
          if expTime <? now2 then
            (Returned None false, c, [store.GoDelete k])
          else (Panicked "nil pointer dereference", c, [])
      | None => (Panicked "nil pointer dereference", c, [])
      end
  end.

(** [Set(key, value) int]: for a key that is stored, the bytes of the
    entry are taken off [usedBytes], the value is replaced and the node
    moved to the front; for a new key the entry is pushed to the front and
    its bytes are added.  The list is not trimmed. *)
Definition Set_ (c : lruCache) (k : string) (v : V) : Z * lruCache :=
  match store.items_lookup k (ll c) with
  | Some entry =>
      (0,
       {| maxBytes := maxBytes c;
          usedBytes :=
            wrap64 (usedBytes c
                    - wrap64 (Z.of_nat (String.length k)
                              + store.Len (store.value entry)));
          ll := store.mkEntry k v :: store.ll_Remove k (ll c);
          expiredTime := expiredTime c; onEvicted := onEvicted c;
          evictedLog := evictedLog c |})
  | None =>
      (0,
       {| maxBytes := maxBytes c;
          usedBytes :=
            wrap64 (usedBytes c
                    + wrap64 (Z.of_nat (String.length k) + store.Len v));
          ll := store.mkEntry k v :: ll c;
          expiredTime := expiredTime c; onEvicted := onEvicted c;
          evictedLog := evictedLog c |})
  end.

(** The calls that reach a draft store, and the store after a history of
    them on a fresh one; a [Get] that panics leaves the store as it
    was. *)
Inductive op :=
| OpGet (k : string) (now1 now2 : Z)
| OpSet (k : string) (v : V)
| OpDelete (k : string).

Definition exec (c : lruCache) (o : op) : lruCache :=
  match o with
  | OpGet k now1 now2 => (Get c k now1 now2).1.2
  | OpSet k v => (Set_ c k v).2
  | OpDelete k => (Delete c k).1
  end.

Definition run (opts : store.Options) (history : list op) : lruCache :=
  fold_left exec history (newLRUCache opts).

End Draft.
End store_draft.

(** ** The single-flight coordinator ([singleflight/singleflight.go])

    [Do] is run by several goroutines at once.  Each of them is a thread
    with a program counter; a step of a thread is one of the pieces of [Do]
    that the mutex or the wait group make atomic, and a schedule is the
    order in which the threads take their steps. *)

Module singleflight.
Section Do.

(** The pair [(interface{}, error)] that [fn] returns. *)
Context {R : Type}.

(** [fn], as passed to [Do] for a key.  It may return something else every
    time it runs, so what a run does depends on the number [n] of runs of
    [fn] that have returned so far: [fn key n] is the pair the run returns
    then, or [None] when it does not come back to [Do] then, because [fn]
    has panicked, has ended the goroutine, or is blocked.  A run that never
    returns is [None] for every [n].  [Do] has no [defer]: as long as the
    run has not returned no statement of [Do] is executed, neither
    [c.wg.Done()] nor [delete(g.m, key)]. *)
Variable fn : string → nat → option R.

(** Every run of [fn] returns. *)
Definition fn_returns : Prop := ∀ key n, is_Some (fn key n).

(** [type call struct]: the counter of [wg], and [(val, err)], which is
    [None] as long as it holds the zero values. *)
Record call := mkCall { wg : nat; val : option R }.

(** Where a caller of [Do] stands. *)
Inductive pc :=
| Enter                  (* before the first [g.mu.Lock()] *)
| Wait (c : nat)         (* found [c] in [g.m]: at [c.wg.Wait()] *)
| CallFn (c : nat)       (* installed [c]: at [c.val, c.err = fn()] *)
| WgDone (c : nat)       (* at [c.wg.Done()] *)
| Forget (c : nat)       (* at [g.mu.Lock(); delete(g.m, key)] *)
| Return (c : nat)       (* at [return c.val, c.err] *)
| Returned (c : nat) (r : option R).

(** One run of [fn] that returned: the thread that ran it, the call record
    it ran it for, and what it returned. *)
Record invocation := mkInvocation {
  inv_caller : nat; inv_call : nat; inv_result : R }.

(** [type Group struct] with the goroutines inside [Do]: the map [m] ([None]
    while it is nil), the call records allocated so far (a record is named
    by its index), the callers with their keys, and the runs of [fn] that
    have returned, in the order in which they returned. *)
Record state := mkState {
  m : option (gmap string nat);
  calls : list call;
  threads : list (string * pc);
  log : list invocation }.

Definition set_pc (t : nat) (key : string) (p : pc) (s : state) : state :=
  {| m := m s; calls := calls s;
     threads := <[t := (key, p)]> (threads s); log := log s |}.

Definition set_val (r : R) (cl : call) : call :=
  {| wg := wg cl; val := Some r |}.

(** [wg.Done()]; the leader of a call is the one thread that reaches it. *)
Definition wg_Done (cl : call) : call :=
  {| wg := Nat.pred (wg cl); val := val cl |}.

(** One step of thread [t]; [None] when [t] is blocked in [c.wg.Wait()],
    is in a run of [fn] that does not return, or has returned. *)
Definition step (t : nat) (s : state) : option state :=
  match threads s !! t with
  | None => None
  | Some (key, p) =>
      match p with
      | Enter =>
          let mm := default ∅ (m s) in
          match mm !! key with
          | Some c =>
              Some {| m := Some mm; calls := calls s;
                      threads := <[t := (key, Wait c)]> (threads s);
                      log := log s |}
          | None =>
              let c := length (calls s) in
              Some {| m := Some (<[key := c]> mm);
                      calls := calls s ++ [mkCall 1 None];
                      threads := <[t := (key, CallFn c)]> (threads s);
                      log := log s |}
          end
      | Wait c =>
          match calls s !! c with
          | Some cl =>
              if decide (wg cl = 0%nat) then Some (set_pc t key (Return c) s)
              else None
          | None => None
          end
      | CallFn c =>
          match fn key (length (log s)) with
          | Some r =>
              Some {| m := m s;
                      calls := alter (set_val r) c (calls s);
                      threads := <[t := (key, WgDone c)]> (threads s);
                      log := log s ++ [mkInvocation t c r] |}
          | None => None
          end
      | WgDone c =>
          Some {| m := m s;
                  calls := alter wg_Done c (calls s);
                  threads := <[t := (key, Forget c)]> (threads s);
                  log := log s |}
      | Forget c =>
          Some {| m := delete key <$> m s;
                  calls := calls s;
                  threads := <[t := (key, Return c)]> (threads s);
                  log := log s |}
      | Return c =>
          Some (set_pc t key (Returned c (calls s !! c ≫= val)) s)
      | Returned _ _ => None
      end
  end.

(** A scheduled thread that cannot move leaves the state as it is. *)
Definition exec (s : state) (t : nat) : state := default s (step t s).

Definition run (sched : list nat) (s : state) : state :=
  fold_left exec sched s.

(** A fresh [Group] and one caller of [Do] per key of the list. *)
Definition init (keys : list string) : state :=
  {| m := None; calls := []; threads := (λ k, (k, Enter)) <$> keys;
     log := [] |}.

(** What thread [t] returned, once it has. *)
Definition returned (s : state) (t : nat) : option (nat * option R) :=
  match threads s !! t with
  | Some (_, Returned c r) => Some (c, r)
  | _ => None
  end.

(** The runs of [fn] that the threads of [ts] made and that returned. *)
Definition invocations_by (ts : list nat) (s : state) : list invocation :=
  filter (λ i, inv_caller i ∈ ts) (log s).

(** The invariant of the reachable states. *)
Record do_inv (s : state) : Prop := {
  inv_CallFn : ∀ t k c, threads s !! t = Some (k, CallFn c) →
      (c ∉ (inv_call <$> log s)) ∧ val <$> calls s !! c = Some None;
  inv_leader : ∀ t t' k k' c,
      threads s !! t = Some (k, CallFn c) →
      threads s !! t' = Some (k', CallFn c) → t = t';
  inv_once : NoDup (inv_call <$> log s);
  inv_alloc : ∀ i, i ∈ log s → (inv_call i < length (calls s))%nat;
  inv_val : ∀ c r, val <$> calls s !! c = Some (Some r) →
      ∃ t, mkInvocation t c r ∈ log s;
  inv_wg : ∀ c, wg <$> calls s !! c = Some 0%nat →
      ∃ r, val <$> calls s !! c = Some (Some r);
  inv_after : ∀ t k c p, threads s !! t = Some (k, p) →
      p = WgDone c ∨ p = Forget c ∨ p = Return c →
      ∃ r, val <$> calls s !! c = Some (Some r);
  inv_Returned : ∀ t k c x, threads s !! t = Some (k, Returned c x) →
      ∃ r, x = Some r ∧ val <$> calls s !! c = Some (Some r);
  inv_fn : ∀ n i, log s !! n = Some i →
      ∃ k p, threads s !! inv_caller i = Some (k, p)
             ∧ fn k n = Some (inv_result i) }.

(** The call record a caller holds, once it has one. *)
Definition pc_call (p : pc) : option nat :=
  match p with
  | Enter => None
  | Wait c | CallFn c | WgDone c | Forget c | Return c | Returned c _ =>
      Some c
  end.

(** The caller that installed [c] and has not yet passed [c.wg.Done()]. *)
Definition leads (p : pc) (c : nat) : Prop := p = CallFn c ∨ p = WgDone c.

(** The caller that installed [c] and has not yet passed
    [delete(g.m, key)]. *)
Definition owns (p : pc) (c : nat) : Prop :=
  p = CallFn c ∨ p = WgDone c ∨ p = Forget c.

(** What keeps the callers moving: a caller's record is allocated; the
    counter of a [wg] is [1] as long as the caller that installed the
    record has not passed [wg.Done()], and [0] afterwards; an entry of the
    map belongs to a caller of that key that has not yet deleted it; the
    callers that hold one record asked for one key; a run of [fn] was made
    by a caller that holds the record it was made for. *)
Record do_live (s : state) : Prop := {
  live_alloc : ∀ t k p c, threads s !! t = Some (k, p) →
      pc_call p = Some c → (c < length (calls s))%nat;
  live_wg : ∀ c cl, calls s !! c = Some cl →
      wg cl = 0%nat
      ∨ (wg cl = 1%nat
         ∧ ∃ t k p, threads s !! t = Some (k, p) ∧ leads p c);
  live_map : ∀ mm k c, m s = Some mm → mm !! k = Some c →
      ∃ t p, threads s !! t = Some (k, p) ∧ owns p c;
  live_key : ∀ t1 t2 k1 k2 p1 p2 c,
      threads s !! t1 = Some (k1, p1) → threads s !! t2 = Some (k2, p2) →
      pc_call p1 = Some c → pc_call p2 = Some c → k1 = k2;
  live_log : ∀ i, i ∈ log s →
      ∃ k p, threads s !! inv_caller i = Some (k, p)
             ∧ pc_call p = Some (inv_call i) }.

(** A caller that found [c] in the map: at [c.wg.Wait()] or past it. *)
Definition waits (p : pc) (c : nat) : Prop :=
  p = Wait c ∨ p = Return c ∨ ∃ x, p = Returned c x.

(** A caller that holds [c] and is past [fn()] or past [c.wg.Wait()]. *)
Definition past_fn (p : pc) (c : nat) : Prop :=
  p = WgDone c ∨ p = Forget c ∨ p = Return c ∨ ∃ x, p = Returned c x.

(** Between [g.m[key] = c] and [delete(g.m, key)] the map holds the record
    of the caller that installed it, and a record has one such caller. *)
Record do_own (s : state) : Prop := {
  own_map : ∀ t k p c, threads s !! t = Some (k, p) → owns p c →
      default ∅ (m s) !! k = Some c;
  own_one : ∀ t1 t2 k1 k2 p1 p2 c,
      threads s !! t1 = Some (k1, p1) → threads s !! t2 = Some (k2, p2) →
      owns p1 c → owns p2 c → t1 = t2 }.

(** The statements of [Do] a caller has still to pass, at most. *)
Definition steps_left (p : pc) : nat :=
  match p with
  | Enter => 5
  | CallFn _ => 4
  | WgDone _ => 3
  | Forget _ => 2
  | Wait _ => 2
  | Return _ => 1
  | Returned _ _ => 0
  end.

Definition work (s : state) : nat :=
  sum_list_with (λ x, steps_left x.2) (threads s).

End Do.

(** The first and the last step of thread [t] in a schedule, as positions
    in it. *)
Fixpoint first_step (t : nat) (sched : list nat) : option nat :=
  match sched with
  | [] => None
  | t' :: sched' =>
      if decide (t' = t) then Some 0%nat else S <$> first_step t sched'
  end.

Definition last_step (t : nat) (sched : list nat) : option nat :=
  (λ i, (length sched - 1 - i)%nat) <$> first_step t (rev sched).

(** Two callers overlap in time when each takes its first step before the
    other takes its last one. *)
Definition overlap (sched : list nat) (t1 t2 : nat) : bool :=
  match first_step t1 sched, last_step t1 sched,
        first_step t2 sched, last_step t2 sched with
  | Some a1, Some b1, Some a2, Some b2 => (a1 <? b2)%nat && (a2 <? b1)%nat
  | _, _, _, _ => false
  end.

End singleflight.

(** ** Peers, groups and the RPC adapters (package [blockcache]) *)

Module blockcache.

(** *** Errors

    An [error] is either a plain message ([errors.New], or [fmt.Errorf]
    with the verb [%v]) or a message wrapping another error ([fmt.Errorf]
    with the verb [%w]). *)
Inductive error :=
| errorString (s : string)
| wrapError (msg : string) (err : error).

#[global] Instance error_eq_dec : EqDecision error.
Proof. solve_decision. Defined.

(** [err.Error()] *)
Definition Error (e : error) : string :=
  match e with
  | errorString s => s
  | wrapError msg _ => msg
  end.

(** The chain of [e]: [e], what it wraps, and so on. *)
Fixpoint chain (e : error) : list error :=
  e :: match e with
       | errorString _ => []
       | wrapError _ err => chain err
       end.

(** [errors.Is(e, target)] *)
Definition errors_Is (e target : error) : bool :=
  bool_decide (target ∈ chain e).

(** [errors.New(text)] *)
Definition errors_New (text : string) : error := errorString text.

(** [fmt.Errorf(prefix + "%v", err)]: the text of [err] is copied, [err]
    itself is not kept. *)
Definition Errorf_v (prefix : string) (err : error) : error :=
  errorString (prefix +:+ Error err).

(** [fmt.Errorf(prefix + "%w", err)]: the same text, wrapping [err]. *)
Definition Errorf_w (prefix : string) (err : error) : error :=
  wrapError (prefix +:+ Error err) err.

(** [context.DeadlineExceeded] *)
Definition DeadlineExceeded : error :=
  errorString "context deadline exceeded".

(** An error that says the group is closed. *)
Definition says_closed (e : error) : bool :=
  bool_decide (is_Some (String.index 0 "closed" (Error e))).

(** A function returns, or the goroutine panics. *)
Inductive outcome (A : Type) :=
| Ret (a : A)
| Panic (msg : string).
Arguments Ret {A} a.
Arguments Panic {A} msg.

(** *** Contexts: the values a [context.Context] carries, by key. *)
Abbreviation Ctx := (gmap string bool).

Definition Background : Ctx := ∅.

(** [context.WithValue(ctx, key, val)] *)
Definition WithValue (ctx : Ctx) (key : string) (val : bool) : Ctx :=
  <[key := val]> ctx.

(** [ctx.Value(key)], [None] for nil. *)
Definition Value (ctx : Ctx) (key : string) : option bool := ctx !! key.

(** *** Byte views ([byteview.go]) *)
Definition bytes : Type := list Byte.byte.

Definition cloneBytes (b : bytes) : bytes := b.

Record ByteView := mkByteView { data : bytes }.

Definition ByteView_Len (b : ByteView) : Z := Z.of_nat (length (data b)).

Definition ByteSlice (b : ByteView) : bytes := cloneBytes (data b).

#[global] Instance ByteView_Value : store.Value ByteView := ByteView_Len.

(** *** Clients ([client.go]) *)

(** [type Client struct], without its connection handles. *)
Record Client := mkClient { addr : string; svcName : string }.

#[global] Instance Client_eq_dec : EqDecision Client.
Proof. solve_decision. Defined.

(** [func (c *Client) GetFromPeer(ctx, key) ([]byte, error)
    { panic("unimplemented") }] *)
Definition GetFromPeer (c : Client) (ctx : Ctx) (key : string)
    : outcome (bytes * option error) :=
  Panic "unimplemented".

(** A call that leaves the node through a client: [c.grpcCli.Set] and
    [c.grpcCli.Delete]. *)
Inductive rpc :=
| RpcSet (peer : Client) (ctx : Ctx) (group key : string) (value : bytes)
| RpcDelete (peer : Client) (group key : string).

Definition rpc_peer (r : rpc) : Client :=
  match r with
  | RpcSet peer _ _ _ _ => peer
  | RpcDelete peer _ _ => peer
  end.

(** *** The peer picker ([peers.go]) *)

(** Modelled from the spec: package [consistenthash] is not among the
    sources.  The ring is taken with the operations the picker calls:
    [New], [Add(node)], [Remove(node)] and [Get(key)], which answers the
    node that owns the key, or the empty string. *)
Class ConsistentHash (Ring : Type) := {
  ring_New : Ring;
  ring_Add : Ring → string → Ring;
  ring_Remove : Ring → string → Ring;
  ring_Get : Ring → string → string }.

(** [type PeerPicker interface]: [PickPeer(key) (peer, ok, self)]; a nil
    peer is [None]. *)
Class PeerPicker (P : Type) :=
  PickPeer : P → string → option Client * bool * bool.

Inductive EventType := EventTypePut | EventTypeDelete.

(** A watch event: its type and [string(event.Kv.Value)]. *)
Record Event := mkEvent { ev_Type : EventType; ev_Value : string }.

Section Picker.
Context {Ring : Type} `{ConsistentHash Ring}.

(** [type ClientPicker struct], without the etcd handles. *)
Record ClientPicker := mkPicker {
  selfAddr : string;
  p_svcName : string;
  consHash : Ring;
  clients : gmap string Client }.

(** [NewClient(addr, svcName, etcdCli)]: [dial] tells whether the
    connection to [addr] can be made. *)
Definition NewClient (dial : string → bool) (addr svc : string)
    : option Client :=
  if dial addr then Some (mkClient addr svc) else None.

(** [p.set(addr)] *)
Definition set (dial : string → bool) (p : ClientPicker) (addr : string)
    : ClientPicker :=
  match NewClient dial addr (p_svcName p) with
  | Some client =>
      {| selfAddr := selfAddr p; p_svcName := p_svcName p;
         consHash := ring_Add (consHash p) addr;
         clients := <[addr := client]> (clients p) |}
  | None => p
  end.

(** [p.remove(addr)] *)
Definition remove (p : ClientPicker) (addr : string) : ClientPicker :=
  {| selfAddr := selfAddr p; p_svcName := p_svcName p;
     consHash := ring_Remove (consHash p) addr;
     clients := delete addr (clients p) |}.

(** The loop of [fetchAllServices] over the values of [resp.Kvs]. *)
Definition fetchAllServices (dial : string → bool) (p : ClientPicker)
    (kvs : list string) : ClientPicker :=
  fold_left
    (λ p addr,
       if bool_decide (addr ≠ "") && bool_decide (addr ≠ selfAddr p)
       then set dial p addr else p)
    kvs p.

(** [handleWatchEvents] *)
Definition handleWatchEvents (dial : string → bool) (p : ClientPicker)
    (events : list Event) : ClientPicker :=
  fold_left
    (λ p event,
       let addr := ev_Value event in
       if bool_decide (addr = selfAddr p) then p
       else match ev_Type event with
            | EventTypePut =>
                match clients p !! addr with
                | None => set dial p addr
                | Some _ => p
                end
            | EventTypeDelete =>
                match clients p !! addr with
                | Some client => remove p addr
                | None => p
                end
            end)
    events p.

(** The picker that [NewClientPicker(addr)] builds before discovery. *)
Definition emptyPicker (addr svc : string) : ClientPicker :=
  {| selfAddr := addr; p_svcName := svc; consHash := ring_New;
     clients := ∅ |}.

(** [func (p *ClientPicker) PickPeer(key string) (Peer, bool, bool)] *)
Definition ClientPicker_PickPeer (p : ClientPicker) (key : string)
    : option Client * bool * bool :=
  let addr := ring_Get (consHash p) key in
  if bool_decide (addr ≠ "") then
    match clients p !! addr with
    | Some client => (Some client, true, bool_decide (addr = selfAddr p))
    | None => (None, false, false)
    end
  else (None, false, false).

#[global] Instance ClientPicker_PeerPicker : PeerPicker ClientPicker :=
  ClientPicker_PickPeer.

(** [func (p *ClientPicker) Delete(key string)] *)
Definition ClientPicker_Delete (p : ClientPicker) (key : string)
    : ClientPicker :=
  remove p key.

(** What changes a picker: the range read, the batches of watch events,
    and [Delete]. *)
Inductive discovery :=
| Fetched (kvs : list string)
| Watched (events : list Event)
| Deleted (key : string).

Definition discover (dial : string → bool) (p : ClientPicker)
    (d : discovery) : ClientPicker :=
  match d with
  | Fetched kvs => fetchAllServices dial p kvs
  | Watched events => handleWatchEvents dial p events
  | Deleted key => ClientPicker_Delete p key
  end.

(** The invariant of a picker built by discovery: the address and the
    service name it was created with, and under every address of the
    client map the handle [NewClient] made for that address, which is not
    the own one. *)
Definition picker_inv (dial : string → bool) (self svc : string)
    (p : ClientPicker) : Prop :=
  selfAddr p = self ∧ p_svcName p = svc
  ∧ ∀ a c, clients p !! a = Some c →
           c = mkClient a svc ∧ dial a = true ∧ a ≠ self.

End Picker.

(** *** The cache wrapper

    Modelled from the spec: the cache wrapper [cache.go] is not among the
    sources.  It is taken with the operations the group calls on it ([Get],
    [Add], [AddWithExpiration] with an absolute expiry, [Delete], [Clear],
    [Close]) and the options [NewGroup] builds it from; [now] is the clock
    reading of the call. *)
Class CacheAPI (Cache CacheOptions : Type) := {
  DefaultCacheOptions : CacheOptions;
  with_MaxBytes : CacheOptions → Z → CacheOptions;
  NewCache : CacheOptions → Cache;
  Cache_Get : Cache → Ctx → string → Z → option ByteView * Cache;
  Cache_Add : Cache → string → ByteView → Z → Cache;
  Cache_AddWithExpiration : Cache → string → ByteView → Z → Z → Cache;
  Cache_Delete : Cache → string → Cache;
  Cache_Clear : Cache → Cache;
  Cache_Close : Cache → Cache }.

(** *** Groups ([group.go]) *)

(** [type groupStats struct] *)
Record groupStats := mkStats {
  loads : Z;
  localHits : Z;
  localMisses : Z;
  peerHits : Z;
  peerMisses : Z;
  loaderHits : Z;
  loaderErrors : Z;
  loadDuration : Z }.

(** [type Getter interface { Get(ctx, key) ([]byte, error) }] *)
Definition Getter : Type := Ctx → string → bytes * option error.

(** What a group method does besides returning: the calls it makes to the
    getter, and the goroutines it starts ([go g.syncToPeers(ctx, op, key,
    value)]). *)
Inductive event := EvGetter (ctx : Ctx) (key : string).

Inductive gtask := GoSync (ctx : Ctx) (op key : string) (value : bytes).

Section Group.
Context {Cache CacheOptions : Type} `{CacheAPI Cache CacheOptions}.
Context {P : Type} `{PeerPicker P}.

(** [type Group struct]; the single-flight [loader] has no state between
    calls. *)
Record Group := mkGroup {
  name : string;
  getter : Getter;
  mainCache : Cache;
  peers : option P;
  expiration : Z;
  closed : Z;
  stats : groupStats }.

Definition set_mainCache (g : Group) (c : Cache) : Group :=
  {| name := name g; getter := getter g; mainCache := c; peers := peers g;
     expiration := expiration g; closed := closed g; stats := stats g |}.

Definition set_stats (g : Group) (st : groupStats) : Group :=
  {| name := name g; getter := getter g; mainCache := mainCache g;
     peers := peers g; expiration := expiration g; closed := closed g;
     stats := st |}.

Definition set_peers (g : Group) (pk : option P) : Group :=
  {| name := name g; getter := getter g; mainCache := mainCache g;
     peers := pk; expiration := expiration g; closed := closed g;
     stats := stats g |}.

Definition set_expiration (g : Group) (d : Z) : Group :=
  {| name := name g; getter := getter g; mainCache := mainCache g;
     peers := peers g; expiration := d; closed := closed g;
     stats := stats g |}.

Definition set_closed (g : Group) (b : Z) : Group :=
  {| name := name g; getter := getter g; mainCache := mainCache g;
     peers := peers g; expiration := expiration g; closed := b;
     stats := stats g |}.

(** Two states of a group with the same name, getter, picker, expiration
    and [closed] flag. *)
Definition same_config (g g' : Group) : Prop :=
  name g' = name g ∧ getter g' = getter g ∧ peers g' = peers g
  ∧ expiration g' = expiration g ∧ closed g' = closed g.

(** [atomic.AddInt64(&g.stats.<field>, delta)] *)
Definition add_loads (d : Z) (st : groupStats) : groupStats :=
  mkStats (wrap64 (loads st + d)) (localHits st) (localMisses st)
    (peerHits st) (peerMisses st) (loaderHits st) (loaderErrors st)
    (loadDuration st).
Definition add_localHits (d : Z) (st : groupStats) : groupStats :=
  mkStats (loads st) (wrap64 (localHits st + d)) (localMisses st)
    (peerHits st) (peerMisses st) (loaderHits st) (loaderErrors st)
    (loadDuration st).
Definition add_peerHits (d : Z) (st : groupStats) : groupStats :=
  mkStats (loads st) (localHits st) (localMisses st)
    (wrap64 (peerHits st + d)) (peerMisses st) (loaderHits st)
    (loaderErrors st) (loadDuration st).
Definition add_peerMisses (d : Z) (st : groupStats) : groupStats :=
  mkStats (loads st) (localHits st) (localMisses st) (peerHits st)
    (wrap64 (peerMisses st + d)) (loaderHits st) (loaderErrors st)
    (loadDuration st).
Definition add_loaderHits (d : Z) (st : groupStats) : groupStats :=
  mkStats (loads st) (localHits st) (localMisses st) (peerHits st)
    (peerMisses st) (wrap64 (loaderHits st + d)) (loaderErrors st)
    (loadDuration st).
Definition add_loaderErrors (d : Z) (st : groupStats) : groupStats :=
  mkStats (loads st) (localHits st) (localMisses st) (peerHits st)
    (peerMisses st) (loaderHits st) (wrap64 (loaderErrors st + d))
    (loadDuration st).
Definition add_loadDuration (d : Z) (st : groupStats) : groupStats :=
  mkStats (loads st) (localHits st) (localMisses st) (peerHits st)
    (peerMisses st) (loaderHits st) (loaderErrors st)
    (wrap64 (loadDuration st + d)).

(** The counters of a group as its methods keep them: three of them are
    never counted, and every load ended in a hit or an error of the
    getter. *)
Definition stats_ok (st : groupStats) : Prop :=
  localMisses st = 0 ∧ peerHits st = 0 ∧ peerMisses st = 0
  ∧ loads st = wrap64 (loaderHits st + loaderErrors st).

(** The tail of [loadData]: the getter is asked. *)
Definition from_getter (g : Group) (ctx : Ctx) (key : string)
    : outcome (ByteView * option error) * Group * list event :=
  let '(bytes, err) := getter g ctx key in
  match err with
  | Some err =>
      (Ret (mkByteView [],
            Some (Errorf_v "failed to get from getter: " err)),
       g, [EvGetter ctx key])
  | None =>
      (Ret (mkByteView (cloneBytes bytes), None),
       set_stats g (add_loaderHits 1 (stats g)), [EvGetter ctx key])
  end.

(** [loadData]: the owner of the key is asked first when it is another
    node, then the getter. *)
Definition loadData (g : Group) (ctx : Ctx) (key : string)
    : outcome (ByteView * option error) * Group * list event :=
  match peers g with
  | Some pk =>
      let '(peer, ok, isSelf) := PickPeer pk key in
      if ok && negb isSelf then
        match peer with
        | None => (Panic "nil pointer dereference", g, [])
        | Some peer =>
            match GetFromPeer peer ctx key with
            | Panic msg => (Panic msg, g, [])
            | Ret (value, None) =>
                (Ret (mkByteView value, None),
                 set_stats g (add_peerHits 1 (stats g)), [])
            | Ret (_, Some err) =>
                from_getter (set_stats g (add_peerMisses 1 (stats g)))
                  ctx key
            end
        end
      else from_getter g ctx key
  | None => from_getter g ctx key
  end.

(** [load]: [loadData] under [g.loader.Do(key, ...)], with no other caller
    of that key inside; [elapsed] is [time.Since(startTime)] and [now] the
    clock when the view is cached. *)
Definition load (g : Group) (ctx : Ctx) (key : string) (now elapsed : Z)
    : outcome (ByteView * option error) * Group * list event :=
  match loadData g ctx key with
  | (Panic msg, g1, evs) => (Panic msg, g1, evs)
  | (Ret (view, err), g1, evs) =>
      let g2 :=
        set_stats g1 (add_loads 1 (add_loadDuration elapsed (stats g1))) in
      match err with
      | Some err =>
          (Ret (mkByteView [], Some err),
           set_stats g2 (add_loaderErrors 1 (stats g2)), evs)
      | None =>
          let cache :=
            if 0 <? expiration g2 then
              Cache_AddWithExpiration (mainCache g2) key view
                (now + expiration g2) now
            else Cache_Add (mainCache g2) key view now in
          (Ret (view, None), set_mainCache g2 cache, evs)
      end
  end.

(** [func (g *Group) Get(ctx, key) (ByteView, error)] *)
Definition Get (g : Group) (ctx : Ctx) (key : string) (now elapsed : Z)
    : outcome (ByteView * option error) * Group * list event :=
  if closed g =? 1 then
    (Ret (mkByteView [], Some (errors_New "group is closed")), g, [])
  else if bool_decide (key = "") then
    (Ret (mkByteView [], Some (errors_New "key is empty")), g, [])
  else
    match Cache_Get (mainCache g) ctx key now with
    | (Some val, cache) =>
        let g1 := set_mainCache g cache in
        (Ret (val, None), set_stats g1 (add_localHits 1 (stats g1)), [])
    | (None, cache) => load (set_mainCache g cache) ctx key now elapsed
    end.

(** [func (g *Group) Set(ctx, key, value) error]: the error, the group
    afterwards, the goroutines started. *)
Definition Set_ (g : Group) (ctx : Ctx) (key : string) (value : bytes)
    (now : Z) : option error * Group * list gtask :=
  if closed g =? 1 then
    (Some (errors_New "cache group is closed"), g, [])
  else if bool_decide (key = "") || bool_decide (length value = 0%nat) then
    (Some (errors_New "key is empty or value is empty"), g, [])
  else
    let isPeerRequest := bool_decide (Value ctx "from_peer" ≠ None) in
    let view := mkByteView (cloneBytes value) in
    let cache :=
      if 0 <? expiration g then
        Cache_AddWithExpiration (mainCache g) key view (now + expiration g)
          now
      else Cache_Add (mainCache g) key view now in
    (None, set_mainCache g cache,
     if negb isPeerRequest && bool_decide (peers g ≠ None)
     then [GoSync ctx "set" key value] else []).

(** [func (g *Group) Delete(ctx, key) error] *)
Definition Delete (g : Group) (ctx : Ctx) (key : string)
    : option error * Group * list gtask :=
  if closed g =? 1 then
    (Some (errors_New "cache group is closed"), g, [])
  else if bool_decide (key = "") then
    (Some (errors_New "key is empty"), g, [])
  else
    let g1 := set_mainCache g (Cache_Delete (mainCache g) key) in
    let isPeerRequest := bool_decide (Value ctx "from_peer" ≠ None) in
    (None, g1,
     if negb isPeerRequest && bool_decide (peers g ≠ None)
     then [GoSync ctx "delete" key []] else []).

(** [func (g *Group) syncToPeers(ctx, op, key, value)]: the remote calls it
    makes. *)
Definition syncToPeers (g : Group) (ctx : Ctx) (op key : string)
    (value : bytes) : outcome (list rpc) :=
  match peers g with
  | None => Ret []
  | Some pk =>
      let '(peer, ok, isSelf) := PickPeer pk key in
      if negb ok || isSelf then Ret []
      else
        let syncCtx := WithValue Background "from_peer" true in
        if bool_decide (op = "set") then
          match peer with
          | Some peer => Ret [RpcSet peer syncCtx (name g) key value]
          | None => Panic "nil pointer dereference"
          end
        else if bool_decide (op = "delete") then
          match peer with
          | Some peer => Ret [RpcDelete peer (name g) key]
          | None => Panic "nil pointer dereference"
          end
        else Ret []
  end.

(** A goroutine of the group, run to completion. *)
Definition run_gtask (g : Group) (t : gtask) : outcome (list rpc) :=
  match t with GoSync ctx op key value => syncToPeers g ctx op key value end.

(** [func (g *Group) Clear()]: it returns nothing. *)
Definition Clear (g : Group) : Group :=
  if closed g =? 1 then g
  else set_mainCache g (Cache_Clear (mainCache g)).

(** [func (g *Group) RegisterPeerPicker(peers PeerPicker)] *)
Definition RegisterPeerPicker (g : Group) (pk : option P) : outcome Group :=
  match pk with
  | None => Panic "nil peer picker"
  | Some pk => Ret (set_peers g (Some pk))
  end.

(** [type GroupOption]: the options the package offers. *)
Inductive GroupOption :=
| WithExpiration (expiration : Z)
| WIthPeers (peers : option P)
| WithCacheOptions (opts : CacheOptions).

Definition apply_option (g : Group) (opt : GroupOption) : Group :=
  match opt with
  | WithExpiration d => set_expiration g d
  | WIthPeers pk => set_peers g pk
  | WithCacheOptions opts => set_mainCache g (NewCache opts)
  end.

(** The process: the groups allocated so far (a [*Group] is an index into
    [heap]) and the package variable [groups], from names to groups. *)
Record World := mkWorld {
  groups : gmap string nat;
  heap : list Group }.

Definition emptyWorld : World := {| groups := ∅; heap := [] |}.

(** [func NewGroup(name, cacheBytes, getter, opts...) *Group] *)
Definition NewGroup (w : World) (nm : string) (cacheBytes : Z)
    (gt : option Getter) (opts : list GroupOption) : outcome nat * World :=
  match gt with
  | None => (Panic "nil getter", w)
  | Some gt =>
      let g :=
        fold_left apply_option opts
          {| name := nm; getter := gt;
             mainCache :=
               NewCache (with_MaxBytes DefaultCacheOptions cacheBytes);
             peers := None; expiration := 0; closed := 0;
             stats := mkStats 0 0 0 0 0 0 0 0 |} in
      (Ret (length (heap w)),
       {| groups := <[nm := length (heap w)]> (groups w);
          heap := heap w ++ [g] |})
  end.

(** [func GetGroup(name string) *Group], [None] for nil. *)
Definition GetGroup (w : World) (nm : string) : option nat := groups w !! nm.

(** [func (g *Group) Close() error] *)
Definition Close (w : World) (g : nat) : outcome (option error) * World :=
  match heap w !! g with
  | None => (Panic "nil pointer dereference", w)
  | Some G =>
      if closed G =? 0 then
        let G' :=
          set_mainCache (set_closed G 1) (Cache_Close (mainCache G)) in
        (Ret None,
         {| groups := delete (name G) (groups w);
            heap := <[g := G']> (heap w) |})
      else (Ret None, w)
  end.

(** The state of group [g] in the world replaced by [G]. *)
Definition store_group (w : World) (g : nat) (G : Group) : World :=
  {| groups := groups w; heap := <[g := G]> (heap w) |}.

(** What a caller of a public method of a group gets back. *)
Inductive reply :=
| ReplyView (view : ByteView) (err : option error)
| ReplyError (err : option error)
| ReplyNothing
| ReplyPanic (msg : string).

(** The error in a reply, if there is one. *)
Definition reply_error (r : reply) : option error :=
  match r with
  | ReplyView _ err => err
  | ReplyError err => err
  | ReplyNothing => None
  | ReplyPanic _ => None
  end.

(** The public methods of a group, as calls on the world. *)
Inductive call :=
| CallGet (g : nat) (ctx : Ctx) (key : string) (now elapsed : Z)
| CallSet (g : nat) (ctx : Ctx) (key : string) (value : bytes) (now : Z)
| CallDelete (g : nat) (ctx : Ctx) (key : string)
| CallClear (g : nat)
| CallClose (g : nat)
| CallNewGroup (nm : string) (cacheBytes : Z) (gt : option Getter)
    (opts : list GroupOption).

Definition do_call (w : World) (c : call) : reply * World :=
  match c with
  | CallGet g ctx key now elapsed =>
      match heap w !! g with
      | None => (ReplyPanic "nil pointer dereference", w)
      | Some G =>
          match Get G ctx key now elapsed with
          | (Ret (view, err), G', _) => (ReplyView view err, store_group w g G')
          | (Panic msg, G', _) => (ReplyPanic msg, store_group w g G')
          end
      end
  | CallSet g ctx key value now =>
      match heap w !! g with
      | None => (ReplyPanic "nil pointer dereference", w)
      | Some G =>
          let '(err, G', _) := Set_ G ctx key value now in
          (ReplyError err, store_group w g G')
      end
  | CallDelete g ctx key =>
      match heap w !! g with
      | None => (ReplyPanic "nil pointer dereference", w)
      | Some G =>
          let '(err, G', _) := Delete G ctx key in
          (ReplyError err, store_group w g G')
      end
  | CallClear g =>
      match heap w !! g with
      | None => (ReplyPanic "nil pointer dereference", w)
      | Some G => (ReplyNothing, store_group w g (Clear G))
      end
  | CallClose g =>
      match Close w g with
      | (Ret err, w') => (ReplyError err, w')
      | (Panic msg, w') => (ReplyPanic msg, w')
      end
  | CallNewGroup nm cacheBytes gt opts =>
      match NewGroup w nm cacheBytes gt opts with
      | (Ret _, w') => (ReplyNothing, w')
      | (Panic msg, w') => (ReplyPanic msg, w')
      end
  end.

Definition do_calls (w : World) (cs : list call) : World :=
  fold_left (λ w c, (do_call w c).2) cs w.

(** The [closed] flag of every group is 0 or 1. *)
Definition flags_ok (w : World) : Prop :=
  ∀ i g, heap w !! i = Some g → closed g = 0 ∨ closed g = 1.

(** *** The registry under [groupsMu]

    [groupsMu] is a [sync.RWMutex]; it is not reentrant: a goroutine that
    calls [groupsMu.Lock()] while it holds the lock waits forever. *)

(** How a function that runs with [groupsMu] held ends: it returns, it
    panics, or it blocks forever in [groupsMu.Lock()], the lock still
    held; the world is the one it leaves. *)
Inductive locked (A : Type) :=
| Returns (a : A) (w : World)
| Panics (msg : string) (w : World)
| Deadlock (w : World).
Arguments Returns {A} a w.
Arguments Panics {A} msg w.
Arguments Deadlock {A} w.

(** [g.Close()] called by a goroutine that holds [groupsMu]: on an open
    group the flag is swapped, the cache is closed, and [groupsMu.Lock()]
    does not return. *)
Definition Close_locked (w : World) (g : nat) : locked (option error) :=
  match heap w !! g with
  | None => Panics "nil pointer dereference" w
  | Some G =>
      if closed G =? 0 then
        Deadlock
          (store_group w g
             (set_mainCache (set_closed G 1) (Cache_Close (mainCache G))))
      else Returns None w
  end.

(** [func DestroyGroup(name string) bool] *)
Definition DestroyGroup (w : World) (nm : string) : locked bool :=
  match groups w !! nm with
  | Some g =>
      match Close_locked w g with
      | Returns _ w' =>
          Returns true {| groups := delete nm (groups w'); heap := heap w' |}
      | Panics msg w' => Panics msg w'
      | Deadlock w' => Deadlock w'
      end
  | None => Returns false w
  end.

(** [func DestroyAllGroups()]; [order] is the order in which
    [range groups] yields the names, a name that is no longer in the map
    when its turn comes being skipped. *)
Fixpoint DestroyAllGroups (w : World) (order : list string) : locked unit :=
  match order with
  | [] => Returns () w
  | nm :: rest =>
      match groups w !! nm with
      | None => DestroyAllGroups w rest
      | Some g =>
          match Close_locked w g with
          | Returns _ w' =>
              DestroyAllGroups
                {| groups := delete nm (groups w'); heap := heap w' |} rest
          | Panics msg w' => Panics msg w'
          | Deadlock w' => Deadlock w'
          end
      end
  end.

(** [func ListGroups() []string], in the order of the map's enumeration. *)
Definition ListGroups (w : World) : list string := (map_to_list (groups w)).*1.

(** The registry of a world: a registered name leads to an open group
    that bears it. *)
Definition registry_ok (w : World) : Prop :=
  ∀ nm i, groups w !! nm = Some i →
    ∃ G, heap w !! i = Some G ∧ name G = nm ∧ closed G = 0.

(** *** The RPC server ([server.go]) *)

(** [pb.Request] *)
Record Request := mkRequest {
  req_Group : string; req_Key : string; req_Value : bytes }.

Definition group_not_found (nm : string) : error :=
  errors_New ("group " +:+ nm +:+ " not found").

(** [func (s *Server) Set(ctx, req)]: the response value, the error, the
    world afterwards and the goroutines started. *)
Definition Server_Set (w : World) (ctx : Ctx) (req : Request) (now : Z)
    : outcome (option bytes * option error) * World * list gtask :=
  match GetGroup w (req_Group req) with
  | None => (Ret (None, Some (group_not_found (req_Group req))), w, [])
  | Some g =>
      let fromPeer := Value ctx "from_peer" in
      let ctx :=
        match fromPeer with
        | None => WithValue ctx "from_peer" true
        | Some _ => ctx
        end in
      match heap w !! g with
      | None => (Panic "nil pointer dereference", w, [])
      | Some G =>
          match Set_ G ctx (req_Key req) (req_Value req) now with
          | (Some err, G', tasks) =>
              (Ret (None, Some err), store_group w g G', tasks)
          | (None, G', tasks) =>
              (Ret (Some (req_Value req), None), store_group w g G', tasks)
          end
      end
  end.

(** [func (s *Server) Delete(ctx, req)] *)
Definition Server_Delete (w : World) (ctx : Ctx) (req : Request)
    : outcome (option bool * option error) * World * list gtask :=
  match GetGroup w (req_Group req) with
  | None => (Ret (None, Some (group_not_found (req_Group req))), w, [])
  | Some g =>
      match heap w !! g with
      | None => (Panic "nil pointer dereference", w, [])
      | Some G =>
          let '(err, G', tasks) := Delete G ctx (req_Key req) in
          (Ret (Some (bool_decide (err = None)), err),
           store_group w g G', tasks)
      end
  end.

(** [func (s *Server) Get(ctx, req)] *)
Definition Server_Get (w : World) (ctx : Ctx) (req : Request)
    (now elapsed : Z)
    : outcome (option bytes * option error) * World * list event :=
  match GetGroup w (req_Group req) with
  | None => (Ret (None, Some (group_not_found (req_Group req))), w, [])
  | Some g =>
      match heap w !! g with
      | None => (Panic "nil pointer dereference", w, [])
      | Some G =>
          match Get G ctx (req_Key req) now elapsed with
          | (Panic msg, G', evs) => (Panic msg, store_group w g G', evs)
          | (Ret (_, Some err), G', evs) =>
              (Ret (None, Some err), store_group w g G', evs)
          | (Ret (view, None), G', evs) =>
              (Ret (Some (ByteSlice view), None), store_group w g G', evs)
          end
      end
  end.

(** *** Calls between nodes ([client.go])

    [func (c *Client) Set(ctx, group, key, value)] sends the request
    with the context it is given.  [func (c *Client) Delete(group, key)]
    takes no context: it sends the request with
    [context.WithTimeout(context.Background(), 3*time.Second)], which
    carries no value. *)
Definition Client_Delete_ctx : Ctx := Background.

(** The call [r] of a [syncToPeers], served by the node it is addressed
    to, whose world is [w]: the world of that node afterwards and the
    goroutines it starts. *)
Definition serve (w : World) (r : rpc) (now : Z) : World * list gtask :=
  match r with
  | RpcSet _ ctx group key value =>
      let '(_, w', tasks) :=
        Server_Set w ctx (mkRequest group key value) now in
      (w', tasks)
  | RpcDelete _ group key =>
      let '(_, w', tasks) :=
        Server_Delete w Client_Delete_ctx (mkRequest group key []) in
      (w', tasks)
  end.

End Group.

Arguments Returns {Cache P A} a w.
Arguments Panics {Cache P A} msg w.
Arguments Deadlock {Cache P A} w.

(** Modelled from the spec: a cache wrapper over the LRU store, as section
    4.3 of the specification describes it (the store is built on first use,
    every [Get] counts a hit or a miss, [AddWithExpiration] takes an
    absolute expiry).  It stands in for [cache.go] in the examples; its
    [Clear] has the store enumerate the keys in the order of the list, one
    of the orders the map may yield. *)
Record lruWrapper := mkWrapper {
  w_opts : store.Options;
  w_store : option (store.lruCache (V:=ByteView));
  w_hits : Z;
  w_misses : Z }.

Definition ensureInitialized (c : lruWrapper) : store.lruCache :=
  match w_store c with
  | Some st => st
  | None => store.newLRUCache (w_opts c)
  end.

#[global] Instance lruWrapper_CacheAPI : CacheAPI lruWrapper store.Options := {|
  DefaultCacheOptions := store.mkOptions (8 * 1024 * 1024) 0 0 0 store.Minute false;
  with_MaxBytes := λ o n,
    store.mkOptions n (store.BucketCount o) (store.CapPerBucket o)
      (store.Level2Cap o) (store.CleanupInterval o) (store.OnEvicted o);
  NewCache := λ o, mkWrapper o None 0 0;
  Cache_Get := λ c _ key now,
    match store.Get (ensureInitialized c) key now with
    | (Some v, _, st, _) =>
        (Some v, mkWrapper (w_opts c) (Some st) (wrap64 (w_hits c + 1))
                   (w_misses c))
    | (None, _, st, _) =>
        (None, mkWrapper (w_opts c) (Some st) (w_hits c)
                 (wrap64 (w_misses c + 1)))
    end;
  Cache_Add := λ c key v now,
    mkWrapper (w_opts c) (Some (store.Set_ (ensureInitialized c) key v now))
      (w_hits c) (w_misses c);
  Cache_AddWithExpiration := λ c key v expiry now,
    mkWrapper (w_opts c)
      (Some (store.SetWithExpiration (ensureInitialized c) key v
               (expiry - now) now))
      (w_hits c) (w_misses c);
  Cache_Delete := λ c key,
    mkWrapper (w_opts c)
      (Some (store.Delete (ensureInitialized c) key).1)
      (w_hits c) (w_misses c);
  Cache_Clear := λ c,
    mkWrapper (w_opts c)
      (Some (store.Clear (ensureInitialized c)
               (store.key <$> store.ll (ensureInitialized c))))
      (w_hits c) (w_misses c);
  Cache_Close := λ c,
    mkWrapper (w_opts c) (store.Close <$> w_store c) (w_hits c) (w_misses c)
|}.

(** A ring for examples: the nodes in the order they were added, a key
    owned by the node that its length selects. *)
#[global] Instance list_ring : ConsistentHash (list string) := {|
  ring_New := [];
  ring_Add := λ r node, r ++ [node];
  ring_Remove := λ r node, filter (λ n, n ≠ node) r;
  ring_Get := λ r key,
    match r with
    | [] => ""
    | _ => default "" (r !! (String.length key `mod` length r)%nat)
    end |}.

End blockcache.

(** * Properties *)

(** ** Arithmetic of [wrap64] *)

Lemma wrap64_range z : - 2^63 ≤ wrap64 z < 2^63.
Proof.
  unfold wrap64.
  pose proof (Z.mod_pos_bound (z + 2^63) (2^64) ltac:(lia)). lia.
Qed.

Lemma wrap64_small z : - 2^63 ≤ z < 2^63 → wrap64 z = z.
Proof.
  intros Hz. unfold wrap64. rewrite Z.mod_small; lia.
Qed.

Lemma wrap64_shift z k : wrap64 (z + k * 2^64) = wrap64 z.
Proof.
  unfold wrap64. f_equal.
  replace (z + k * 2 ^ 64 + 2 ^ 63) with (z + 2 ^ 63 + k * 2 ^ 64) by lia.
  apply Z_mod_plus_full.
Qed.

Lemma wrap64_repr z : ∃ k, wrap64 z = z + k * 2^64.
Proof.
  exists (- ((z + 2^63) `div` 2^64)). unfold wrap64.
  pose proof (Z_div_mod_eq_full (z + 2^63) (2^64)). lia.
Qed.

Lemma wrap64_add_l a b : wrap64 (wrap64 a + b) = wrap64 (a + b).
Proof.
  destruct (wrap64_repr a) as [k ->].
  replace (a + k * 2 ^ 64 + b) with (a + b + k * 2 ^ 64) by lia.
  apply wrap64_shift.
Qed.

Lemma wrap64_add_r a b : wrap64 (a + wrap64 b) = wrap64 (a + b).
Proof. rewrite (Z.add_comm a), wrap64_add_l. f_equal. lia. Qed.

Lemma wrap64_sub_r a b : wrap64 (a - wrap64 b) = wrap64 (a - b).
Proof.
  destruct (wrap64_repr b) as [k ->].
  replace (a - (b + k * 2 ^ 64)) with (a - b + (- k) * 2 ^ 64) by lia.
  apply wrap64_shift.
Qed.

Lemma wrap64_sub_l a b : wrap64 (wrap64 a - b) = wrap64 (a - b).
Proof.
  replace (wrap64 a - b) with (wrap64 a + (- b)) by lia.
  by rewrite wrap64_add_l.
Qed.

Lemma wrap64_0 : wrap64 0 = 0.
Proof. reflexivity. Qed.

(** ** The LRU store *)

Section LRU_facts.
Context {V : Type} `{store.Value V}.
Import store.

Local Abbreviation lruEntry := (@lruEntry V).
Local Abbreviation lruCache := (@lruCache V).
Implicit Types (c : lruCache) (l : list lruEntry) (e : lruEntry) (k : string).
Implicit Types (v : V) (now duration : Z).

Lemma items_lookup_Some k l e :
  items_lookup k l = Some e → key e = k ∧ e ∈ l.
Proof.
  induction l as [|x l IH]; simpl; [done|].
  case_decide.
  - intros [= ->]. split; [done | left].
  - intros Hl. destruct (IH Hl). split; [done | by right].
Qed.

Lemma items_lookup_None k l :
  items_lookup k l = None ↔ k ∉ map key l.
Proof.
  induction l as [|x l IH]; simpl.
  - split; [intros _; apply not_elem_of_nil | done].
  - case_decide; rewrite not_elem_of_cons.
    + split; [done | intros [? _]; congruence].
    + rewrite IH. split; [intros; split; congruence | by intros [_ ?]].
Qed.

Lemma items_lookup_is_Some k l :
  is_Some (items_lookup k l) ↔ k ∈ map key l.
Proof.
  destruct (items_lookup k l) eqn:E.
  - split; [intros _ | by eauto].
    destruct (decide (k ∈ map key l)) as [|Hn]; [done|].
    apply items_lookup_None in Hn. congruence.
  - apply items_lookup_None in E. split; [by intros [? [=]] | done].
Qed.

Lemma items_lookup_app k l l' :
  items_lookup k (l ++ l') =
  match items_lookup k l with Some e => Some e | None => items_lookup k l' end.
Proof.
  induction l as [|x l IH]; simpl; [done|]. by case_decide.
Qed.

Lemma live_bytes_app l l' : live_bytes (l ++ l') = live_bytes l + live_bytes l'.
Proof. induction l as [|x l IH]; simpl; lia. Qed.

Lemma live_bytes_Remove k l e :
  items_lookup k l = Some e →
  live_bytes (ll_Remove k l) =
  live_bytes l - (Z.of_nat (String.length (key e)) + Len (value e)).
Proof.
  induction l as [|x l IH]; simpl; [done|].
  case_decide.
  - intros [= ->]. lia.
  - intros Hl. simpl. rewrite (IH Hl). lia.
Qed.

Lemma keys_Remove_subseteq k l : map key (ll_Remove k l) ⊆ map key l.
Proof.
  induction l as [|x l IH]; simpl; [done|].
  intros y. case_decide; simpl.
  - by right.
  - rewrite !elem_of_cons. intros [->|Hy]; [by left | right; by apply IH].
Qed.

Lemma NoDup_Remove k l : NoDup (map key l) → NoDup (map key (ll_Remove k l)).
Proof.
  induction l as [|x l IH]; simpl; [done|].
  rewrite NoDup_cons. intros [Hx Hl].
  case_decide; simpl; [done|].
  apply NoDup_cons. split; [|by apply IH].
  intros Hin. by apply Hx, (keys_Remove_subseteq k l).
Qed.

Lemma items_lookup_Remove_eq k l :
  NoDup (map key l) → items_lookup k (ll_Remove k l) = None.
Proof.
  induction l as [|x l IH]; simpl; [done|].
  rewrite NoDup_cons. intros [Hx Hl].
  case_decide as Hk; simpl.
  - apply items_lookup_None. by rewrite <- Hk.
  - rewrite decide_False by done. by apply IH.
Qed.

Lemma items_lookup_Remove_ne k k' l :
  k' ≠ k → items_lookup k' (ll_Remove k l) = items_lookup k' l.
Proof.
  intros Hne. induction l as [|x l IH]; simpl; [done|].
  case_decide as Hk; simpl.
  - rewrite decide_False; [done | congruence].
  - by rewrite IH.
Qed.

Lemma not_in_keys_Remove k l :
  NoDup (map key l) → k ∉ map key (ll_Remove k l).
Proof. intros Hl. by apply items_lookup_None, items_lookup_Remove_eq. Qed.


(** *** The invariant is kept by every operation *)

Lemma newLRUCache_inv opts : lru_inv (newLRUCache (V:=V) opts).
Proof.
  split; simpl.
  - by rewrite wrap64_0.
  - constructor.
  - intros k [? Hk]. by rewrite lookup_empty in Hk.
Qed.

Lemma removeElement_inv c e :
  lru_inv c → items_lookup (key e) (ll c) = Some e →
  lru_inv (removeElement c e).
Proof.
  intros [Hu Hn He] Hl. split; simpl.
  - rewrite (live_bytes_Remove _ _ _ Hl), Hu. unfold entry_bytes.
    by rewrite wrap64_sub_r, wrap64_sub_l.
  - by apply NoDup_Remove.
  - intros k. destruct (decide (k = key e)) as [->|Hne].
    + rewrite lookup_delete_eq. by intros [? [=]].
    + rewrite lookup_delete_ne by done.
      rewrite items_lookup_Remove_ne by done. apply He.
Qed.

Lemma removeOldest_loop_inv n c :
  lru_inv c → lru_inv (removeOldest_loop n c).
Proof.
  revert c. induction n as [|n IH]; intros c Hc; simpl; [done|].
  destruct (over_budget c); [|done].
  destruct (ll c) as [|elem l] eqn:El; [done|].
  apply IH, removeElement_inv; [done|].
  rewrite El. simpl. by rewrite decide_True.
Qed.

Lemma removeOldest_inv c : lru_inv c → lru_inv (removeOldest c).
Proof. apply removeOldest_loop_inv. Qed.

Lemma removeOldest_loop_maxBytes n c :
  maxBytes (removeOldest_loop n c) = maxBytes c.
Proof.
  revert c. induction n as [|n IH]; intros c; simpl; [done|].
  destruct (over_budget c); [|done].
  destruct (ll c); [done|]. by rewrite IH.
Qed.

(** The fuel of the loop is enough: when it stops, its condition is false. *)
Lemma removeOldest_loop_stops n c :
  (length (ll c) ≤ n)%nat → over_budget (removeOldest_loop n c) = false.
Proof.
  revert c. induction n as [|n IH]; intros c Hn; simpl.
  - unfold over_budget. destruct (ll c); simpl in *; [|lia].
    by rewrite andb_false_r.
  - destruct (over_budget c) eqn:Eo; [|done].
    destruct (ll c) as [|elem l] eqn:El.
    + unfold over_budget in Eo. rewrite El in Eo. simpl in Eo.
      by rewrite andb_false_r in Eo.
    + apply IH. simpl. rewrite El. simpl. rewrite decide_True by done.
      simpl in Hn. lia.
Qed.

Lemma removeOldest_stops c : over_budget (removeOldest c) = false.
Proof. by apply removeOldest_loop_stops. Qed.

(** More fuel than nodes changes nothing. *)
Lemma removeOldest_loop_fuel n c :
  (length (ll c) ≤ n)%nat → removeOldest_loop n c = removeOldest c.
Proof.
  unfold removeOldest. revert c.
  induction n as [|n IH]; intros c Hn.
  - destruct (ll c); simpl in *; [done | lia].
  - simpl. destruct (ll c) as [|elem l] eqn:El; simpl.
    + by destruct (over_budget c).
    + destruct (over_budget c); [|done].
      rewrite !IH; simpl; rewrite ?El; simpl; rewrite ?decide_True by done;
        simpl in *; try lia.
      * done.
Qed.

(** The loop of [removeOldest], one turn at a time: while the store is over
    its budget the front node goes, otherwise nothing changes. *)
Lemma removeOldest_unfold c :
  removeOldest c =
  if over_budget c then
    match ll c with
    | elem :: _ => removeOldest (removeElement c elem)
    | [] => c
    end
  else c.
Proof.
  unfold removeOldest at 1.
  destruct (ll c) as [|elem l] eqn:El; simpl.
  - by destruct (over_budget c).
  - destruct (over_budget c); [|done]. rewrite El.
    apply removeOldest_loop_fuel. simpl. rewrite El. simpl.
    by rewrite decide_True.
Qed.

Lemma items_lookup_MoveToBack_is_Some k k' e' l :
  key e' = k → is_Some (items_lookup k' l) →
  is_Some (items_lookup k' (ll_Remove k l ++ [e'])).
Proof.
  intros Hk Hl. rewrite items_lookup_app.
  destruct (decide (k' = k)) as [->|Hne].
  - destruct (items_lookup k (ll_Remove k l)); [by eauto|].
    simpl. rewrite decide_True by done. by eauto.
  - rewrite items_lookup_Remove_ne by done. destruct Hl as [x ->]. by eauto.
Qed.

Lemma items_lookup_MoveToBack_eq k e' l :
  key e' = k → NoDup (map key l) →
  items_lookup k (ll_Remove k l ++ [e']) = Some e'.
Proof.
  intros Hk Hl. rewrite items_lookup_app, items_lookup_Remove_eq by done.
  simpl. by rewrite decide_True.
Qed.

Lemma NoDup_MoveToBack k e' l :
  key e' = k → NoDup (map key l) →
  NoDup (map key (ll_Remove k l ++ [e'])).
Proof.
  intros Hk Hl. rewrite map_app. apply NoDup_app. split_and!.
  - by apply NoDup_Remove.
  - intros x Hx. simpl. rewrite Hk, list_elem_of_singleton. intros ->.
    by apply (not_in_keys_Remove k l).
  - simpl. apply NoDup_singleton.
Qed.

Lemma touch_inv c e :
  lru_inv c → items_lookup (key e) (ll c) = Some e → lru_inv (touch c e).
Proof.
  intros [Hu Hn He] Hl. unfold touch. rewrite Hl. split; simpl.
  - unfold ll_MoveToBack.
    rewrite live_bytes_app, (live_bytes_Remove _ _ _ Hl), Hu. simpl.
    f_equal. lia.
  - by apply NoDup_MoveToBack.
  - intros k Hk. by apply items_lookup_MoveToBack_is_Some, He.
Qed.

Lemma Get_inv c k now : lru_inv c → lru_inv (Get c k now).1.2.
Proof.
  intros Hc. unfold Get.
  destruct (items_lookup k (ll c)) as [ele|] eqn:El; [|done].
  destruct (items_lookup_Some _ _ _ El) as [Hk _].
  assert (lru_inv (touch c ele)) by (apply touch_inv; [done | by rewrite Hk]).
  destruct (expiredTime c !! k); [|done].
  by destruct (_ <? now).
Qed.

(** [SetWithExpiration] is [removeOldest] run on a store in which the new
    entry sits at the back of the list. *)
Lemma SetWithExpiration_shape c k v duration now :
  lru_inv c →
  ∃ c' l,
    SetWithExpiration c k v duration now = removeOldest c'
    ∧ lru_inv c'
    ∧ maxBytes c' = maxBytes c
    ∧ ll c' = l ++ [mkEntry k v]
    ∧ expiredTime c' =
        if 0 <? duration then <[k := now + duration]> (expiredTime c)
        else delete k (expiredTime c).
Proof.
  intros [Hu Hn He]. unfold SetWithExpiration.
  destruct (items_lookup k (ll c)) as [entry|] eqn:El.
  - destruct (items_lookup_Some _ _ _ El) as [Hk _].
    eexists _, (ll_Remove k (ll c)). split; [reflexivity|].
    split; [|by simpl; unfold ll_MoveToBack; simpl; rewrite Hk].
    split; simpl; unfold ll_MoveToBack; simpl; rewrite Hk.
    + rewrite live_bytes_app, (live_bytes_Remove _ _ _ El), Hu. simpl.
      rewrite wrap64_add_r, wrap64_add_l, Hk. f_equal. lia.
    + by apply NoDup_MoveToBack.
    + intros k' Hk'. destruct (decide (k' = k)) as [->|Hne].
      * rewrite items_lookup_MoveToBack_eq by done. by eauto.
      * apply items_lookup_MoveToBack_is_Some; [done|]. apply He.
        destruct (0 <? duration).
        -- by rewrite lookup_insert_ne in Hk'.
        -- by rewrite lookup_delete_ne in Hk'.
  - eexists _, (ll c). split; [reflexivity|]. split; [|done].
    split; simpl.
    + rewrite live_bytes_app, Hu. simpl.
      rewrite wrap64_add_r, wrap64_add_l. f_equal. lia.
    + rewrite map_app. simpl. apply NoDup_app. split_and!; [done | |].
      * intros x Hx. rewrite list_elem_of_singleton. intros ->.
        by apply items_lookup_None in El.
      * apply NoDup_singleton.
    + intros k' Hk'. rewrite items_lookup_app.
      destruct (decide (k' = k)) as [->|Hne].
      * rewrite El. simpl. rewrite decide_True by done. by eauto.
      * assert (is_Some (items_lookup k' (ll c))) as [e' ->]; [|by eauto].
        apply He. destruct (0 <? duration).
        -- by rewrite lookup_insert_ne in Hk'.
        -- by rewrite lookup_delete_ne in Hk'.
Qed.

Lemma SetWithExpiration_inv c k v duration now :
  lru_inv c → lru_inv (SetWithExpiration c k v duration now).
Proof.
  intros Hc.
  destruct (SetWithExpiration_shape c k v duration now Hc)
    as (c' & l & -> & Hc' & _).
  by apply removeOldest_inv.
Qed.

Lemma Delete_inv c k : lru_inv c → lru_inv (Delete c k).1.
Proof.
  intros Hc. unfold Delete.
  destruct (items_lookup k (ll c)) as [ele|] eqn:El; [|done].
  destruct (items_lookup_Some _ _ _ El) as [Hk _].
  apply removeElement_inv; [done | by rewrite Hk].
Qed.

Lemma deleteExpired_visit_inv now c k :
  lru_inv c → lru_inv (deleteExpired_visit now c k).
Proof.
  intros Hc. unfold deleteExpired_visit.
  destruct (expiredTime c !! k); [|done].
  destruct (_ <? now); [|done].
  destruct (items_lookup k (ll c)) as [ele|] eqn:El; [|done].
  destruct (items_lookup_Some _ _ _ El) as [Hk _].
  apply removeElement_inv; [done | by rewrite Hk].
Qed.

Lemma deleteExpired_inv c now order :
  lru_inv c → lru_inv (deleteExpired c now order).
Proof.
  unfold deleteExpired. generalize (take maxScan order) as ks.
  intros ks. revert c. induction ks as [|k ks IH]; intros c Hc; simpl.
  - done.
  - by apply IH, deleteExpired_visit_inv.
Qed.

Lemma Clear_inv c order : lru_inv (Clear c order).
Proof.
  split; simpl.
  - by rewrite wrap64_0.
  - constructor.
  - intros k [? Hk]. by rewrite lookup_empty in Hk.
Qed.

Lemma lru_exec_inv c o : lru_inv c → lru_inv (exec c o).
Proof.
  intros Hc. destruct o; simpl.
  - by apply Get_inv.
  - destruct (items_lookup k (ll c)) as [ele|] eqn:El; [|done].
    destruct (items_lookup_Some _ _ _ El) as [Hk _].
    apply touch_inv; [done | by rewrite Hk].
  - by apply SetWithExpiration_inv.
  - by apply SetWithExpiration_inv.
  - by apply Delete_inv.
  - apply Clear_inv.
  - destruct (stopped c); [done | by apply deleteExpired_inv].
  - by destruct Hc.
Qed.

Lemma lru_run_inv opts history : lru_inv (run (V:=V) opts history).
Proof.
  unfold run. generalize (newLRUCache_inv opts).
  generalize (newLRUCache (V:=V) opts) as c.
  induction history as [|o os IH]; intros c Hc; simpl; [done|].
  by apply IH, lru_exec_inv.
Qed.

(** *** Hits, expired entries and deletion *)

Lemma touch_ll c e :
  items_lookup (key e) (ll c) = Some e →
  ll (touch c e) = ll_Remove (key e) (ll c) ++ [e]
  ∧ expiredTime (touch c e) = expiredTime c
  ∧ usedBytes (touch c e) = usedBytes c.
Proof. intros Hl. unfold touch. by rewrite Hl. Qed.

(** A live entry without expiry, or whose expiry is not yet behind the
    clock, is a hit: its node goes to the back of the list and no goroutine
    is started. *)
Lemma Get_hit c k e now :
  items_lookup k (ll c) = Some e →
  (∀ expireTime, expiredTime c !! k = Some expireTime → now ≤ expireTime) →
  ∃ c', Get c k now = (Some (value e), true, c', [])
        ∧ ll c' = ll_Remove k (ll c) ++ [e]
        ∧ expiredTime c' = expiredTime c.
Proof.
  intros Hl Hexp. destruct (items_lookup_Some _ _ _ Hl) as [Hk _].
  assert (items_lookup (key e) (ll c) = Some e) as Hl' by by rewrite Hk.
  destruct (touch_ll c e Hl') as (Hll & Het & _). rewrite Hk in Hll.
  exists (touch c e). split; [|done].
  unfold Get. rewrite Hl.
  destruct (expiredTime c !! k) as [t|] eqn:Et; [|done].
  specialize (Hexp t eq_refl).
  destruct (t <? now) eqn:Elt; [|done]. apply Z.ltb_lt in Elt. lia.
Qed.

(** A live entry whose expiry is behind the clock is a miss: the store is
    left as it is and [go c.Delete(key)] is started. *)
Lemma Get_expired c k e expireTime now :
  items_lookup k (ll c) = Some e →
  expiredTime c !! k = Some expireTime → expireTime < now →
  Get c k now = (None, false, c, [GoDelete k]).
Proof.
  intros Hl Het Hlt. unfold Get. rewrite Hl, Het.
  apply Z.ltb_lt in Hlt. by rewrite Hlt.
Qed.

Lemma Get_absent c k now :
  items_lookup k (ll c) = None → Get c k now = (None, false, c, []).
Proof. intros Hl. unfold Get. by rewrite Hl. Qed.

(** After [Delete(key)] the key is in neither map. *)
Lemma Delete_removes c k :
  lru_inv c →
  items_lookup k (ll (Delete c k).1) = None
  ∧ expiredTime (Delete c k).1 !! k = None.
Proof.
  intros [Hu Hn He]. unfold Delete.
  destruct (items_lookup k (ll c)) as [ele|] eqn:El; simpl.
  - destruct (items_lookup_Some _ _ _ El) as [Hk _]. rewrite Hk.
    split; [by apply items_lookup_Remove_eq | apply lookup_delete_eq].
  - split; [done|].
    destruct (expiredTime c !! k) eqn:Et; [|done].
    destruct (He k) as [? Hs]; [by eauto | congruence].
Qed.

Lemma items_lookup_back l e :
  NoDup (map key (l ++ [e])) → items_lookup (key e) (l ++ [e]) = Some e.
Proof.
  rewrite map_app. intros (_ & Hd & _)%NoDup_app.
  rewrite items_lookup_app.
  assert (items_lookup (key e) l = None) as ->.
  { apply items_lookup_None. intros Hin. apply (Hd _ Hin). simpl. left. }
  simpl. by rewrite decide_True.
Qed.

Lemma removeOldest_loop_expiry_None n c k :
  expiredTime c !! k = None → expiredTime (removeOldest_loop n c) !! k = None.
Proof.
  revert c. induction n as [|n IH]; intros c Hk; simpl; [done|].
  destruct (over_budget c); [|done].
  destruct (ll c) as [|elem l]; [done|].
  apply IH. simpl. destruct (decide (key elem = k)) as [->|Hne].
  - apply lookup_delete_eq.
  - by rewrite lookup_delete_ne.
Qed.

(** The entry at the back of the list outlives [removeOldest] when the
    store has no budget or the entry alone is within it. *)
Lemma removeOldest_loop_keeps_back n c l e :
  lru_inv c → ll c = l ++ [e] →
  maxBytes c ≤ 0 ∨ entry_bytes e ≤ maxBytes c →
  ∃ l', ll (removeOldest_loop n c) = l' ++ [e]
        ∧ expiredTime (removeOldest_loop n c) !! key e
          = expiredTime c !! key e.
Proof.
  revert c l. induction n as [|n IH]; intros c l Hc Hl Hfit; simpl.
  - by exists l.
  - destruct (over_budget c) eqn:Eo; [|by exists l].
    unfold over_budget in Eo.
    rewrite !andb_true_iff, !Z.ltb_lt in Eo. destruct Eo as [[Hpos Hover] _].
    destruct l as [|x l0].
    + exfalso. destruct Hc as [Hu _ _]. rewrite Hl in Hu. simpl in Hu.
      unfold entry_bytes in Hfit. rewrite Z.add_0_r in Hu. lia.
    + rewrite Hl. simpl.
      assert (key x ≠ key e) as Hne.
      { destruct Hc as [_ Hn _]. rewrite Hl in Hn. simpl in Hn.
        apply NoDup_cons in Hn as [Hx _]. intros Heq. apply Hx.
        rewrite map_app, Heq. apply elem_of_app. right. simpl. left. }
      destruct (IH (removeElement c x) l0) as (l' & Hl' & He').
      * apply removeElement_inv; [done|]. rewrite Hl. simpl.
        by rewrite decide_True.
      * simpl. rewrite Hl. simpl. by rewrite decide_True.
      * done.
      * exists l'. split; [done|]. rewrite He'. simpl.
        by rewrite lookup_delete_ne.
Qed.

(** What [SetWithExpiration] leaves behind for an entry that is kept. *)
Lemma SetWithExpiration_kept c k v duration now :
  lru_inv c →
  maxBytes c ≤ 0 ∨ entry_bytes (mkEntry k v) ≤ maxBytes c →
  let c1 := SetWithExpiration c k v duration now in
  (∃ l, ll c1 = l ++ [mkEntry k v])
  ∧ items_lookup k (ll c1) = Some (mkEntry k v)
  ∧ expiredTime c1 !! k =
      if 0 <? duration then Some (now + duration) else None.
Proof.
  intros Hc Hfit c1.
  pose proof (SetWithExpiration_inv c k v duration now Hc) as Hc1.
  destruct (SetWithExpiration_shape c k v duration now Hc)
    as (c' & l & Heq & Hc' & Hm & Hl & Het).
  rewrite <- Hm in Hfit.
  destruct (removeOldest_loop_keeps_back (length (ll c')) c' l _ Hc' Hl Hfit)
    as (l' & Hl' & He').
  fold (removeOldest c') in Hl', He'. rewrite <- Heq in Hl', He'.
  fold c1 in Hl', He', Hc1. simpl in He'.
  split_and!.
  - by exists l'.
  - rewrite Hl'. apply (items_lookup_back l' (mkEntry k v)).
    rewrite <- Hl'. by destruct Hc1.
  - rewrite He', Het. destruct (0 <? duration).
    + apply lookup_insert_eq.
    + apply lookup_delete_eq.
Qed.

(** A [SetWithExpiration] with [duration ≤ 0] leaves no expiry for its key,
    whether the entry is kept or not. *)
Lemma SetWithExpiration_clears_expiry c k v duration now :
  lru_inv c → duration ≤ 0 →
  expiredTime (SetWithExpiration c k v duration now) !! k = None.
Proof.
  intros Hc Hd.
  destruct (SetWithExpiration_shape c k v duration now Hc)
    as (c' & l & -> & _ & _ & _ & Het).
  apply removeOldest_loop_expiry_None. rewrite Het.
  destruct (0 <? duration) eqn:E; [apply Z.ltb_lt in E; lia|].
  apply lookup_delete_eq.
Qed.

(** *** The budget *)

Lemma removeOldest_maxBytes c : maxBytes (removeOldest c) = maxBytes c.
Proof. apply removeOldest_loop_maxBytes. Qed.

Lemma SetWithExpiration_maxBytes c k v duration now :
  maxBytes (SetWithExpiration c k v duration now) = maxBytes c.
Proof.
  unfold SetWithExpiration. rewrite removeOldest_maxBytes.
  by destruct (items_lookup k (ll c)).
Qed.

Lemma deleteExpired_maxBytes c now order :
  maxBytes (deleteExpired c now order) = maxBytes c.
Proof.
  unfold deleteExpired. generalize (take maxScan order) as ks.
  intros ks. revert c. induction ks as [|k ks IH]; intros c; simpl; [done|].
  rewrite IH. unfold deleteExpired_visit.
  destruct (expiredTime c !! k); [|done].
  destruct (_ <? now); [|done].
  by destruct (items_lookup k (ll c)).
Qed.

Lemma exec_maxBytes c o : maxBytes (exec c o) = maxBytes c.
Proof.
  destruct o; simpl; try done.
  - unfold Get. destruct (items_lookup k (ll c)) as [ele|]; [|done].
    assert (maxBytes (touch c ele) = maxBytes c) as Ht.
    { unfold touch. by destruct (items_lookup (key ele) (ll c)). }
    destruct (expiredTime c !! k); [|done].
    by destruct (_ <? now).
  - destruct (items_lookup k (ll c)) as [ele|]; [|done].
    unfold touch. by destruct (items_lookup (key ele) (ll c)).
  - apply SetWithExpiration_maxBytes.
  - apply SetWithExpiration_maxBytes.
  - unfold Delete. by destruct (items_lookup k (ll c)).
  - destruct (stopped c); [done | apply deleteExpired_maxBytes].
Qed.

Lemma run_maxBytes opts history :
  maxBytes (run (V:=V) opts history) = MaxBytes opts.
Proof.
  unfold run. change (MaxBytes opts) with (maxBytes (newLRUCache (V:=V) opts)).
  generalize (newLRUCache (V:=V) opts) as c.
  induction history as [|o os IH]; intros c; simpl; [done|].
  by rewrite IH, exec_maxBytes.
Qed.

(** Once the loop of [removeOldest] has stopped on a store with a positive
    budget, the counter is within the budget. *)
Lemma within_budget_after_removeOldest c :
  lru_inv c → 0 < maxBytes c → usedBytes (removeOldest c) ≤ maxBytes c.
Proof.
  intros Hc Hmax.
  pose proof (removeOldest_stops c) as Hstop.
  pose proof (removeOldest_inv c Hc) as [Hu _ _].
  pose proof (removeOldest_maxBytes c) as Hm.
  unfold over_budget in Hstop. rewrite Hm in Hstop.
  destruct (ll (removeOldest c)) as [|e l] eqn:El.
  - rewrite Hu. simpl. rewrite wrap64_0. lia.
  - simpl length in Hstop.
    rewrite !andb_false_iff, !Z.ltb_ge in Hstop. lia.
Qed.

Lemma SetWithExpiration_within_budget c k v duration now :
  lru_inv c → 0 < maxBytes c →
  usedBytes (SetWithExpiration c k v duration now) ≤ maxBytes c.
Proof.
  intros Hc Hmax.
  pose proof (SetWithExpiration_inv c k v duration now Hc) as Hinv.
  pose proof (SetWithExpiration_maxBytes c k v duration now) as Hm.
  pose proof (within_budget_after_removeOldest _ Hinv) as Hb.
  rewrite Hm in Hb. specialize (Hb Hmax).
  (* the store that [Set] returns is already at a fixed point of the loop *)
  assert (removeOldest (SetWithExpiration c k v duration now)
          = SetWithExpiration c k v duration now) as Hfix.
  { rewrite removeOldest_unfold.
    unfold SetWithExpiration at 1. by rewrite removeOldest_stops. }
  by rewrite Hfix in Hb.
Qed.

(** C7, amended.  Updating a key with [Set], or with [SetWithExpiration]
    and a [duration ≤ 0], deletes the expiry recorded for it.  So after
    [SetWithExpiration(k, v, Δ)] (which records the expiry [t0 + Δ] for an
    entry that is kept) followed by [Set(k, v')], a [Get(k)] at any later
    time, also after [Δ] has elapsed, returns [(v', true)] provided the
    store has no budget ([maxBytes ≤ 0]) or the entry [len(k) + v'.Len()]
    is within [maxBytes]: a larger entry is evicted by the [Set] itself. *)
Theorem C7_update_without_ttl_clears_expiry c k v v' Δ t0 t1 :
  lru_inv c → 0 < Δ →
  (maxBytes c ≤ 0 ∨ entry_bytes (mkEntry k v) ≤ maxBytes c →
   expiredTime (SetWithExpiration c k v Δ t0) !! k = Some (t0 + Δ))
  ∧ (∀ duration, duration ≤ 0 →
       expiredTime
         (SetWithExpiration (SetWithExpiration c k v Δ t0) k v' duration t1)
         !! k = None)
  ∧ expiredTime (Set_ (SetWithExpiration c k v Δ t0) k v' t1) !! k = None
  ∧ (maxBytes c ≤ 0 ∨ entry_bytes (mkEntry k v') ≤ maxBytes c →
     ∀ t, (Get (Set_ (SetWithExpiration c k v Δ t0) k v' t1) k t).1.1
          = (Some v', true)).
Proof.
  intros Hc HΔ.
  pose proof (SetWithExpiration_inv c k v Δ t0 Hc) as Hc1.
  split_and!.
  - intros Hfit.
    destruct (SetWithExpiration_kept c k v Δ t0 Hc Hfit) as (_ & _ & Het).
    rewrite Het. apply Z.ltb_lt in HΔ. by rewrite HΔ.
  - intros duration Hd. by apply SetWithExpiration_clears_expiry.
  - apply SetWithExpiration_clears_expiry; [done | lia].
  - intros Hfit t. unfold Set_.
    rewrite <- (SetWithExpiration_maxBytes c k v Δ t0) in Hfit.
    destruct (SetWithExpiration_kept _ k v' 0 t1 Hc1 Hfit) as (_ & Hl & Het).
    simpl in Het.
    destruct (Get_hit _ k _ t Hl) as (c' & -> & _); [|done].
    intros expireTime. by rewrite Het.
Qed.

(** C8, amended.  Let [SetWithExpiration(k, v, Δ)] with [Δ > 0] run at [t0]
    on a store without budget ([maxBytes ≤ 0]) or in which the entry
    [len(k) + v.Len()] is within [maxBytes] (a larger entry is evicted by
    the call itself).  A [Get(k)] after the expiry [t0 + Δ] returns
    [(nil, false)], leaves the store as it is (the entry is still in both
    maps) and starts the goroutine [Delete(k)]; once that goroutine has run,
    on this store or on any later state of it (any store that satisfies
    the invariant, as this one does), [k] is in neither the primary map
    nor the expiry map.  A [Get(k)] not after the expiry returns
    [(v, true)] and puts the node at the back of the list. *)
Theorem C8_get_of_expiring_entry c k v Δ t0 :
  lru_inv c → 0 < Δ →
  maxBytes c ≤ 0 ∨ entry_bytes (mkEntry k v) ≤ maxBytes c →
  (∀ t, t0 + Δ < t →
     Get (SetWithExpiration c k v Δ t0) k t
       = (None, false, SetWithExpiration c k v Δ t0, [GoDelete k])
     ∧ items_lookup k (ll (SetWithExpiration c k v Δ t0))
       = Some (mkEntry k v)
     ∧ expiredTime (SetWithExpiration c k v Δ t0) !! k = Some (t0 + Δ))
  ∧ lru_inv (SetWithExpiration c k v Δ t0)
  ∧ (∀ c', lru_inv c' →
       items_lookup k (ll (run_task c' (GoDelete k))) = None
       ∧ expiredTime (run_task c' (GoDelete k)) !! k = None)
  ∧ (∀ t, t ≤ t0 + Δ →
       ∃ c', Get (SetWithExpiration c k v Δ t0) k t = (Some v, true, c', [])
             ∧ ll c' = ll_Remove k (ll (SetWithExpiration c k v Δ t0))
                       ++ [mkEntry k v]).
Proof.
  intros Hc HΔ Hfit.
  pose proof (SetWithExpiration_inv c k v Δ t0 Hc) as Hc1.
  destruct (SetWithExpiration_kept c k v Δ t0 Hc Hfit) as (_ & Hl & Het).
  apply Z.ltb_lt in HΔ. rewrite HΔ in Het.
  split_and!.
  - intros t Ht. split_and!; [|done|done].
    by apply (Get_expired _ k (mkEntry k v) (t0 + Δ)).
  - done.
  - intros c' Hc'. simpl. by apply Delete_removes.
  - intros t Ht.
    destruct (Get_hit _ k _ t Hl) as (c' & Hg & Hll & _).
    + intros expireTime. rewrite Het. intros [= <-]. lia.
    + by exists c'.
Qed.

End LRU_facts.

(** The overlap test of the suite ([MaxBytes] 100, keys and values of two
    bytes). *)
Lemma C7_witness :
  store.lru_inv (store.newLRUCache (V:=string) (store.mkOptions 100 0 0 0 0 false))
  ∧ 0 < 100
  ∧ store.expiredTime
      (store.Set_
         (store.SetWithExpiration
            (store.newLRUCache (store.mkOptions 100 0 0 0 0 false))
            "k1" "v1" 100 0) "k1" "v2" 10) !! "k1" = None.
Proof.
  pose proof (newLRUCache_inv (V:=string) (store.mkOptions 100 0 0 0 0 false))
    as Hinv.
  split; [exact Hinv|]. split; [lia|].
  apply (C7_update_without_ttl_clears_expiry
           (store.newLRUCache (store.mkOptions 100 0 0 0 0 false))
           "k1" "v1" "v2" 100 0 10 Hinv); lia.
Defined.

(** C7 as stated fails on a store of four bytes.  The entry
    [("k1", "v1")] takes four bytes: [SetWithExpiration] keeps it and
    records the expiry 100 for it.  The update [Set("k1", "v2222")] makes
    it an entry of seven bytes, which the [Set] evicts itself; the [Get]
    at 200, after the 100 have elapsed, is a miss. *)
Lemma C7_counterexample :
  store.items_lookup "k1"
    (store.ll
       (store.SetWithExpiration
          (store.newLRUCache (store.mkOptions 4 0 0 0 0 false))
          "k1" "v1" 100 0)) = Some (store.mkEntry "k1" "v1")
  ∧ store.expiredTime
      (store.SetWithExpiration
         (store.newLRUCache (V:=string) (store.mkOptions 4 0 0 0 0 false))
         "k1" "v1" 100 0) !! "k1" = Some 100
  ∧ (store.Get
       (store.Set_
          (store.SetWithExpiration
             (store.newLRUCache (store.mkOptions 4 0 0 0 0 false))
             "k1" "v1" 100 0) "k1" "v2222" 10) "k1" 200).1.1
    = (None, false).
Proof. split_and!; vm_compute; reflexivity. Qed.

(** The expiry test of the suite: a [Get] before the expiry is a hit. *)
Lemma C8_witness :
  store.lru_inv (store.newLRUCache (V:=string) (store.mkOptions 100 0 0 0 0 false))
  ∧ 0 < 50
  ∧ (store.maxBytes (store.newLRUCache (V:=string) (store.mkOptions 100 0 0 0 0 false)) ≤ 0
     ∨ store.entry_bytes (store.mkEntry "expireKey" "123")
       ≤ store.maxBytes
           (store.newLRUCache (V:=string) (store.mkOptions 100 0 0 0 0 false)))
  ∧ ∃ c',
      store.Get
        (store.SetWithExpiration
           (store.newLRUCache (store.mkOptions 100 0 0 0 0 false))
           "expireKey" "123" 50 0) "expireKey" 10
      = (Some "123", true, c', []).
Proof.
  pose proof (newLRUCache_inv (V:=string) (store.mkOptions 100 0 0 0 0 false))
    as Hinv.
  assert (store.maxBytes
            (store.newLRUCache (V:=string) (store.mkOptions 100 0 0 0 0 false)) ≤ 0
          ∨ store.entry_bytes (store.mkEntry "expireKey" "123")
            ≤ store.maxBytes
                (store.newLRUCache (V:=string)
                   (store.mkOptions 100 0 0 0 0 false))) as Hfit.
  { right. vm_compute. discriminate. }
  split; [exact Hinv|]. split; [lia|]. split; [exact Hfit|].
  destruct (C8_get_of_expiring_entry
              (store.newLRUCache (store.mkOptions 100 0 0 0 0 false))
              "expireKey" "123" 50 0 Hinv ltac:(lia) Hfit)
    as (_ & _ & _ & Hhit).
  destruct (Hhit 10 ltac:(lia)) as (c' & Hg & _).
  by exists c'.
Defined.

(** C8 as stated fails on a store of one byte: the entry takes three and
    is evicted by [SetWithExpiration] itself, so a [Get] before the expiry
    is a miss and a [Get] after it starts no goroutine. *)
Lemma C8_counterexample :
  (store.Get
     (store.SetWithExpiration
        (store.newLRUCache (store.mkOptions 1 0 0 0 0 false))
        "k" "vv" 10 0) "k" 5).1.1 = (None, false)
  ∧ (store.Get
       (store.SetWithExpiration
          (store.newLRUCache (store.mkOptions 1 0 0 0 0 false))
          "k" "vv" 10 0) "k" 20).2 = [].
Proof. split; vm_compute; reflexivity. Qed.

(** ** The single-flight coordinator *)

Section Do_facts.
Context {R : Type} (fn : string → nat → option R).
Import singleflight.

Local Abbreviation state := (@state R).
Local Abbreviation call := (@call R).
Implicit Types (s : state) (t c : nat) (k : string).

Lemma val_alter_set_val (l : list call) r c c0 :
  val <$> alter (set_val r) c l !! c0 =
  if decide (c = c0) then (λ _, Some r) <$> l !! c else val <$> l !! c0.
Proof.
  rewrite list_lookup_alter. case_decide; [|done].
  by destruct (l !! c).
Qed.

Lemma val_alter_wg_Done (l : list call) c c0 :
  val <$> alter wg_Done c l !! c0 = val <$> l !! c0.
Proof.
  rewrite list_lookup_alter. case_decide as Hc; [|done]. subst.
  by destruct (l !! c0).
Qed.

Lemma val_app_new (l : list call) c0 v :
  val <$> l !! c0 = Some v → val <$> (l ++ [mkCall 1 None]) !! c0 = Some v.
Proof.
  destruct (l !! c0) as [cl|] eqn:E; [|done]. intros Hv.
  by rewrite (lookup_app_l_Some _ _ _ _ E).
Qed.

Lemma val_app_new_Some (l : list call) c0 r :
  val <$> (l ++ [mkCall 1 None]) !! c0 = Some (Some r) →
  val <$> l !! c0 = Some (Some r).
Proof.
  destruct (decide (c0 < length l)%nat) as [Hlt|Hge].
  - by rewrite lookup_app_l.
  - rewrite lookup_app_r by lia.
    by destruct (c0 - length l)%nat as [|[|n]].
Qed.

Lemma init_inv keys : do_inv fn (init (R:=R) keys).
Proof.
  split; simpl.
  - intros t k c Ht. apply list_lookup_fmap_Some in Ht as (? & [=] & ?).
  - intros t t' k k' c Ht. apply list_lookup_fmap_Some in Ht as (? & [=] & ?).
  - constructor.
  - intros i Hi. by apply elem_of_nil in Hi.
  - intros c r. by destruct c.
  - intros c. by destruct c.
  - intros t k c p Ht. apply list_lookup_fmap_Some in Ht as (? & [= _ ->] & ?).
    by intros [|[|]].
  - intros t k c x Ht. apply list_lookup_fmap_Some in Ht as (? & [=] & ?).
  - intros n i Hn. by destruct n.
Qed.

(** A step of thread [t] leaves every thread its key. *)
Lemma thread_key_stable s t key p0 p' t0 k :
  threads s !! t = Some (key, p0) →
  (∃ p, threads s !! t0 = Some (k, p)) →
  ∃ p, <[t := (key, p')]> (threads s) !! t0 = Some (k, p).
Proof.
  intros Et [p Ht0]. destruct (decide (t = t0)) as [->|Hne].
  - rewrite Et in Ht0. injection Ht0 as -> ->. exists p'.
    apply list_lookup_insert_eq. by apply lookup_lt_Some in Et.
  - exists p. by rewrite list_lookup_insert_ne.
Qed.

Ltac thread_cases H :=
  apply list_lookup_insert_Some in H as [(? & ? & _) | (? & H)];
  simplify_eq.

(** A step that moves one thread to a program counter other than [CallFn]
    and leaves the call records and the log alone. *)
Lemma pc_change_inv s t key p0 p' mm :
  do_inv fn s → threads s !! t = Some (key, p0) →
  (∀ c, p' ≠ CallFn c) →
  (∀ c, p' = WgDone c ∨ p' = Forget c ∨ p' = Return c →
        ∃ r, val <$> calls s !! c = Some (Some r)) →
  (∀ c x, p' = Returned c x →
        ∃ r, x = Some r ∧ val <$> calls s !! c = Some (Some r)) →
  do_inv fn {| m := mm; calls := calls s;
            threads := <[t := (key, p')]> (threads s); log := log s |}.
Proof.
  intros [H1 H2 H3 H8 H4 H5 H6 H7 H9] Et Hnc Hafter Hret.
  split; simpl; try done.
  - intros t0 k c Ht. thread_cases Ht; [by destruct (Hnc c) | by eauto].
  - intros t0 t1 k k' c Ht0 Ht1.
    thread_cases Ht0; [by destruct (Hnc c)|].
    thread_cases Ht1; [by destruct (Hnc c)|]. by eauto.
  - intros t0 k c p Ht Hp. thread_cases Ht; [by apply Hafter | by eauto].
  - intros t0 k c x Ht. thread_cases Ht; [by apply Hret | by eauto].
  - intros n i Hn. destruct (H9 n i Hn) as (k & p & Hp & Hr).
    destruct (thread_key_stable s t key p0 p' (inv_caller i) k Et)
      as [p1 Hp1]; by eauto.
Qed.

Lemma step_alloc_inv s t key mm :
  do_inv fn s → threads s !! t = Some (key, Enter) →
  do_inv fn {| m := mm; calls := calls s ++ [mkCall 1 None];
            threads := <[t := (key, CallFn (length (calls s)))]> (threads s);
            log := log s |}.
Proof.
  intros [H1 H2 H3 H8 H4 H5 H6 H7 H9] Et. split; simpl.
  - intros t0 k c Ht. thread_cases Ht.
    + split.
      * intros (i & Hi & Hin)%list_elem_of_fmap. apply H8 in Hin. lia.
      * rewrite lookup_app_r by lia. by rewrite Nat.sub_diag.
    + destruct (H1 _ _ _ Ht) as [Hn Hv]. split; [done | by apply val_app_new].
  - assert (∀ t0 k, threads s !! t0 = Some (k, CallFn (length (calls s))) →
                    False) as Hfresh.
    { intros t0 k Ht0. destruct (H1 _ _ _ Ht0) as [_ Hv].
      rewrite lookup_ge_None_2 in Hv; [done | lia]. }
    intros t0 t1 k k' c Ht0 Ht1.
    thread_cases Ht0; thread_cases Ht1; try done.
    + by destruct (Hfresh _ _ Ht1).
    + by destruct (Hfresh _ _ Ht0).
    + by eauto.
  - done.
  - intros i Hi. rewrite length_app. simpl. apply H8 in Hi. lia.
  - intros c r Hv. by apply H4, val_app_new_Some.
  - intros c Hw.
    destruct (decide (c < length (calls s))%nat) as [Hlt|Hge].
    + rewrite lookup_app_l in Hw by done.
      destruct (H5 c Hw) as [r Hr]. exists r. by apply val_app_new.
    + rewrite lookup_app_r in Hw by lia.
      by destruct (c - length (calls s))%nat as [|[|n]].
  - intros t0 k c p Ht Hp. thread_cases Ht; [by destruct Hp as [|[|]]|].
    destruct (H6 _ _ _ _ Ht Hp) as [r Hr]. exists r. by apply val_app_new.
  - intros t0 k c x Ht. thread_cases Ht.
    destruct (H7 _ _ _ _ Ht) as (r & -> & Hr). exists r.
    split; [done | by apply val_app_new].
  - intros n i Hn. destruct (H9 n i Hn) as (k & p & Hp & Hr).
    destruct (thread_key_stable s t key Enter (CallFn (length (calls s)))
                (inv_caller i) k Et) as [p1 Hp1]; by eauto.
Qed.

Lemma step_CallFn_inv s t key c r :
  do_inv fn s → threads s !! t = Some (key, CallFn c) →
  fn key (length (log s)) = Some r →
  do_inv fn {| m := m s; calls := alter (set_val r) c (calls s);
            threads := <[t := (key, WgDone c)]> (threads s);
            log := log s ++ [mkInvocation t c r] |}.
Proof.
  intros [H1 H2 H3 H8 H4 H5 H6 H7 H9] Et Hfn.
  destruct (H1 _ _ _ Et) as [Hc Hv].
  destruct (calls s !! c) as [cl|] eqn:Ec; [|done].
  assert (val <$> alter (set_val r) c (calls s) !! c = Some (Some r)) as Hnew.
  { rewrite val_alter_set_val, decide_True by done. by rewrite Ec. }
  assert (∀ c0 r0, val <$> calls s !! c0 = Some (Some r0) →
            val <$> alter (set_val r) c (calls s) !! c0 = Some (Some r0))
    as Hkeep.
  { intros c0 r0 Hr0. rewrite val_alter_set_val. case_decide; [|done].
    subst. rewrite Ec in Hr0. simpl in *. congruence. }
  split; simpl.
  - intros t0 k c0 Ht. thread_cases Ht.
    destruct (H1 _ _ _ Ht) as [Hn Hv0].
    assert (c0 ≠ c) as Hne by (intros ->; by eauto).
    split.
    + rewrite fmap_app. apply not_elem_of_app. split; [done|].
      simpl. by rewrite list_elem_of_singleton.
    + by rewrite val_alter_set_val, decide_False.
  - intros t0 t1 k k' c0 Ht0 Ht1.
    thread_cases Ht0. thread_cases Ht1. by eauto.
  - rewrite fmap_app. apply NoDup_app. split_and!; [done | | apply NoDup_singleton].
    intros x Hx. simpl. rewrite list_elem_of_singleton. by intros ->.
  - intros i. rewrite length_alter, elem_of_app, list_elem_of_singleton.
    intros [Hi| ->]; [by apply H8|]. simpl. by apply lookup_lt_Some in Ec.
  - intros c0 r0. rewrite val_alter_set_val. case_decide as Hd.
    + subst. rewrite Ec. simpl. intros [= <-]. exists t.
      apply elem_of_app. right. by apply list_elem_of_singleton.
    + intros Hr0. destruct (H4 _ _ Hr0) as [t0 Hin]. exists t0.
      apply elem_of_app. by left.
  - intros c0 Hw. destruct (decide (c = c0)) as [<-|Hne]; [by eauto|].
    rewrite list_lookup_alter_ne in Hw by done.
    destruct (H5 _ Hw) as [r0 Hr0]. by eauto.
  - intros t0 k c0 p Ht Hp. thread_cases Ht.
    + destruct Hp as [|[|]]; simplify_eq. by eauto.
    + destruct (H6 _ _ _ _ Ht Hp) as [r0 Hr0]. by eauto.
  - intros t0 k c0 x Ht. thread_cases Ht.
    destruct (H7 _ _ _ _ Ht) as (r0 & -> & Hr0). by eauto.
  - intros n i Hn. apply lookup_app_Some in Hn as [Hn|[Hge Hn]].
    + destruct (H9 n i Hn) as (k & p & Hp & Hr0).
      destruct (thread_key_stable s t key (CallFn c) (WgDone c)
                  (inv_caller i) k Et) as [p1 Hp1]; by eauto.
    + apply list_lookup_singleton_Some in Hn as [Hn <-]. simpl.
      exists key, (WgDone c). split.
      * apply list_lookup_insert_eq. by apply lookup_lt_Some in Et.
      * rewrite <- Hfn. f_equal. lia.
Qed.

Lemma step_WgDone_inv s t key c :
  do_inv fn s → threads s !! t = Some (key, WgDone c) →
  do_inv fn {| m := m s; calls := alter wg_Done c (calls s);
            threads := <[t := (key, Forget c)]> (threads s);
            log := log s |}.
Proof.
  intros [H1 H2 H3 H8 H4 H5 H6 H7 H9] Et.
  destruct (H6 _ _ _ _ Et (or_introl eq_refl)) as [r Hr].
  split; simpl.
  - intros t0 k c0 Ht. thread_cases Ht. rewrite val_alter_wg_Done. by eauto.
  - intros t0 t1 k k' c0 Ht0 Ht1.
    thread_cases Ht0. thread_cases Ht1. by eauto.
  - done.
  - intros i Hi. rewrite length_alter. by apply H8.
  - intros c0 r0. rewrite val_alter_wg_Done. by apply H4.
  - intros c0 Hw. rewrite val_alter_wg_Done.
    destruct (decide (c = c0)) as [<-|Hne]; [by eauto|].
    rewrite list_lookup_alter_ne in Hw by done. by apply H5.
  - intros t0 k c0 p Ht Hp. rewrite val_alter_wg_Done. thread_cases Ht.
    + destruct Hp as [|[|]]; simplify_eq. by eauto.
    + by eauto.
  - intros t0 k c0 x Ht. rewrite val_alter_wg_Done. thread_cases Ht.
    by eauto.
  - intros n i Hn. destruct (H9 n i Hn) as (k & p & Hp & Hr0).
    destruct (thread_key_stable s t key (WgDone c) (Forget c)
                (inv_caller i) k Et) as [p1 Hp1]; by eauto.
Qed.

Lemma do_step_inv s t s' : do_inv fn s → step fn t s = Some s' → do_inv fn s'.
Proof.
  intros Hs. unfold step.
  destruct (threads s !! t) as [[key p]|] eqn:Et; [|done].
  destruct p as [|c|c|c|c|c|c x].
  - destruct (default ∅ (m s) !! key) as [c|]; intros [= <-].
    + eapply pc_change_inv; [done | done | done | |].
      * by intros c0 [|[|]].
      * intros ? ? [=].
    + by apply step_alloc_inv.
  - destruct (calls s !! c) as [cl|] eqn:Ec; [|done].
    case_decide as Hw; intros [= <-].
    eapply pc_change_inv; [done | done | done | |].
    + intros c0 [[=]|[[=]|[= <-]]].
      destruct Hs as [_ _ _ _ _ H5 _ _ _]. apply H5. by rewrite Ec, <- Hw.
    + intros ? ? [=].
  - destruct (fn key (length (log s))) as [r|] eqn:Er; [|done].
    intros [= <-]. by apply step_CallFn_inv.
  - intros [= <-]. by apply step_WgDone_inv.
  - intros [= <-]. eapply pc_change_inv; [done | done | done | |].
    + intros c0 [[=]|[[=]|[= <-]]].
      destruct Hs as [_ _ _ _ _ _ H6 _ _]. eapply H6; [done|]. by right; left.
    + intros ? ? [=].
  - intros [= <-]. eapply pc_change_inv; [done | done | done | |].
    + intros c0 [|[|]]; done.
    + intros c0 x [= <- <-].
      destruct Hs as [_ _ _ _ _ _ H6 _ _].
      destruct (H6 _ _ c _ Et) as [r Hr]; [by right; right|].
      exists r. split; [|done].
      destruct (calls s !! c) as [cl|]; simpl in *; congruence.
  - done.
Qed.

Lemma do_exec_inv s t : do_inv fn s → do_inv fn (exec fn s t).
Proof.
  intros Hs. unfold exec.
  destruct (step fn t s) as [s'|] eqn:E; [|done]. by eapply do_step_inv.
Qed.

Lemma do_run_inv sched s : do_inv fn s → do_inv fn (run fn sched s).
Proof.
  unfold run. revert s.
  induction sched as [|t sched IH]; intros s Hs; simpl; [done|].
  by apply IH, do_exec_inv.
Qed.

End Do_facts.

(** ** The peer picker *)

Section Picker_facts.
Context {Ring : Type} `{blockcache.ConsistentHash Ring}.
Import blockcache.

Local Abbreviation ClientPicker := (@ClientPicker Ring).
Implicit Types (p : ClientPicker) (key : string) (dial : string → bool).

Lemma set_selfAddr dial p a : selfAddr (set dial p a) = selfAddr p.
Proof. unfold set. by destruct (NewClient dial a (p_svcName p)). Qed.

(** Discovery never puts the own address into the client map. *)
Lemma set_keeps_self_out dial p a :
  a ≠ selfAddr p → clients p !! selfAddr p = None →
  clients (set dial p a) !! selfAddr (set dial p a) = None.
Proof.
  intros Hne Hp. rewrite set_selfAddr. unfold set.
  destruct (NewClient dial a (p_svcName p)); simpl; [|done].
  by rewrite lookup_insert_ne.
Qed.

Lemma fetchAllServices_keeps_self_out dial p kvs :
  clients p !! selfAddr p = None →
  clients (fetchAllServices dial p kvs)
    !! selfAddr (fetchAllServices dial p kvs) = None.
Proof.
  unfold fetchAllServices. revert p.
  induction kvs as [|a kvs IH]; intros p Hp; simpl; [done|].
  apply IH. destruct (bool_decide (a ≠ "")); simpl; [|done].
  case_bool_decide; [|done]. by apply set_keeps_self_out.
Qed.

Lemma handleWatchEvents_keeps_self_out dial p events :
  clients p !! selfAddr p = None →
  clients (handleWatchEvents dial p events)
    !! selfAddr (handleWatchEvents dial p events) = None.
Proof.
  unfold handleWatchEvents. revert p.
  induction events as [|ev events IH]; intros p Hp; simpl; [done|].
  apply IH. case_bool_decide as Hs; [done|].
  destruct (ev_Type ev); destruct (clients p !! ev_Value ev); try done.
  - by apply set_keeps_self_out.
  - simpl. by rewrite lookup_delete_ne.
Qed.

Lemma discovery_keeps_self_out dial addr svc ds :
  let p := fold_left (discover dial) ds (emptyPicker (Ring:=Ring) addr svc) in
  clients p !! selfAddr p = None.
Proof.
  assert (∀ p, clients p !! selfAddr p = None →
            clients (fold_left (discover dial) ds p)
              !! selfAddr (fold_left (discover dial) ds p) = None) as Hgen.
  { induction ds as [|d ds IH]; intros p Hp; simpl; [done|].
    apply IH. destruct d as [kvs|events|a]; simpl.
    - by apply fetchAllServices_keeps_self_out.
    - by apply handleWatchEvents_keeps_self_out.
    - destruct (decide (a = selfAddr p)) as [->|Hne].
      + apply lookup_delete_eq.
      + by rewrite lookup_delete_ne. }
  simpl. apply Hgen. simpl. apply lookup_empty.
Qed.

(** The branches of [PickPeer].  Let [a] be the address the ring gives
    for the key.  When [a] is not empty and in the client map, [PickPeer]
    returns [(clients[a], true, a = self)]: for the own address too it is
    the handle from the map that comes back, never nil.  When [a] is empty
    or not in the map it returns [(nil, false, false)].  A result with
    [ok = true] always carries a handle, and its [self] flag is true
    exactly when [a] is the own address.  On a picker built by discovery
    the own address is not in the map, and no key is answered with
    [self = true]. *)
Lemma PickPeer_branches p key :
  (∀ c, ring_Get (consHash p) key ≠ "" →
        clients p !! ring_Get (consHash p) key = Some c →
        PickPeer p key
          = (Some c, true,
             bool_decide (ring_Get (consHash p) key = selfAddr p)))
  ∧ (ring_Get (consHash p) key = ""
     ∨ clients p !! ring_Get (consHash p) key = None →
     PickPeer p key = (None, false, false))
  ∧ (∀ peer self, PickPeer p key = (peer, true, self) →
       ∃ c, peer = Some c
            ∧ clients p !! ring_Get (consHash p) key = Some c
            ∧ (self = true ↔ ring_Get (consHash p) key = selfAddr p))
  ∧ (∀ dial addr svc ds,
       p = fold_left (discover dial) ds (emptyPicker addr svc) →
       clients p !! selfAddr p = None
       ∧ ∀ peer ok, PickPeer p key ≠ (peer, ok, true)).
Proof.
  assert (∀ peer self, PickPeer p key = (peer, true, self) →
       ∃ c, peer = Some c
            ∧ clients p !! ring_Get (consHash p) key = Some c
            ∧ (self = true ↔ ring_Get (consHash p) key = selfAddr p)) as H3.
  { intros peer self. unfold PickPeer, ClientPicker_PeerPicker,
      ClientPicker_PickPeer.
    case_bool_decide; [|done].
    destruct (clients p !! ring_Get (consHash p) key) as [c|]; [|done].
    intros [= <- <-]. exists c. split_and!; [done | done |].
    by rewrite bool_decide_eq_true. }
  split_and!.
  - intros c Ha Hc. unfold PickPeer, ClientPicker_PeerPicker,
      ClientPicker_PickPeer.
    by rewrite bool_decide_true, Hc.
  - intros Ha. unfold PickPeer, ClientPicker_PeerPicker,
      ClientPicker_PickPeer.
    case_bool_decide as Hne; [|done].
    destruct Ha as [Ha|Ha]; [done | by rewrite Ha].
  - done.
  - intros dial addr svc ds ->.
    pose proof (discovery_keeps_self_out dial addr svc ds) as Hout.
    simpl in Hout. split; [done|].
    intros peer ok Hp. destruct ok.
    + destruct (H3 _ _ Hp) as (c & _ & Hc & Hs).
      destruct Hs as [Hs _]. rewrite <- (Hs eq_refl) in Hout. congruence.
    + revert Hp. unfold PickPeer, ClientPicker_PeerPicker,
        ClientPicker_PickPeer.
      case_bool_decide; [|done].
      by destruct (clients _ !! ring_Get _ key).
Qed.

End Picker_facts.

(** A picker whose ring and client map hold the own address, a state that
    discovery does not produce: [PickPeer] returns the handle of the map
    with [self = true]. *)
Lemma PickPeer_with_the_own_address_registered :
  blockcache.ring_Get
    (blockcache.consHash
       (blockcache.mkPicker "A" "block-cache" ["A"]
          {["A" := blockcache.mkClient "A" "block-cache"]})) "k"
  = blockcache.selfAddr
      (blockcache.mkPicker "A" "block-cache" ["A"]
         {["A" := blockcache.mkClient "A" "block-cache"]})
  ∧ blockcache.PickPeer
      (blockcache.mkPicker "A" "block-cache" ["A"]
         {["A" := blockcache.mkClient "A" "block-cache"]}) "k"
    = (Some (blockcache.mkClient "A" "block-cache"), true, true).
Proof. split; vm_compute; reflexivity. Qed.

(** ** Errors *)

Lemma string_length_app (s1 s2 : string) :
  String.length (s1 +:+ s2) = (String.length s1 + String.length s2)%nat.
Proof. induction s1 as [|a s1 IH]; simpl; [done | by rewrite IH]. Qed.

(** An error formatted with [%v] under a non-empty prefix has a chain of
    its own: the error it was made from is not in it. *)
Lemma Errorf_v_drops_the_chain (prefix : string) (err : blockcache.error) :
  prefix ≠ "" →
  blockcache.chain (blockcache.Errorf_v prefix err)
    = [blockcache.Errorf_v prefix err]
  ∧ blockcache.Errorf_v prefix err ≠ err
  ∧ blockcache.errors_Is (blockcache.Errorf_v prefix err) err = false.
Proof.
  intros Hp.
  assert (blockcache.Errorf_v prefix err ≠ err) as Hne.
  { unfold blockcache.Errorf_v. destruct err as [s|msg e]; [|done].
    simpl. intros [= Heq].
    assert (String.length (prefix +:+ s) = String.length s) as Hl
      by by rewrite Heq.
    rewrite string_length_app in Hl. destruct prefix; simpl in *; [done|lia]. }
  split_and!; [done | done |].
  unfold blockcache.errors_Is. apply bool_decide_eq_false.
  simpl. rewrite list_elem_of_singleton. intros Heq. by apply Hne.
Qed.

(** With [%w] the error is kept. *)
Lemma Errorf_w_keeps_the_chain (prefix : string) (err : blockcache.error) :
  blockcache.errors_Is (blockcache.Errorf_w prefix err) err = true.
Proof.
  unfold blockcache.errors_Is. apply bool_decide_eq_true. simpl.
  right. destruct err; simpl; left.
Qed.

(** ** Groups *)

Section Group_facts.
Import blockcache.
Context {Cache CacheOptions : Type} `{CacheAPI Cache CacheOptions}.
Context {P : Type} `{PeerPicker P}.

Local Abbreviation Group := (@Group Cache P).
Local Abbreviation World := (@World Cache P).
Implicit Types (g : Group) (w : World) (ctx : Ctx) (key : string).

(** *** Writes and their synchronisation *)

Lemma Set_from_peer_starts_nothing g ctx key value now :
  Value ctx "from_peer" ≠ None → (Set_ g ctx key value now).2 = [].
Proof.
  intros Hm. unfold Set_.
  destruct (closed g =? 1); [done|].
  destruct (_ || _); [done|]. simpl.
  by rewrite (bool_decide_true _ Hm).
Qed.

Lemma Delete_from_peer_starts_nothing g ctx key :
  Value ctx "from_peer" ≠ None → (Delete g ctx key).2 = [].
Proof.
  intros Hm. unfold Delete.
  destruct (closed g =? 1); [done|].
  destruct (bool_decide (key = "")); [done|]. simpl.
  by rewrite (bool_decide_true _ Hm).
Qed.

(** A client-originated write on a group with a picker starts one
    [syncToPeers]. *)
Lemma Set_from_client_starts_sync g ctx key value now :
  closed g ≠ 1 → key ≠ "" → value ≠ [] →
  Value ctx "from_peer" = None → peers g ≠ None →
  (Set_ g ctx key value now).2 = [GoSync ctx "set" key value].
Proof.
  intros Hc Hk Hv Hm Hp. unfold Set_.
  rewrite (proj2 (Z.eqb_neq _ _) Hc).
  rewrite (bool_decide_false _ Hk).
  rewrite bool_decide_false by by destruct value.
  simpl. rewrite bool_decide_false by (intros Hx; by apply Hx).
  simpl. by rewrite (bool_decide_true _ Hp).
Qed.

Lemma Delete_from_client_starts_sync g ctx key :
  closed g ≠ 1 → key ≠ "" →
  Value ctx "from_peer" = None → peers g ≠ None →
  (Delete g ctx key).2 = [GoSync ctx "delete" key []].
Proof.
  intros Hc Hk Hm Hp. unfold Delete.
  rewrite (proj2 (Z.eqb_neq _ _) Hc).
  rewrite (bool_decide_false _ Hk).
  simpl. rewrite bool_decide_false by (intros Hx; by apply Hx).
  simpl. by rewrite (bool_decide_true _ Hp).
Qed.

(** [syncToPeers] makes at most one remote call, to the handle that
    [PickPeer] gave with [ok] and not [self]; a [Set] it forwards carries
    the marker. *)
Lemma syncToPeers_calls g ctx op key value calls :
  syncToPeers g ctx op key value = Ret calls →
  (length calls ≤ 1)%nat
  ∧ ∀ r, r ∈ calls →
      (∃ pk, peers g = Some pk
             ∧ PickPeer pk key = (Some (rpc_peer r), true, false))
      ∧ (r = RpcSet (rpc_peer r) (WithValue Background "from_peer" true)
               (name g) key value ∧ op = "set"
         ∨ r = RpcDelete (rpc_peer r) (name g) key ∧ op = "delete").
Proof.
  unfold syncToPeers.
  destruct (peers g) as [pk|]; [|intros [= <-]; split; [simpl; lia|]].
  2: { intros r Hr. by apply elem_of_nil in Hr. }
  destruct (PickPeer pk key) as [[peer ok] isSelf] eqn:Ep.
  destruct ok, isSelf; simpl;
    try (intros [= <-]; split; [simpl; lia|];
         intros r Hr; by apply elem_of_nil in Hr).
  case_bool_decide as Hset.
  - destruct peer as [peer|]; [|done]. intros [= <-]. split; [simpl; lia|].
    intros r ->%list_elem_of_singleton. simpl. split; [by eauto | by left].
  - case_bool_decide as Hdel.
    + destruct peer as [peer|]; [|done]. intros [= <-]. split; [simpl; lia|].
      intros r ->%list_elem_of_singleton. simpl. split; [by eauto | by right].
    + intros [= <-]. split; [simpl; lia|].
      intros r Hr. by apply elem_of_nil in Hr.
Qed.

(** No picker, no owner, or the owner is this node: no remote call. *)
Lemma syncToPeers_stays_home g ctx op key value :
  peers g = None
  ∨ (∃ pk peer ok self, peers g = Some pk
       ∧ PickPeer pk key = (peer, ok, self) ∧ (ok = false ∨ self = true)) →
  syncToPeers g ctx op key value = Ret [].
Proof.
  unfold syncToPeers.
  intros [->|(pk & peer & ok & self & -> & -> & Hs)]; [done|].
  destruct Hs as [-> | ->]; [done|]. by destruct ok.
Qed.

(** [Server.Set] hands the group a context that carries the marker,
    whatever came in: no goroutine is started. *)
Lemma Server_Set_starts_nothing w ctx req now :
  (Server_Set w ctx req now).2 = [].
Proof.
  unfold Server_Set. destruct (GetGroup w (req_Group req)) as [g|]; [|done].
  destruct (heap w !! g) as [G|]; [|done].
  set (ctx' := match Value ctx "from_peer" with
               | Some _ => ctx
               | None => WithValue ctx "from_peer" true
               end).
  assert (Value ctx' "from_peer" ≠ None) as Hm.
  { unfold ctx'. destruct (Value ctx "from_peer") eqn:E; [by rewrite E|].
    unfold Value, WithValue. by rewrite lookup_insert_eq. }
  pose proof (Set_from_peer_starts_nothing G ctx' (req_Key req)
                (req_Value req) now Hm) as Hn.
  destruct (Set_ G ctx' (req_Key req) (req_Value req) now) as [[[e|] G'] ts];
    simpl in *; done.
Qed.

(** Stamping: an inbound context without the marker is treated as the same
    context with the marker. *)
Lemma Server_Set_stamps w ctx req now :
  Value ctx "from_peer" = None →
  Server_Set w ctx req now
    = Server_Set w (WithValue ctx "from_peer" true) req now.
Proof.
  intros Hm. unfold Server_Set. rewrite Hm.
  assert (Value (WithValue ctx "from_peer" true) "from_peer" = Some true)
    as -> by (unfold Value, WithValue; apply lookup_insert_eq).
  done.
Qed.

(** [Server.Delete] hands the inbound context to the group as it is. *)
Lemma Server_Delete_passes_ctx w ctx req (i : nat) g :
  GetGroup w (req_Group req) = Some i → heap w !! i = Some g →
  (Server_Delete w ctx req).2 = (Delete g ctx (req_Key req)).2.
Proof.
  intros Hi Hg. unfold Server_Delete. rewrite Hi, Hg.
  by destruct (Delete g ctx (req_Key req)) as [[e g'] ts].
Qed.

End Group_facts.

(** *** Groups whose picker is a [ClientPicker] *)

Section Group_with_ClientPicker.
Import blockcache.
Context {Cache CacheOptions : Type} `{CacheAPI Cache CacheOptions}.
Context {Ring : Type} `{ConsistentHash Ring}.

Local Abbreviation Picker := (@ClientPicker Ring).
Local Abbreviation Group := (@Group Cache Picker).
Local Abbreviation World := (@World Cache Picker).
Implicit Types (g : Group) (w : World) (ctx : Ctx) (key : string).

Lemma PickPeer_cases (pk : Picker) key :
  (∃ c, PickPeer pk key
          = (Some c, true,
             bool_decide (ring_Get (consHash pk) key = selfAddr pk))
        ∧ ring_Get (consHash pk) key ≠ ""
        ∧ clients pk !! ring_Get (consHash pk) key = Some c)
  ∨ (PickPeer pk key = (None, false, false)
     ∧ (ring_Get (consHash pk) key = ""
        ∨ clients pk !! ring_Get (consHash pk) key = None)).
Proof.
  unfold PickPeer, ClientPicker_PeerPicker, ClientPicker_PickPeer.
  case_bool_decide as Ha.
  - destruct (clients pk !! ring_Get (consHash pk) key) as [c|] eqn:Ec.
    + left. by exists c.
    + right. split; [done | by right].
  - right. split; [done|]. left.
    by destruct (decide (ring_Get (consHash pk) key = "")).
Qed.

(** C1, on the code.  What holds: [Server.Set] hands [Group.Set] the
    inbound context with the marker ["from_peer"], which it puts there when
    the context lacks it, and starts no goroutine; a [Group.Set] or
    [Group.Delete] whose context carries the marker starts no
    [syncToPeers]; a [syncToPeers] returns after at most one remote call,
    to the client the map holds for the address the ring gives for the
    key, an address other than the own one, and makes no call when there
    is no picker, when the ring gives the own address, no address, or one
    that is not in the map.  What fails: the call that [syncToPeers] makes
    for a deletion is [peer.Delete(g.name, key)], without the context it
    has built; [Client.Delete] sends a context without marker and
    [Server.Delete] puts none.  So a [Delete] that comes from a peer's
    [syncToPeers], served on a node whose picker gives the key to another
    node, starts a [syncToPeers] again, which sends the deletion on; a
    [Set] that comes from a peer's [syncToPeers] starts nothing. *)
Theorem C1_peer_originated_Delete_is_synced_again :
  (∀ w ctx (req : Request) now (i : nat) g,
     GetGroup w (req_Group req) = Some i → heap w !! i = Some g →
     Value
       (match Value ctx "from_peer" with
        | None => WithValue ctx "from_peer" true
        | Some _ => ctx
        end) "from_peer" ≠ None
     ∧ Server_Set w ctx req now
       = (match
            Set_ g
              (match Value ctx "from_peer" with
               | None => WithValue ctx "from_peer" true
               | Some _ => ctx
               end) (req_Key req) (req_Value req) now
          with
          | (Some err, g', tasks) =>
              (Ret (None, Some err), store_group w i g', tasks)
          | (None, g', tasks) =>
              (Ret (Some (req_Value req), None), store_group w i g', tasks)
          end))
  ∧ (∀ w ctx (req : Request) now, (Server_Set w ctx req now).2 = [])
  ∧ (∀ g ctx key (value : bytes) (now : Z),
       Value ctx "from_peer" ≠ None →
       (Set_ g ctx key value now).2 = [] ∧ (Delete g ctx key).2 = [])
  ∧ (∀ g ctx (op : string) key (value : bytes),
       ∃ calls, syncToPeers g ctx op key value = Ret calls
         ∧ (length calls ≤ 1)%nat
         ∧ ∀ r, r ∈ calls →
             (∃ pk, peers g = Some pk
                ∧ ring_Get (consHash pk) key ≠ selfAddr pk
                ∧ clients pk !! ring_Get (consHash pk) key
                  = Some (rpc_peer r))
             ∧ (r = RpcSet (rpc_peer r)
                      (WithValue Background "from_peer" true)
                      (name g) key value ∧ op = "set"
                ∨ r = RpcDelete (rpc_peer r) (name g) key ∧ op = "delete"))
  ∧ (∀ g ctx (op : string) key (value : bytes),
       peers g = None
       ∨ (∃ pk, peers g = Some pk
            ∧ (ring_Get (consHash pk) key = selfAddr pk
               ∨ ring_Get (consHash pk) key = ""
               ∨ clients pk !! ring_Get (consHash pk) key = None)) →
       syncToPeers g ctx op key value = Ret [])
  ∧ (∀ w (dest : Client) ctx (group key : string) (value : bytes) now,
       (serve w (RpcSet dest ctx group key value) now).2 = [])
  ∧ (∀ w (dest owner : Client) (group key : string) now (i : nat) g pk,
       GetGroup w group = Some i → heap w !! i = Some g →
       closed g ≠ 1 → key ≠ "" → peers g = Some pk →
       ring_Get (consHash pk) key ≠ "" →
       ring_Get (consHash pk) key ≠ selfAddr pk →
       clients pk !! ring_Get (consHash pk) key = Some owner →
       Value Client_Delete_ctx "from_peer" = None
       ∧ (serve w (RpcDelete dest group key) now).2
         = [GoSync Client_Delete_ctx "delete" key []]
       ∧ ∃ g',
           heap (serve w (RpcDelete dest group key) now).1 !! i = Some g'
           ∧ run_gtask g' (GoSync Client_Delete_ctx "delete" key [])
             = Ret [RpcDelete owner (name g) key]).
Proof.
  assert (∀ g ctx (op : string) key (value : bytes),
            ∃ calls, syncToPeers g ctx op key value = Ret calls) as Hret.
  { intros g ctx op key value. unfold syncToPeers.
    destruct (peers g) as [pk|]; [|by eauto].
    destruct (PickPeer_cases pk key) as [(c & -> & _)|(-> & _)];
      [|by eauto].
    simpl. destruct (bool_decide (_ = selfAddr pk)); [by eauto|].
    simpl. repeat case_bool_decide; by eauto. }
  split_and!.
  - intros w ctx req now i g Hi Hg. split.
    + destruct (Value ctx "from_peer") eqn:E; [by rewrite E|].
      unfold Value, WithValue. by rewrite lookup_insert_eq.
    + unfold Server_Set. rewrite Hi, Hg. done.
  - apply Server_Set_starts_nothing.
  - intros g ctx key value now Hm. split.
    + by apply Set_from_peer_starts_nothing.
    + by apply Delete_from_peer_starts_nothing.
  - intros g ctx op key value.
    destruct (Hret g ctx op key value) as [calls Hc].
    exists calls. split; [done|].
    destruct (syncToPeers_calls _ _ _ _ _ _ Hc) as [Hlen Hin].
    split; [done|]. intros r Hr.
    destruct (Hin r Hr) as [(pk & Hpk & Hpick) Hwhat]. split; [|done].
    exists pk. split; [done|].
    destruct (PickPeer_cases pk key) as [(c & Hp & _ & Hcl)|(Hp & _)];
      rewrite Hp in Hpick; [|done].
    injection Hpick as -> Hself. split; [|done].
    by apply bool_decide_eq_false in Hself.
  - intros g ctx op key value Hhome. apply syncToPeers_stays_home.
    destruct Hhome as [Hn|(pk & Hpk & Hcase)]; [by left|]. right.
    destruct (PickPeer_cases pk key) as [(c & Hp & Hne & Hcl)|(Hp & _)].
    + exists pk, (Some c), true,
        (bool_decide (ring_Get (consHash pk) key = selfAddr pk)).
      split_and!; [done | done |]. right.
      destruct Hcase as [Hs|[He|Hc]]; [|done|congruence].
      by apply bool_decide_eq_true.
    + exists pk, None, false, false. split_and!; [done | done | by left].
  - intros w dest ctx group key value now. unfold serve.
    pose proof (Server_Set_starts_nothing w ctx
                  (mkRequest group key value) now) as Hn.
    by destruct (Server_Set w ctx (mkRequest group key value) now)
      as [[out w'] tasks].
  - intros w dest owner group key now i g pk Hi Hg Hc Hk Hp Hne Hself Hcl.
    assert (PickPeer pk key = (Some owner, true, false)) as Hpick.
    { unfold PickPeer, ClientPicker_PeerPicker, ClientPicker_PickPeer.
      rewrite bool_decide_true by done. rewrite Hcl.
      by rewrite bool_decide_false by done. }
    assert (Delete g Client_Delete_ctx key
            = (None, set_mainCache g (Cache_Delete (mainCache g) key),
               [GoSync Client_Delete_ctx "delete" key []])) as Hd.
    { unfold Delete.
      rewrite (proj2 (Z.eqb_neq _ _) Hc), (bool_decide_false _ Hk).
      rewrite (bool_decide_false (Value Client_Delete_ctx "from_peer" ≠ None))
        by (intros Hx; by apply Hx).
      by rewrite (bool_decide_true (peers g ≠ None)) by by rewrite Hp. }
    split; [done|]. unfold serve, Server_Delete. simpl.
    rewrite Hi, Hg, Hd. simpl. split; [done|].
    exists (set_mainCache g (Cache_Delete (mainCache g) key)). split.
    + apply list_lookup_insert_eq. by eapply lookup_lt_Some.
    + unfold syncToPeers. simpl. by rewrite Hp, Hpick.
Qed.

End Group_with_ClientPicker.

(** *** Reads *)

Section Group_reads.
Import blockcache.
Context {Cache CacheOptions : Type} `{CacheAPI Cache CacheOptions}.
Context {P : Type} `{PeerPicker P}.

Local Abbreviation Group := (@Group Cache P).
Implicit Types (g : Group) (ctx : Ctx) (key : string).

(** A [Get] on an open group that misses the local cache goes on with
    [load]. *)
Lemma Get_miss g ctx key now elapsed cache' :
  closed g ≠ 1 → key ≠ "" →
  Cache_Get (mainCache g) ctx key now = (None, cache') →
  Get g ctx key now elapsed
    = load (set_mainCache g cache') ctx key now elapsed.
Proof.
  intros Hc Hk Hm. unfold Get.
  rewrite (proj2 (Z.eqb_neq _ _) Hc), (bool_decide_false _ Hk). by rewrite Hm.
Qed.

(** [loadData] reaches the getter when there is no picker, no owner, or
    the owner is this node. *)
Lemma loadData_local g ctx key :
  peers g = None
  ∨ (∃ pk peer ok self, peers g = Some pk
       ∧ PickPeer pk key = (peer, ok, self) ∧ (ok = false ∨ self = true)) →
  loadData g ctx key = from_getter g ctx key.
Proof.
  unfold loadData.
  intros [->|(pk & peer & ok & self & -> & -> & Hs)]; [done|].
  destruct Hs as [-> | ->]; [done|]. by destruct ok.
Qed.

(** C6, on the code.  An open group, a key that misses the local cache, no
    remote owner, and a getter that fails with [err]: [Get] asks the getter
    once, adds one to [loaderErrors], leaves the cache as the probe left
    it, and returns the error
    [fmt.Errorf("failed to get from getter: %v", err)].  What it returns
    is a new error that holds the text of [err] only: [err] is not in its
    chain. *)
Theorem C6_loader_error_comes_back_flattened
    g ctx key now elapsed cache' (value : bytes) (err : error) :
  closed g ≠ 1 → key ≠ "" →
  Cache_Get (mainCache g) ctx key now = (None, cache') →
  peers g = None
  ∨ (∃ pk peer ok self, peers g = Some pk
       ∧ PickPeer pk key = (peer, ok, self) ∧ (ok = false ∨ self = true)) →
  getter g ctx key = (value, Some err) →
  ∃ g',
    Get g ctx key now elapsed
      = (Ret (mkByteView [],
              Some (Errorf_v "failed to get from getter: " err)),
         g', [EvGetter ctx key])
    ∧ Errorf_v "failed to get from getter: " err ≠ err
    ∧ errors_Is (Errorf_v "failed to get from getter: " err) err = false
    ∧ loaderErrors (stats g') = wrap64 (loaderErrors (stats g) + 1)
    ∧ mainCache g' = cache'.
Proof.
  intros Hc Hk Hm Hlocal Hg.
  rewrite (Get_miss _ _ _ _ _ _ Hc Hk Hm). unfold load.
  rewrite loadData_local by done. unfold from_getter. simpl. rewrite Hg.
  eexists. split; [reflexivity|].
  destruct (Errorf_v_drops_the_chain "failed to get from getter: " err)
    as (_ & Hne & His); [done|].
  split_and!; done.
Qed.

(** C9.  [Client.GetFromPeer] panics whatever it is given.  So a [Get] on
    an open group for a key that misses the local cache and that the picker
    gives to a remote peer panics in [loadData]: no bytes and no error come
    back from the peer, and the getter is not asked. *)
Theorem C9_remote_owner_makes_Get_panic
    g ctx key now elapsed cache' (pk : P) (client : Client) :
  closed g ≠ 1 → key ≠ "" →
  Cache_Get (mainCache g) ctx key now = (None, cache') →
  peers g = Some pk →
  PickPeer pk key = (Some client, true, false) →
  (∀ c ctx' key', GetFromPeer c ctx' key' = Panic "unimplemented")
  ∧ loadData (set_mainCache g cache') ctx key
    = (Panic "unimplemented", set_mainCache g cache', [])
  ∧ Get g ctx key now elapsed
    = (Panic "unimplemented", set_mainCache g cache', []).
Proof.
  intros Hc Hk Hm Hp Hpick.
  assert (loadData (set_mainCache g cache') ctx key
          = (Panic "unimplemented", set_mainCache g cache', [])) as Hl.
  { unfold loadData. simpl. by rewrite Hp, Hpick. }
  split_and!; [done | done |].
  rewrite (Get_miss _ _ _ _ _ _ Hc Hk Hm). unfold load. by rewrite Hl.
Qed.

End Group_reads.

(** *** Closing and the registry of groups *)

Section Group_lifecycle.
Import blockcache.
Context {Cache CacheOptions : Type} `{CacheAPI Cache CacheOptions}.
Context {P : Type} `{PeerPicker P}.

Local Abbreviation Group := (@Group Cache P).
Local Abbreviation World := (@World Cache P).
Local Abbreviation call := (@call CacheOptions P).
Implicit Types (g : Group) (w : World) (ctx : Ctx) (key : string) (i j : nat).

Lemma apply_options_name_closed (opts : list (@GroupOption CacheOptions P)) g :
  name (fold_left apply_option opts g) = name g
  ∧ closed (fold_left apply_option opts g) = closed g.
Proof.
  revert g. induction opts as [|o opts IH]; intros g; simpl; [done|].
  destruct (IH (apply_option g o)) as [-> ->]. by destruct o.
Qed.

(** On a closed group [Get], [Set], [Delete] and [Clear] change nothing. *)
Lemma closed_Get g ctx key now elapsed :
  closed g = 1 →
  Get g ctx key now elapsed
    = (Ret (mkByteView [], Some (errors_New "group is closed")), g, []).
Proof. intros Hc. unfold Get. by rewrite Hc. Qed.

Lemma closed_Set g ctx key value now :
  closed g = 1 →
  Set_ g ctx key value now
    = (Some (errors_New "cache group is closed"), g, []).
Proof. intros Hc. unfold Set_. by rewrite Hc. Qed.

Lemma closed_Delete g ctx key :
  closed g = 1 →
  Delete g ctx key = (Some (errors_New "cache group is closed"), g, []).
Proof. intros Hc. unfold Delete. by rewrite Hc. Qed.

Lemma closed_Clear g : closed g = 1 → Clear g = g.
Proof. intros Hc. unfold Clear. by rewrite Hc. Qed.

(** No method of a group touches its [closed] flag, [Close] apart. *)
Lemma from_getter_closed g ctx key :
  closed (from_getter g ctx key).1.2 = closed g.
Proof.
  unfold from_getter. destruct (getter g ctx key) as [b [e|]]; done.
Qed.

Lemma loadData_closed g ctx key : closed (loadData g ctx key).1.2 = closed g.
Proof.
  unfold loadData. destruct (peers g) as [pk|]; [|apply from_getter_closed].
  destruct (PickPeer pk key) as [[peer ok] isSelf].
  destruct (ok && negb isSelf); [|apply from_getter_closed].
  destruct peer as [peer|]; [|done]. simpl. done.
Qed.

Lemma load_closed g ctx key now elapsed :
  closed (load g ctx key now elapsed).1.2 = closed g.
Proof.
  unfold load. pose proof (loadData_closed g ctx key) as Hl.
  destruct (loadData g ctx key) as [[[[view [e|]]|msg] g1] evs];
    simpl in *; try done.
Qed.

Lemma Get_closed g ctx key now elapsed :
  closed (Get g ctx key now elapsed).1.2 = closed g.
Proof.
  unfold Get. destruct (closed g =? 1); [done|].
  destruct (bool_decide (key = "")); [done|].
  destruct (Cache_Get (mainCache g) ctx key now) as [[v|] cache]; [done|].
  by rewrite load_closed.
Qed.

Lemma Set_closed g ctx key value now :
  closed (Set_ g ctx key value now).1.2 = closed g.
Proof.
  unfold Set_. destruct (closed g =? 1); [done|]. by destruct (_ || _).
Qed.

Lemma Delete_closed g ctx key : closed (Delete g ctx key).1.2 = closed g.
Proof.
  unfold Delete. destruct (closed g =? 1); [done|].
  by destruct (bool_decide (key = "")).
Qed.

Lemma Clear_closed g : closed (Clear g) = closed g.
Proof. unfold Clear. by destruct (closed g =? 1). Qed.

Lemma store_group_flags_ok w i g g' :
  flags_ok w → heap w !! i = Some g → closed g' = closed g →
  flags_ok (store_group w i g').
Proof.
  intros Hw Hi Hc j g0. simpl. intros Hj.
  apply list_lookup_insert_Some in Hj as [(<- & <- & _)|(_ & Hj)].
  - rewrite Hc. by eapply Hw.
  - by eapply Hw.
Qed.

Lemma do_call_flags_ok w (c : call) : flags_ok w → flags_ok (do_call w c).2.
Proof.
  intros Hw. destruct c as [i ctx key now elapsed|i ctx key value now
                            |i ctx key|i|i|nm cacheBytes gt opts]; simpl.
  - destruct (heap w !! i) as [g|] eqn:Ei; [|done].
    pose proof (Get_closed g ctx key now elapsed) as Hc.
    destruct (Get g ctx key now elapsed) as [[[[view err]|msg] g'] evs];
      simpl in *; by eapply store_group_flags_ok.
  - destruct (heap w !! i) as [g|] eqn:Ei; [|done].
    pose proof (Set_closed g ctx key value now) as Hc.
    destruct (Set_ g ctx key value now) as [[err g'] ts].
    simpl in *. by eapply store_group_flags_ok.
  - destruct (heap w !! i) as [g|] eqn:Ei; [|done].
    pose proof (Delete_closed g ctx key) as Hc.
    destruct (Delete g ctx key) as [[err g'] ts].
    simpl in *. by eapply store_group_flags_ok.
  - destruct (heap w !! i) as [g|] eqn:Ei; [|done]. simpl.
    eapply store_group_flags_ok; [done | done | apply Clear_closed].
  - unfold Close. destruct (heap w !! i) as [g|] eqn:Ei; [|done].
    destruct (closed g =? 0); [|done]. simpl.
    intros j g0. simpl. intros Hj.
    apply list_lookup_insert_Some in Hj as [(<- & <- & _)|(_ & Hj)].
    + by right.
    + by eapply Hw.
  - unfold NewGroup. destruct gt as [gt|]; [|done]. simpl.
    intros j g0. simpl. intros Hj.
    apply lookup_app_Some in Hj as [Hj|[_ Hj]]; [by eapply Hw|].
    apply list_lookup_singleton_Some in Hj as [_ <-].
    left. by rewrite (proj2 (apply_options_name_closed _ _)).
Qed.

Lemma do_calls_flags_ok w (cs : list call) :
  flags_ok w → flags_ok (do_calls w cs).
Proof.
  unfold do_calls. revert w.
  induction cs as [|c cs IH]; intros w Hw; simpl; [done|].
  by apply IH, do_call_flags_ok.
Qed.

(** A closed group stays as it is, whatever is called. *)
Lemma do_call_closed_stays w (c : call) i g :
  heap w !! i = Some g → closed g = 1 → heap (do_call w c).2 !! i = Some g.
Proof.
  intros Hi Hc.
  assert (∀ j g0 g1, heap w !! j = Some g0 → (j = i → g1 = g) →
            heap (store_group w j g1) !! i = Some g) as Hstore.
  { intros j g0 g1 Hj Hg. simpl. destruct (decide (j = i)) as [->|Hne].
    - rewrite (Hg eq_refl). apply list_lookup_insert_eq.
      by apply lookup_lt_Some in Hi.
    - by rewrite list_lookup_insert_ne. }
  destruct c as [j ctx key now elapsed|j ctx key value now
                 |j ctx key|j|j|nm cacheBytes gt opts]; simpl.
  - destruct (heap w !! j) as [g0|] eqn:Ej; [|done].
    destruct (Get g0 ctx key now elapsed) as [[[[view err]|msg] g'] evs] eqn:E;
      simpl; apply (Hstore j g0); try done;
      intros ->; rewrite Hi in Ej; injection Ej as <-;
      rewrite closed_Get in E by done; by injection E.
  - destruct (heap w !! j) as [g0|] eqn:Ej; [|done].
    destruct (Set_ g0 ctx key value now) as [[err g'] ts] eqn:E.
    simpl. apply (Hstore j g0); [done|].
    intros ->. rewrite Hi in Ej. injection Ej as <-.
    rewrite closed_Set in E by done. by injection E.
  - destruct (heap w !! j) as [g0|] eqn:Ej; [|done].
    destruct (Delete g0 ctx key) as [[err g'] ts] eqn:E.
    simpl. apply (Hstore j g0); [done|].
    intros ->. rewrite Hi in Ej. injection Ej as <-.
    rewrite closed_Delete in E by done. by injection E.
  - destruct (heap w !! j) as [g0|] eqn:Ej; [|done]. simpl.
    apply (Hstore j g0); [done|].
    intros ->. rewrite Hi in Ej. injection Ej as <-. by apply closed_Clear.
  - unfold Close. destruct (heap w !! j) as [g0|] eqn:Ej; [|done].
    destruct (closed g0 =? 0) eqn:E0; [|done]. simpl.
    destruct (decide (j = i)) as [->|Hne].
    + rewrite Hi in Ej. injection Ej as <-. rewrite Hc in E0. done.
    + by rewrite list_lookup_insert_ne.
  - unfold NewGroup. destruct gt as [gt|]; [|done]. simpl.
    by apply lookup_app_l_Some.
Qed.

Lemma do_calls_closed_stays w (cs : list call) i g :
  heap w !! i = Some g → closed g = 1 → heap (do_calls w cs) !! i = Some g.
Proof.
  unfold do_calls. revert w.
  induction cs as [|c cs IH]; intros w Hi Hc; simpl; [done|].
  apply IH; [|done]. by apply do_call_closed_stays.
Qed.

Lemma store_group_same w i g : heap w !! i = Some g → store_group w i g = w.
Proof.
  intros Hi. unfold store_group. rewrite list_insert_id by done.
  by destruct w.
Qed.

Lemma emptyWorld_flags_ok : flags_ok (emptyWorld (Cache:=Cache) (P:=P)).
Proof. intros i g. by destruct i. Qed.

(** [Close] answers nil, and leaves the group closed. *)
Lemma Close_closes w i g :
  heap w !! i = Some g → closed g = 0 ∨ closed g = 1 →
  (Close w i).1 = Ret None
  ∧ ∃ g', heap (Close w i).2 !! i = Some g' ∧ closed g' = 1.
Proof.
  intros Hi Hc. unfold Close. rewrite Hi.
  destruct Hc as [Hc|Hc]; rewrite Hc; simpl.
  - split; [done|].
    exists (set_mainCache (set_closed g 1) (Cache_Close (mainCache g))).
    split; [|done].
    apply list_lookup_insert_eq. by apply lookup_lt_Some in Hi.
  - split; [done|]. by exists g.
Qed.

(** C4, amended.  Take any history of calls, a group [i] it has created,
    and call [Close] on it: [Close] returns nil.  From then on, whatever
    else is called, [Get] on that group fails with the error "group is
    closed", [Set] and [Delete] fail with "cache group is closed", [Clear]
    returns nothing (it has no error to return) and [Close] returns nil
    again; none of them changes anything. *)
Theorem C4_after_Close (before after : list call) i :
  (i < length (heap (do_calls emptyWorld before)))%nat →
  (do_call (do_calls emptyWorld before) (CallClose i)).1 = ReplyError None
  ∧ ∀ w2,
      w2 = do_calls (do_call (do_calls emptyWorld before) (CallClose i)).2
             after →
      (∀ ctx key now elapsed,
         do_call w2 (CallGet i ctx key now elapsed)
           = (ReplyView (mkByteView [])
                (Some (errors_New "group is closed")), w2))
      ∧ (∀ ctx key value now,
           do_call w2 (CallSet i ctx key value now)
             = (ReplyError (Some (errors_New "cache group is closed")), w2))
      ∧ (∀ ctx key,
           do_call w2 (CallDelete i ctx key)
             = (ReplyError (Some (errors_New "cache group is closed")), w2))
      ∧ says_closed (errors_New "group is closed") = true
      ∧ says_closed (errors_New "cache group is closed") = true
      ∧ do_call w2 (CallClear i) = (ReplyNothing, w2)
      ∧ do_call w2 (CallClose i) = (ReplyError None, w2).
Proof.
  intros Hlt.
  pose proof (do_calls_flags_ok _ before emptyWorld_flags_ok) as Hok.
  destruct (lookup_lt_is_Some_2 _ _ Hlt) as [g Hi].
  destruct (Close_closes _ _ _ Hi (Hok _ _ Hi)) as (Hr & g1 & Hi1 & Hc1).
  assert ((do_call (do_calls emptyWorld before) (CallClose i)).1
          = ReplyError None
          ∧ (do_call (do_calls emptyWorld before) (CallClose i)).2
            = (Close (do_calls emptyWorld before) i).2) as [Hrep Hw1].
  { simpl. destruct (Close (do_calls emptyWorld before) i) as [[e|msg] w'];
      simpl in *; [|done]. by injection Hr as ->. }
  split; [done|]. intros w2 ->. rewrite Hw1.
  pose proof (do_calls_closed_stays _ after _ _ Hi1 Hc1) as Hi2.
  set (w2 := do_calls (Close (do_calls emptyWorld before) i).2 after) in *.
  split_and!.
  - intros ctx key now elapsed. simpl.
    by rewrite Hi2, closed_Get, store_group_same.
  - intros ctx key value now. simpl.
    by rewrite Hi2, closed_Set, store_group_same.
  - intros ctx key. simpl.
    by rewrite Hi2, closed_Delete, store_group_same.
  - done.
  - done.
  - simpl. by rewrite Hi2, closed_Clear, store_group_same.
  - simpl. unfold Close. by rewrite Hi2, Hc1.
Qed.

(** [Close] on an open group deletes the name of that group from the
    registry, whichever group is registered under it. *)
Lemma Close_unregisters_the_name w i g :
  heap w !! i = Some g → closed g = 0 →
  (Close w i).1 = Ret None ∧ GetGroup (Close w i).2 (name g) = None.
Proof.
  intros Hi Hc. unfold Close. rewrite Hi, Hc. simpl.
  split; [done|]. unfold GetGroup. simpl. apply lookup_delete_eq.
Qed.

(** C10.  [NewGroup] under a name that is taken registers the new group in
    place of the old one.  When the old group is closed afterwards, [Close]
    deletes the name from the registry all the same: [GetGroup(name)] is
    nil from then on, although the new group is open. *)
Theorem C10_Close_unregisters_the_replacement
    w (nm : string) bytes1 (gt1 : Getter) opts1 bytes2 (gt2 : Getter) opts2 :
  (NewGroup w nm bytes1 (Some gt1) opts1).1 = Ret (length (heap w))
  ∧ (NewGroup (NewGroup w nm bytes1 (Some gt1) opts1).2
       nm bytes2 (Some gt2) opts2).1 = Ret (S (length (heap w)))
  ∧ GetGroup
      (NewGroup (NewGroup w nm bytes1 (Some gt1) opts1).2
         nm bytes2 (Some gt2) opts2).2 nm
    = Some (S (length (heap w)))
  ∧ (Close
       (NewGroup (NewGroup w nm bytes1 (Some gt1) opts1).2
          nm bytes2 (Some gt2) opts2).2 (length (heap w))).1 = Ret None
  ∧ GetGroup
      (Close
         (NewGroup (NewGroup w nm bytes1 (Some gt1) opts1).2
            nm bytes2 (Some gt2) opts2).2 (length (heap w))).2 nm
    = None
  ∧ ∃ g2,
      heap
        (Close
           (NewGroup (NewGroup w nm bytes1 (Some gt1) opts1).2
              nm bytes2 (Some gt2) opts2).2 (length (heap w))).2
        !! S (length (heap w)) = Some g2
      ∧ name g2 = nm ∧ closed g2 = 0.
Proof.
  set (G1 := fold_left apply_option opts1
               {| name := nm; getter := gt1;
                  mainCache :=
                    NewCache (with_MaxBytes DefaultCacheOptions bytes1);
                  peers := None; expiration := 0; closed := 0;
                  stats := mkStats 0 0 0 0 0 0 0 0 |}).
  set (G2 := fold_left apply_option opts2
               {| name := nm; getter := gt2;
                  mainCache :=
                    NewCache (with_MaxBytes DefaultCacheOptions bytes2);
                  peers := None; expiration := 0; closed := 0;
                  stats := mkStats 0 0 0 0 0 0 0 0 |}).
  destruct (apply_options_name_closed opts1
              {| name := nm; getter := gt1;
                 mainCache :=
                   NewCache (with_MaxBytes DefaultCacheOptions bytes1);
                 peers := None; expiration := 0; closed := 0;
                 stats := mkStats 0 0 0 0 0 0 0 0 |}) as [Hn1 Hc1].
  destruct (apply_options_name_closed opts2
              {| name := nm; getter := gt2;
                 mainCache :=
                   NewCache (with_MaxBytes DefaultCacheOptions bytes2);
                 peers := None; expiration := 0; closed := 0;
                 stats := mkStats 0 0 0 0 0 0 0 0 |}) as [Hn2 Hc2].
  fold G1 in Hn1, Hc1. fold G2 in Hn2, Hc2. simpl in Hn1, Hc1, Hn2, Hc2.
  assert (((heap w ++ [G1]) ++ [G2]) !! length (heap w) = Some G1) as H1.
  { rewrite lookup_app_l by (rewrite length_app; simpl; lia).
    rewrite lookup_app_r by lia. by rewrite Nat.sub_diag. }
  assert (((heap w ++ [G1]) ++ [G2]) !! S (length (heap w)) = Some G2) as H2.
  { rewrite lookup_app_r by (rewrite length_app; simpl; lia).
    rewrite length_app. simpl.
    by replace (S (length (heap w)) - (length (heap w) + 1))%nat with 0%nat
      by lia. }
  unfold NewGroup at 1 2 3. simpl. fold G1.
  split; [done|].
  unfold NewGroup. simpl. fold G1 G2. rewrite length_app. simpl.
  replace (length (heap w) + 1)%nat with (S (length (heap w))) by lia.
  split; [done|].
  split; [unfold GetGroup; simpl; apply lookup_insert_eq|].
  unfold Close. simpl. rewrite H1, Hc1. simpl. rewrite Hn1.
  split; [done|].
  split; [unfold GetGroup; simpl; apply lookup_delete_eq|].
  exists G2. split; [|done].
  rewrite list_lookup_insert_ne by lia. done.
Qed.

End Group_lifecycle.

(** ** Examples on a node of a three-node cluster

    The node is ["A"]; its picker knows ["B"]; the cache is the wrapper
    over the LRU store; the getter of the group ["slow"] always fails with
    [context.DeadlineExceeded]. *)

(** Node ["B"], whose picker knows node ["A"], serves the deletion of
    ["k"] that the [syncToPeers] of ["A"] has sent: it starts a
    [syncToPeers] of its own. *)
Lemma C1_witness :
  (blockcache.serve
     (blockcache.NewGroup (Cache:=blockcache.lruWrapper)
        (P:=blockcache.ClientPicker (Ring:=list string))
        blockcache.emptyWorld "g" 1024
        (Some (λ _ _, ([], None)))
        [blockcache.WIthPeers
           (Some (blockcache.mkPicker "B" "block-cache" ["A"]
                    {["A" := blockcache.mkClient "A" "block-cache"]}))]).2
     (blockcache.RpcDelete (blockcache.mkClient "B" "block-cache") "g" "k")
     0).2
  = [blockcache.GoSync blockcache.Client_Delete_ctx "delete" "k" []].
Proof.
  destruct (C1_peer_originated_Delete_is_synced_again
              (Cache:=blockcache.lruWrapper) (Ring:=list string))
    as (_ & _ & _ & _ & _ & _ & Hdel).
  pose proof (Hdel
                (blockcache.NewGroup (Cache:=blockcache.lruWrapper)
                   (P:=blockcache.ClientPicker (Ring:=list string))
                   blockcache.emptyWorld "g" 1024
                   (Some (λ _ _, ([], None)))
                   [blockcache.WIthPeers
                      (Some (blockcache.mkPicker "B" "block-cache" ["A"]
                               {["A" := blockcache.mkClient "A" "block-cache"]}))]).2
                (blockcache.mkClient "B" "block-cache")
                (blockcache.mkClient "A" "block-cache")
                "g" "k" 0 0%nat) as Hx.
  specialize (Hx _ (blockcache.mkPicker "B" "block-cache" ["A"]
                      {["A" := blockcache.mkClient "A" "block-cache"]})
                eq_refl eq_refl).
  destruct Hx as (_ & Hsync & _).
  - simpl. lia.
  - done.
  - reflexivity.
  - vm_compute. discriminate.
  - vm_compute. discriminate.
  - vm_compute. reflexivity.
  - exact Hsync.
Defined.

(** A group is created and closed: [Close] answers nil. *)
Lemma C4_witness :
  (0 < length
         (blockcache.heap
            (blockcache.do_calls (Cache:=blockcache.lruWrapper)
               (P:=blockcache.ClientPicker (Ring:=list string))
               blockcache.emptyWorld
               [blockcache.CallNewGroup "g" 1024
                  (Some (λ _ _, ([], None))) []])))%nat
  ∧ (blockcache.do_call
       (blockcache.do_calls (Cache:=blockcache.lruWrapper)
          (P:=blockcache.ClientPicker (Ring:=list string))
          blockcache.emptyWorld
          [blockcache.CallNewGroup "g" 1024 (Some (λ _ _, ([], None))) []])
       (blockcache.CallClose 0)).1 = blockcache.ReplyError None.
Proof.
  assert (0 < length
         (blockcache.heap
            (blockcache.do_calls (Cache:=blockcache.lruWrapper)
               (P:=blockcache.ClientPicker (Ring:=list string))
               blockcache.emptyWorld
               [blockcache.CallNewGroup "g" 1024
                  (Some (λ _ _, ([], None))) []])))%nat as Hlt
    by (simpl; lia).
  split; [exact Hlt|].
  exact (proj1 (C4_after_Close _ [] 0%nat Hlt)).
Defined.

(** C4 as stated fails for [Clear]: on a closed group it returns without
    an error, there is none it could return. *)
Lemma C4_counterexample :
  (blockcache.do_call
     (blockcache.do_calls (Cache:=blockcache.lruWrapper)
        (P:=blockcache.ClientPicker (Ring:=list string))
        blockcache.emptyWorld
        [blockcache.CallNewGroup "g" 1024 (Some (λ _ _, ([], None))) [];
         blockcache.CallClose 0])
     (blockcache.CallClear 0)).1 = blockcache.ReplyNothing
  ∧ ¬ ∃ e,
        blockcache.reply_error
          (blockcache.do_call
             (blockcache.do_calls (Cache:=blockcache.lruWrapper)
                (P:=blockcache.ClientPicker (Ring:=list string))
                blockcache.emptyWorld
                [blockcache.CallNewGroup "g" 1024
                   (Some (λ _ _, ([], None))) [];
                 blockcache.CallClose 0])
             (blockcache.CallClear 0)).1 = Some e
        ∧ blockcache.says_closed e = true.
Proof.
  split; [vm_compute; reflexivity|].
  intros (e & He & _). vm_compute in He. discriminate.
Qed.

(** The group ["slow"]: what [Get] returns for ["slow-key"] does not have
    [context.DeadlineExceeded] in its chain. *)
Lemma C6_witness :
  blockcache.errors_Is
    (blockcache.Errorf_v "failed to get from getter: "
       blockcache.DeadlineExceeded)
    blockcache.DeadlineExceeded = false.
Proof.
  destruct (C6_loader_error_comes_back_flattened
              (blockcache.mkGroup (Cache:=blockcache.lruWrapper)
                 (P:=blockcache.ClientPicker (Ring:=list string))
                 "slow" (λ _ _, ([], Some blockcache.DeadlineExceeded))
                 (blockcache.NewCache (store.mkOptions 1024 0 0 0 0 false))
                 None 0 0 (blockcache.mkStats 0 0 0 0 0 0 0 0))
              blockcache.Background "slow-key" 0 0
              (blockcache.mkWrapper (store.mkOptions 1024 0 0 0 0 false)
                 (Some (store.newLRUCache
                          (store.mkOptions 1024 0 0 0 0 false))) 0 1)
              [] blockcache.DeadlineExceeded)
    as (g' & _ & _ & His & _).
  - simpl. lia.
  - done.
  - reflexivity.
  - by left.
  - reflexivity.
  - exact His.
Defined.

(** The key ["k"] belongs to ["B"]: [Get] panics. *)
Lemma C9_witness :
  (blockcache.Get
     (blockcache.mkGroup (Cache:=blockcache.lruWrapper)
        "g" (λ _ _, ([], None))
        (blockcache.NewCache (store.mkOptions 1024 0 0 0 0 false))
        (Some (blockcache.mkPicker "A" "block-cache" ["B"]
                 {["B" := blockcache.mkClient "B" "block-cache"]}))
        0 0 (blockcache.mkStats 0 0 0 0 0 0 0 0))
     blockcache.Background "k" 0 0).1.1 = blockcache.Panic "unimplemented".
Proof.
  destruct (C9_remote_owner_makes_Get_panic
              (blockcache.mkGroup (Cache:=blockcache.lruWrapper)
                 "g" (λ _ _, ([], None))
                 (blockcache.NewCache (store.mkOptions 1024 0 0 0 0 false))
                 (Some (blockcache.mkPicker "A" "block-cache" ["B"]
                          {["B" := blockcache.mkClient "B" "block-cache"]}))
                 0 0 (blockcache.mkStats 0 0 0 0 0 0 0 0))
              blockcache.Background "k" 0 0
              (blockcache.mkWrapper (store.mkOptions 1024 0 0 0 0 false)
                 (Some (store.newLRUCache
                          (store.mkOptions 1024 0 0 0 0 false))) 0 1)
              (blockcache.mkPicker "A" "block-cache" ["B"]
                 {["B" := blockcache.mkClient "B" "block-cache"]})
              (blockcache.mkClient "B" "block-cache"))
    as (_ & _ & Hget).
  - simpl. lia.
  - done.
  - reflexivity.
  - reflexivity.
  - vm_compute. reflexivity.
  - by rewrite Hget.
Defined.

(** * Further properties of the code *)

(** ** The LRU store: order, eviction, deletion, the reaper *)

Section LRU_more.
Context {V : Type} `{store.Value V}.
Import store.

Local Abbreviation lruEntry := (@lruEntry V).
Local Abbreviation lruCache := (@lruCache V).
Implicit Types (c : lruCache) (l ev : list lruEntry) (e : lruEntry).
Implicit Types (k : string) (v : V) (now duration : Z).


(** [removeOldest] takes its victims from the front of the list, in order,
    and hands each to the callback. *)
Lemma removeOldest_loop_prefix n c :
  ∃ ev,
    ll c = ev ++ ll (removeOldest_loop n c)
    ∧ evictedLog (removeOldest_loop n c)
      = evictedLog c ++ (if onEvicted c then ev else [])
    ∧ (over_budget c = false → ev = [])
    ∧ (∀ k, k ∉ map key ev →
         expiredTime (removeOldest_loop n c) !! k = expiredTime c !! k).
Proof.
  revert c. induction n as [|n IH]; intros c; simpl.
  - exists []. simpl. split_and!; try done.
    by destruct (onEvicted c); rewrite app_nil_r.
  - destruct (over_budget c) eqn:Eo.
    2: { exists []. simpl. split_and!; try done.
         by destruct (onEvicted c); rewrite app_nil_r. }
    destruct (ll c) as [|elem l] eqn:El.
    { exists []. simpl. split_and!; try done.
      by destruct (onEvicted c); rewrite app_nil_r. }
    destruct (IH (removeElement c elem)) as (ev & Hll & Hlog & _ & Hexp).
    exists (elem :: ev). simpl in Hll, Hlog. rewrite El in Hll. simpl in Hll.
    rewrite decide_True in Hll by done.
    split_and!.
    + simpl. by rewrite <- Hll.
    + rewrite Hlog. destruct (onEvicted c); [|done].
      by rewrite <- app_assoc.
    + done.
    + intros k Hk. simpl in Hk. apply not_elem_of_cons in Hk as [Hne Hk].
      rewrite (Hexp k Hk). simpl. by rewrite lookup_delete_ne.
Qed.

(** A node behind the victims keeps its place in the index. *)
Lemma items_lookup_suffix ev l k e :
  NoDup (map key (ev ++ l)) →
  items_lookup k l = Some e → items_lookup k (ev ++ l) = Some e.
Proof.
  intros Hn Hl. rewrite items_lookup_app.
  destruct (items_lookup k ev) as [e'|] eqn:Ee; [|done].
  exfalso. rewrite map_app in Hn. apply NoDup_app in Hn as (_ & Hd & _).
  apply (Hd k).
  - apply items_lookup_is_Some. by eauto.
  - apply items_lookup_is_Some. by eauto.
Qed.

Lemma ll_Remove_absent k l : items_lookup k l = None → ll_Remove k l = l.
Proof.
  induction l as [|x l IH]; simpl; [done|].
  case_decide; [done|]. intros Hl. by rewrite IH.
Qed.

(** [SetWithExpiration] is [removeOldest] run on the list in which the node
    of the key has been moved, or added, to the back. *)
Lemma SetWithExpiration_before_eviction c k v duration now :
  ∃ c',
    SetWithExpiration c k v duration now = removeOldest c'
    ∧ ll c' = ll_Remove k (ll c) ++ [mkEntry k v]
    ∧ evictedLog c' = evictedLog c ∧ onEvicted c' = onEvicted c
    ∧ maxBytes c' = maxBytes c
    ∧ expiredTime c' =
        if 0 <? duration then <[k := now + duration]> (expiredTime c)
        else delete k (expiredTime c).
Proof.
  unfold SetWithExpiration.
  destruct (items_lookup k (ll c)) as [entry|] eqn:El.
  - destruct (items_lookup_Some _ _ _ El) as [Hk _].
    eexists. split; [reflexivity|]. simpl. unfold ll_MoveToBack. simpl.
    by rewrite Hk.
  - eexists. split; [reflexivity|]. simpl. by rewrite ll_Remove_absent.
Qed.

(** X2.  A [Set] or [SetWithExpiration] first puts the node of its key at
    the back of the list (the most recently used end), then evicts: what is
    left is the list without a prefix [ev], so the victims are the least
    recently used entries, oldest first; each victim is handed to the
    eviction callback in that order when one is configured; nothing is
    evicted from a store that the write leaves within its budget or that
    has no budget ([maxBytes ≤ 0]); and when the loop stops the store is
    not over its budget. *)
Theorem X2_eviction_takes_the_oldest_first c k v duration now :
  ∃ ev,
    ll_Remove k (ll c) ++ [mkEntry k v]
      = ev ++ ll (SetWithExpiration c k v duration now)
    ∧ evictedLog (SetWithExpiration c k v duration now)
      = evictedLog c ++ (if onEvicted c then ev else [])
    ∧ (maxBytes c ≤ 0 → ev = [])
    ∧ over_budget (SetWithExpiration c k v duration now) = false.
Proof.
  destruct (SetWithExpiration_before_eviction c k v duration now)
    as (c' & Heq & Hll & Hlog & Hon & Hmax & _).
  destruct (removeOldest_loop_prefix (length (ll c')) c')
    as (ev & Hpre & Hev & Hnone & _).
  fold (removeOldest c') in Hpre, Hev. rewrite <- Heq in Hpre, Hev.
  exists ev. split_and!.
  - by rewrite <- Hll.
  - by rewrite Hev, Hlog, Hon.
  - intros Hm. apply Hnone. unfold over_budget. rewrite Hmax.
    destruct (0 <? maxBytes c) eqn:E; [apply Z.ltb_lt in E; lia | done].
  - rewrite Heq. apply removeOldest_stops.
Qed.

(** X3.  A write to key [k] leaves every other key [k'] alone or evicts
    it: either [k'] has no node afterwards, or it has the node and the
    expiry it had before.  On a store without budget ([maxBytes ≤ 0]) it is
    always the latter: nothing is ever evicted. *)
Theorem X3_write_leaves_other_keys_or_evicts_them c k k' v duration now :
  lru_inv c → k' ≠ k →
  (items_lookup k' (ll (SetWithExpiration c k v duration now)) = None
   ∨ (items_lookup k' (ll (SetWithExpiration c k v duration now))
        = items_lookup k' (ll c)
      ∧ expiredTime (SetWithExpiration c k v duration now) !! k'
        = expiredTime c !! k'))
  ∧ (maxBytes c ≤ 0 →
     items_lookup k' (ll (SetWithExpiration c k v duration now))
       = items_lookup k' (ll c)
     ∧ expiredTime (SetWithExpiration c k v duration now) !! k'
       = expiredTime c !! k').
Proof.
  intros Hc Hne.
  destruct (SetWithExpiration_before_eviction c k v duration now)
    as (c' & Heq & Hll & Hlog & Hon & Hmax & Het).
  destruct (removeOldest_loop_prefix (length (ll c')) c')
    as (ev & Hpre & _ & Hnone & Hexp).
  fold (removeOldest c') in Hpre, Hexp. rewrite <- Heq in Hpre, Hexp.
  assert (NoDup (map key (ll c'))) as Hn'.
  { rewrite Hll. apply NoDup_MoveToBack; [done | by destruct Hc]. }
  assert (items_lookup k' (ll c') = items_lookup k' (ll c)) as Hsame.
  { rewrite Hll, items_lookup_app, items_lookup_Remove_ne by done.
    destruct (items_lookup k' (ll c)); [done|]. simpl.
    by rewrite decide_False by (simpl; congruence). }
  assert (expiredTime c' !! k' = expiredTime c !! k') as Hexp'.
  { rewrite Het. destruct (0 <? duration).
    - by rewrite lookup_insert_ne.
    - by rewrite lookup_delete_ne. }
  assert (k' ∉ map key ev →
          items_lookup k' (ll (SetWithExpiration c k v duration now))
            = items_lookup k' (ll c)
          ∧ expiredTime (SetWithExpiration c k v duration now) !! k'
            = expiredTime c !! k') as Hkept.
  { intros Hk'. split; [|by rewrite (Hexp k' Hk')].
    rewrite <- Hsame, Hpre, items_lookup_app.
    apply items_lookup_None in Hk'. by rewrite Hk'. }
  split.
  - destruct (decide (k' ∈ map key ev)) as [Hin|Hout]; [left | right; auto].
    apply items_lookup_None. intros Hin'.
    rewrite Hpre, map_app in Hn'. apply NoDup_app in Hn' as (_ & Hd & _).
    by apply (Hd k').
  - intros Hm. apply Hkept.
    rewrite Hnone; [apply not_elem_of_nil|].
    unfold over_budget. rewrite Hmax.
    destruct (0 <? maxBytes c) eqn:E; [apply Z.ltb_lt in E; lia | done].
Qed.

Lemma length_ll_Remove k l e :
  items_lookup k l = Some e → length l = S (length (ll_Remove k l)).
Proof.
  induction l as [|x l IH]; simpl; [done|].
  case_decide; [done|]. intros Hl. simpl. by rewrite <- IH.
Qed.

(** X4.  [Delete(key)] answers [true] exactly when the key has a node.  It
    then takes the key out of both maps, gives the bytes of the entry back
    to [usedBytes], hands the entry to the callback when one is configured,
    shortens the list by one, and leaves the node and the expiry of every
    other key as they were.  For a key without a node it answers [false]
    and changes nothing. *)
Theorem X4_Delete_removes_one_entry c k :
  lru_inv c →
  ((Delete c k).2 = true ↔ is_Some (items_lookup k (ll c)))
  ∧ items_lookup k (ll (Delete c k).1) = None
  ∧ expiredTime (Delete c k).1 !! k = None
  ∧ (∀ k', k' ≠ k →
       items_lookup k' (ll (Delete c k).1) = items_lookup k' (ll c)
       ∧ expiredTime (Delete c k).1 !! k' = expiredTime c !! k')
  ∧ (∀ e, items_lookup k (ll c) = Some e →
       usedBytes (Delete c k).1 = wrap64 (usedBytes c - entry_bytes e)
       ∧ length (ll c) = S (length (ll (Delete c k).1))
       ∧ evictedLog (Delete c k).1
         = evictedLog c ++ (if onEvicted c then [e] else []))
  ∧ (items_lookup k (ll c) = None → Delete c k = (c, false)).
Proof.
  intros Hc. destruct (Delete_removes c k Hc) as [Hgone Hexp].
  split_and!; try done.
  - unfold Delete. destruct (items_lookup k (ll c)); simpl.
    + split; by eauto.
    + split; [done | by intros [? [=]]].
  - intros k' Hne. unfold Delete.
    destruct (items_lookup k (ll c)) as [ele|] eqn:El; simpl; [|done].
    destruct (items_lookup_Some _ _ _ El) as [Hk _]. rewrite Hk.
    split; [by apply items_lookup_Remove_ne | by rewrite lookup_delete_ne].
  - intros e He. unfold Delete. rewrite He. simpl.
    destruct (items_lookup_Some _ _ _ He) as [Hk _]. rewrite Hk.
    split_and!; [done | by eapply length_ll_Remove |].
    by destruct (onEvicted c); rewrite ?app_nil_r.
  - intros Hn. unfold Delete. by rewrite Hn.
Qed.

Lemma ll_MoveToBack_Permutation k l e :
  items_lookup k l = Some e → ll_Remove k l ++ [e] ≡ₚ l.
Proof.
  induction l as [|x l IH]; simpl; [done|].
  case_decide.
  - intros [= ->]. by rewrite Permutation_app_comm.
  - intros Hl. simpl. by rewrite (IH Hl).
Qed.

(** X5.  [Get] only reorders.  Hit or miss, expired entry or not, the store
    afterwards has the same entries (the list is a permutation of the old
    one), the same node under every key, the same expiry map and the same
    [usedBytes]; it never calls the eviction callback.  In particular an
    expired entry is still in both maps when [Get] returns. *)
Theorem X5_Get_only_reorders c k now :
  lru_inv c →
  ll (Get c k now).1.2 ≡ₚ ll c
  ∧ (∀ k', items_lookup k' (ll (Get c k now).1.2) = items_lookup k' (ll c))
  ∧ expiredTime (Get c k now).1.2 = expiredTime c
  ∧ usedBytes (Get c k now).1.2 = usedBytes c
  ∧ evictedLog (Get c k now).1.2 = evictedLog c.
Proof.
  intros [Hu Hn He].
  assert (∀ ele, items_lookup k (ll c) = Some ele →
            ll (touch c ele) ≡ₚ ll c
            ∧ (∀ k', items_lookup k' (ll (touch c ele))
                     = items_lookup k' (ll c))
            ∧ expiredTime (touch c ele) = expiredTime c
            ∧ usedBytes (touch c ele) = usedBytes c
            ∧ evictedLog (touch c ele) = evictedLog c) as Htouch.
  { intros ele El. destruct (items_lookup_Some _ _ _ El) as [Hk _].
    unfold touch. rewrite Hk, El. simpl. unfold ll_MoveToBack. rewrite Hk.
    split_and!; try done.
    - by apply ll_MoveToBack_Permutation.
    - intros k'. destruct (decide (k' = k)) as [->|Hne].
      + by rewrite items_lookup_MoveToBack_eq.
      + rewrite items_lookup_app, items_lookup_Remove_ne by done.
        destruct (items_lookup k' (ll c)); [done|]. simpl.
        by rewrite decide_False by congruence. }
  unfold Get. destruct (items_lookup k (ll c)) as [ele|] eqn:El; [|done].
  destruct (expiredTime c !! k) as [t|]; [|by apply Htouch].
  destruct (t <? now); [done | by apply Htouch].
Qed.

(** *** The reaper *)

Lemma deleteExpired_visit_spares now c k0 k :
  (∀ t, expiredTime c !! k = Some t → now ≤ t) →
  items_lookup k (ll (deleteExpired_visit now c k0)) = items_lookup k (ll c)
  ∧ expiredTime (deleteExpired_visit now c k0) !! k = expiredTime c !! k.
Proof.
  intros Hk. unfold deleteExpired_visit.
  destruct (expiredTime c !! k0) as [t0|] eqn:E0; [|done].
  destruct (t0 <? now) eqn:Elt; [|done]. apply Z.ltb_lt in Elt.
  destruct (items_lookup k0 (ll c)) as [elem|] eqn:El; [|done].
  destruct (items_lookup_Some _ _ _ El) as [Hk0 _].
  assert (k ≠ k0) as Hne.
  { intros ->. specialize (Hk t0 E0). lia. }
  simpl. rewrite Hk0.
  split; [by apply items_lookup_Remove_ne | by rewrite lookup_delete_ne].
Qed.

Lemma deleteExpired_fold_spares now ks c k :
  (∀ t, expiredTime c !! k = Some t → now ≤ t) →
  items_lookup k (ll (fold_left (deleteExpired_visit now) ks c))
    = items_lookup k (ll c)
  ∧ expiredTime (fold_left (deleteExpired_visit now) ks c) !! k
    = expiredTime c !! k.
Proof.
  revert c. induction ks as [|k0 ks IH]; intros c Hk; simpl; [done|].
  destruct (deleteExpired_visit_spares now c k0 k Hk) as [Hl He].
  destruct (IH (deleteExpired_visit now c k0)) as [Hl' He'].
  { intros t. rewrite He. apply Hk. }
  by rewrite Hl', He', Hl, He.
Qed.

Lemma deleteExpired_fold_gone now ks c k :
  items_lookup k (ll c) = None → expiredTime c !! k = None →
  items_lookup k (ll (fold_left (deleteExpired_visit now) ks c)) = None
  ∧ expiredTime (fold_left (deleteExpired_visit now) ks c) !! k = None.
Proof.
  intros Hl He.
  destruct (deleteExpired_fold_spares now ks c k) as [-> ->]; [|done].
  intros t. by rewrite He.
Qed.

Lemma deleteExpired_fold_reaps now ks c k t :
  lru_inv c → k ∈ ks → expiredTime c !! k = Some t → t < now →
  items_lookup k (ll (fold_left (deleteExpired_visit now) ks c)) = None
  ∧ expiredTime (fold_left (deleteExpired_visit now) ks c) !! k = None.
Proof.
  revert c. induction ks as [|k0 ks IH]; intros c Hc Hin Het Hlt.
  - by apply elem_of_nil in Hin.
  - simpl. destruct (decide (k0 = k)) as [->|Hne].
    + apply deleteExpired_fold_gone.
      * unfold deleteExpired_visit. rewrite Het.
        rewrite (proj2 (Z.ltb_lt _ _) Hlt).
        destruct Hc as [_ Hn He].
        destruct (He k) as [ele El]; [by eauto|]. rewrite El. simpl.
        destruct (items_lookup_Some _ _ _ El) as [-> _].
        by apply items_lookup_Remove_eq.
      * unfold deleteExpired_visit. rewrite Het.
        rewrite (proj2 (Z.ltb_lt _ _) Hlt).
        destruct Hc as [_ Hn He].
        destruct (He k) as [ele El]; [by eauto|]. rewrite El. simpl.
        destruct (items_lookup_Some _ _ _ El) as [-> _].
        apply lookup_delete_eq.
    + apply elem_of_cons in Hin as [->|Hin]; [done|].
      apply IH; [by apply deleteExpired_visit_inv | done | | done].
      unfold deleteExpired_visit.
      destruct (expiredTime c !! k0) as [t0|] eqn:E0; [|done].
      destruct (t0 <? now); [|done].
      destruct (items_lookup k0 (ll c)) as [elem|] eqn:El; [|done].
      destruct (items_lookup_Some _ _ _ El) as [Hk0 _].
      simpl. rewrite Hk0. by rewrite lookup_delete_ne.
Qed.

(** X6.  A tick of the reaper removes expired entries only.  An entry
    without expiry, or whose expiry is not before the clock, keeps its node
    and its expiry, whatever the order in which the expiry map is
    enumerated.  An entry whose expiry is before the clock is removed from
    both maps when its key is among the first [maxScan = 100] keys
    enumerated. *)
Theorem X6_reaper_removes_expired_entries_only c now order k :
  lru_inv c →
  ((∀ t, expiredTime c !! k = Some t → now ≤ t) →
   items_lookup k (ll (deleteExpired c now order)) = items_lookup k (ll c)
   ∧ expiredTime (deleteExpired c now order) !! k = expiredTime c !! k)
  ∧ (∀ t, k ∈ take maxScan order → expiredTime c !! k = Some t → t < now →
       items_lookup k (ll (deleteExpired c now order)) = None
       ∧ expiredTime (deleteExpired c now order) !! k = None).
Proof.
  intros Hc. split.
  - intros Hk. by apply deleteExpired_fold_spares.
  - intros t Hin Het Hlt. by eapply deleteExpired_fold_reaps.
Qed.

Lemma deleteExpired_visit_length now c k0 :
  (length (ll c) ≤ S (length (ll (deleteExpired_visit now c k0))))%nat.
Proof.
  unfold deleteExpired_visit.
  destruct (expiredTime c !! k0); [|lia].
  destruct (_ <? now); [|lia].
  destruct (items_lookup k0 (ll c)) as [elem|] eqn:El; [|lia].
  destruct (items_lookup_Some _ _ _ El) as [Hk0 _]. simpl. rewrite Hk0.
  rewrite (length_ll_Remove _ _ _ El). lia.
Qed.

(** X7.  A tick of the reaper removes at most [maxScan = 100] entries,
    however many have expired. *)
Theorem X7_reaper_removes_at_most_maxScan c now order :
  (length (ll c) ≤ length (ll (deleteExpired c now order)) + 100)%nat.
Proof.
  unfold deleteExpired.
  assert (∀ ks c0,
            (length (ll c0)
             ≤ length (ll (fold_left (deleteExpired_visit now) ks c0))
               + length ks)%nat) as Hgen.
  { induction ks as [|k0 ks IH]; intros c0; simpl; [lia|].
    pose proof (deleteExpired_visit_length now c0 k0).
    pose proof (IH (deleteExpired_visit now c0 k0)). lia. }
  pose proof (Hgen (take maxScan order) c) as Hb.
  rewrite length_take in Hb. unfold maxScan in *. lia.
Qed.

(** X8.  The deletion that [Get] defers does not look at the entry again
    when it runs.  [Get] on an expired entry starts [Delete(key)]; if a
    [Set] writes a new value for the key before that goroutine runs, and
    the new entry is not evicted by that [Set] itself (max-bytes is not
    positive, or [len(key) + value.Len()] is at most max-bytes), the new
    entry is served by [Get] in between, and is gone once the goroutine
    has run. *)
Theorem X8_deferred_Delete_takes_a_fresh_entry
    c k e v' expireTime t1 t2 t3 :
  lru_inv c →
  items_lookup k (ll c) = Some e →
  expiredTime c !! k = Some expireTime → expireTime < t1 →
  maxBytes c ≤ 0 ∨ entry_bytes (mkEntry k v') ≤ maxBytes c →
  Get c k t1 = (None, false, c, [GoDelete k])
  ∧ (Get (Set_ c k v' t2) k t3).1.1 = (Some v', true)
  ∧ (Get (run_task (Set_ c k v' t2) (GoDelete k)) k t3).1.1 = (None, false).
Proof.
  intros Hc Hl Het Hlt Hfit.
  pose proof (SetWithExpiration_inv c k v' 0 t2 Hc) as Hc2.
  destruct (SetWithExpiration_kept c k v' 0 t2 Hc Hfit) as (_ & Hl2 & Het2).
  simpl in Het2. fold (Set_ c k v' t2) in Hc2, Hl2, Het2.
  split_and!.
  - by eapply Get_expired.
  - destruct (Get_hit _ k _ t3 Hl2) as (c' & -> & _); [|done].
    intros t. by rewrite Het2.
  - destruct (Delete_removes _ k Hc2) as [Hgone _].
    simpl. by rewrite Get_absent.
Qed.

End LRU_more.

(** Two keys on a store of 100 bytes: a write to ["b"] leaves ["a"] with
    its node. *)
Lemma X3_witness :
  store.lru_inv
    (store.run (store.mkOptions 100 0 0 0 0 false) [store.OpSet "a" "1" 0])
  ∧ "a" ≠ "b"
  ∧ (store.items_lookup "a"
       (store.ll
          (store.SetWithExpiration
             (store.run (store.mkOptions 100 0 0 0 0 false)
                [store.OpSet "a" "1" 0]) "b" "2" 0 1)) = None
     ∨ store.items_lookup "a"
         (store.ll
            (store.SetWithExpiration
               (store.run (store.mkOptions 100 0 0 0 0 false)
                  [store.OpSet "a" "1" 0]) "b" "2" 0 1))
       = store.items_lookup "a"
           (store.ll
              (store.run (store.mkOptions 100 0 0 0 0 false)
                 [store.OpSet "a" "1" 0]))
       ∧ store.expiredTime
           (store.SetWithExpiration
              (store.run (store.mkOptions 100 0 0 0 0 false)
                 [store.OpSet "a" "1" 0]) "b" "2" 0 1) !! "a"
         = store.expiredTime
             (store.run (store.mkOptions 100 0 0 0 0 false)
                [store.OpSet "a" "1" 0]) !! "a").
Proof.
  pose proof (lru_run_inv (V:=string) (store.mkOptions 100 0 0 0 0 false)
                [store.OpSet "a" "1" 0]) as Hinv.
  assert ("a" ≠ "b") as Hne by discriminate.
  split; [exact Hinv|]. split; [exact Hne|].
  exact (proj1 (X3_write_leaves_other_keys_or_evicts_them
                  (store.run (store.mkOptions 100 0 0 0 0 false)
                     [store.OpSet "a" "1" 0]) "b" "a" "2" 0 1 Hinv Hne)).
Defined.

(** The deletion of the one key of a store. *)
Lemma X4_witness :
  store.lru_inv
    (store.run (store.mkOptions 100 0 0 0 0 true) [store.OpSet "a" "1" 0])
  ∧ store.items_lookup "a"
      (store.ll
         (store.Delete
            (store.run (store.mkOptions 100 0 0 0 0 true)
               [store.OpSet "a" "1" 0]) "a").1) = None.
Proof.
  pose proof (lru_run_inv (V:=string) (store.mkOptions 100 0 0 0 0 true)
                [store.OpSet "a" "1" 0]) as Hinv.
  split; [exact Hinv|].
  exact (proj1 (proj2 (X4_Delete_removes_one_entry
                         (store.run (store.mkOptions 100 0 0 0 0 true)
                            [store.OpSet "a" "1" 0]) "a" Hinv))).
Defined.

(** A [Get] of the older of two keys. *)
Lemma X5_witness :
  store.lru_inv
    (store.run (store.mkOptions 100 0 0 0 0 false)
       [store.OpSet "a" "1" 0; store.OpSet "b" "2" 0])
  ∧ store.ll
      (store.Get
         (store.run (store.mkOptions 100 0 0 0 0 false)
            [store.OpSet "a" "1" 0; store.OpSet "b" "2" 0]) "a" 1).1.2
    ≡ₚ store.ll
         (store.run (store.mkOptions 100 0 0 0 0 false)
            [store.OpSet "a" "1" 0; store.OpSet "b" "2" 0]).
Proof.
  pose proof (lru_run_inv (V:=string) (store.mkOptions 100 0 0 0 0 false)
                [store.OpSet "a" "1" 0; store.OpSet "b" "2" 0]) as Hinv.
  split; [exact Hinv|].
  exact (proj1 (X5_Get_only_reorders
                  (store.run (store.mkOptions 100 0 0 0 0 false)
                     [store.OpSet "a" "1" 0; store.OpSet "b" "2" 0])
                  "a" 1 Hinv)).
Defined.

(** A tick at 20 over an entry that expired at 10. *)
Lemma X6_witness :
  store.lru_inv
    (store.run (store.mkOptions 100 0 0 0 0 false)
       [store.OpSetWithExpiration "a" "1" 10 0; store.OpSet "b" "2" 0])
  ∧ store.items_lookup "a"
      (store.ll
         (store.deleteExpired
            (store.run (store.mkOptions 100 0 0 0 0 false)
               [store.OpSetWithExpiration "a" "1" 10 0;
                store.OpSet "b" "2" 0]) 20 ["a"])) = None.
Proof.
  pose proof (lru_run_inv (V:=string) (store.mkOptions 100 0 0 0 0 false)
                [store.OpSetWithExpiration "a" "1" 10 0;
                 store.OpSet "b" "2" 0]) as Hinv.
  split; [exact Hinv|].
  refine (proj1 (proj2 (X6_reaper_removes_expired_entries_only
                          (store.run (store.mkOptions 100 0 0 0 0 false)
                             [store.OpSetWithExpiration "a" "1" 10 0;
                              store.OpSet "b" "2" 0]) 20 ["a"] "a" Hinv)
                   10 _ _ _)).
  - unfold store.maxScan. simpl. constructor.
  - vm_compute. reflexivity.
  - lia.
Defined.

(** An entry that expired at 10, read at 20, rewritten at 21, read at 22,
    before and after the deferred deletion has run. *)
Lemma X8_witness :
  store.lru_inv
    (store.run (store.mkOptions 100 0 0 0 0 false)
       [store.OpSetWithExpiration "a" "1" 10 0])
  ∧ store.expiredTime
      (store.run (store.mkOptions 100 0 0 0 0 false)
         [store.OpSetWithExpiration "a" "1" 10 0]) !! "a" = Some 10
  ∧ 10 < 20
  ∧ (store.Get
       (store.run_task
          (store.Set_
             (store.run (store.mkOptions 100 0 0 0 0 false)
                [store.OpSetWithExpiration "a" "1" 10 0]) "a" "2" 21)
          (store.GoDelete "a")) "a" 22).1.1 = (None, false).
Proof.
  pose proof (lru_run_inv (V:=string) (store.mkOptions 100 0 0 0 0 false)
                [store.OpSetWithExpiration "a" "1" 10 0]) as Hinv.
  assert (store.expiredTime
            (store.run (store.mkOptions 100 0 0 0 0 false)
               [store.OpSetWithExpiration "a" "1" 10 0]) !! "a" = Some 10)
    as Het by (vm_compute; reflexivity).
  split; [exact Hinv|]. split; [exact Het|]. split; [lia|].
  refine (proj2 (proj2 (X8_deferred_Delete_takes_a_fresh_entry
                          (store.run (store.mkOptions 100 0 0 0 0 false)
                             [store.OpSetWithExpiration "a" "1" 10 0])
                          "a" (store.mkEntry "a" "1") "2" 10 20 21 22
                          Hinv _ Het _ _))).
  - vm_compute. reflexivity.
  - lia.
  - right. vm_compute. discriminate.
Defined.

(** ** The LRU store: the budget after a write *)

Section LRU_budget.
Context {V : Type} `{store.Value V}.
Import store.

Local Abbreviation lruEntry := (@lruEntry V).
Local Abbreviation lruCache := (@lruCache V).
Implicit Types (c : lruCache) (l ev : list lruEntry) (e : lruEntry).
Implicit Types (k : string) (v : V) (now duration : Z).

(** The loop of [removeOldest] takes entries off the front of the list,
    each one at a moment when the bytes in the store exceed [maxBytes]. *)
Lemma removeOldest_loop_evicts n c :
  lru_inv c →
  ∃ ev,
    ll c = ev ++ ll (removeOldest_loop n c)
    ∧ evictedLog (removeOldest_loop n c)
      = evictedLog c ++ (if onEvicted c then ev else [])
    ∧ ∀ ev1 e ev2, ev = ev1 ++ e :: ev2 →
        maxBytes c
        < wrap64 (live_bytes (e :: ev2 ++ ll (removeOldest_loop n c))).
Proof.
  revert c. induction n as [|n IH]; intros c Hc; simpl.
  - exists []. split_and!; [done | by destruct (onEvicted c); rewrite app_nil_r |].
    intros ev1 e ev2 Heq. by destruct ev1.
  - destruct (over_budget c) eqn:Eo.
    2: { exists []. split_and!;
           [done | by destruct (onEvicted c); rewrite app_nil_r |].
         intros ev1 e ev2 Heq. by destruct ev1. }
    destruct (ll c) as [|elem rest] eqn:El.
    { exists []. split_and!;
        [by rewrite El | by destruct (onEvicted c); rewrite app_nil_r |].
      intros ev1 e ev2 Heq. by destruct ev1. }
    assert (items_lookup (key elem) (ll c) = Some elem) as Hl.
    { rewrite El. simpl. by rewrite decide_True. }
    pose proof (removeElement_inv c elem Hc Hl) as Hc1.
    assert (ll (removeElement c elem) = rest) as Hll1.
    { simpl. rewrite El. simpl. by rewrite decide_True. }
    destruct (IH (removeElement c elem) Hc1) as (ev & Hev & Hlog & Hover).
    exists (elem :: ev). split_and!.
    + simpl. f_equal. by rewrite <- Hev, Hll1.
    + rewrite Hlog. simpl. destruct (onEvicted c); [|done].
      by rewrite <- app_assoc.
    + intros ev1 e ev2 Heq. destruct ev1 as [|a ev1]; simpl in Heq.
      * injection Heq as <- <-. rewrite <- Hev, Hll1.
        change (maxBytes c < wrap64 (live_bytes (elem :: rest))).
        rewrite <- El.
        destruct Hc as [Hu _ _]. rewrite <- Hu.
        unfold over_budget in Eo.
        apply andb_true_iff in Eo as [Eo _].
        apply andb_true_iff in Eo as [_ Eo]. by apply Z.ltb_lt in Eo.
      * injection Heq as <- ->. by apply (Hover ev1 e ev2).
Qed.

(** A write puts its entry at the back of the list before it evicts, and
    the store is then still one whose counter is the sum of its
    entries. *)
Lemma SetWithExpiration_staged c k v duration now :
  lru_inv c →
  ∃ c',
    SetWithExpiration c k v duration now = removeOldest c'
    ∧ lru_inv c'
    ∧ ll c' = ll_Remove k (ll c) ++ [mkEntry k v]
    ∧ evictedLog c' = evictedLog c ∧ onEvicted c' = onEvicted c
    ∧ maxBytes c' = maxBytes c.
Proof.
  intros [Hu Hn He]. unfold SetWithExpiration.
  destruct (items_lookup k (ll c)) as [entry|] eqn:El.
  - destruct (items_lookup_Some _ _ _ El) as [Hk _].
    eexists. split; [reflexivity|].
    split; [|by simpl; unfold ll_MoveToBack; simpl; rewrite Hk].
    split; simpl; unfold ll_MoveToBack; simpl; rewrite Hk.
    + rewrite live_bytes_app, (live_bytes_Remove _ _ _ El), Hu. simpl.
      rewrite wrap64_add_r, wrap64_add_l, Hk. f_equal. lia.
    + by apply NoDup_MoveToBack.
    + intros k' Hk'. destruct (decide (k' = k)) as [->|Hne].
      * rewrite items_lookup_MoveToBack_eq by done. by eauto.
      * apply items_lookup_MoveToBack_is_Some; [done|]. apply He.
        destruct (0 <? duration).
        -- by rewrite lookup_insert_ne in Hk'.
        -- by rewrite lookup_delete_ne in Hk'.
  - eexists. split; [reflexivity|].
    split; [|by simpl; rewrite ll_Remove_absent].
    split; simpl.
    + rewrite live_bytes_app, Hu. simpl.
      rewrite wrap64_add_r, wrap64_add_l. f_equal. lia.
    + rewrite map_app. simpl. apply NoDup_app. split_and!; [done | |].
      * intros x Hx. rewrite list_elem_of_singleton. intros ->.
        by apply items_lookup_None in El.
      * apply NoDup_singleton.
    + intros k' Hk'. rewrite items_lookup_app.
      destruct (decide (k' = k)) as [->|Hne].
      * rewrite El. simpl. rewrite decide_True by done. by eauto.
      * assert (is_Some (items_lookup k' (ll c))) as [e' ->]; [|by eauto].
        apply He. destruct (0 <? duration).
        -- by rewrite lookup_insert_ne in Hk'.
        -- by rewrite lookup_delete_ne in Hk'.
Qed.


End LRU_budget.


(** ** The single-flight coordinator: progress, termination, keys, and
    who shares a call record *)

Section Do_more.
Context {R : Type} (fn : string → nat → option R).
Import singleflight.

Local Abbreviation state := (@state R).
Local Abbreviation call := (@call R).
Local Abbreviation pc := (@pc R).
Implicit Types (s : state) (t c : nat) (k : string) (p : pc).

Ltac thread_at H :=
  apply list_lookup_insert_Some in H as [(? & ? & _) | (? & H)];
  simplify_eq.

Lemma init_live keys : do_live (init (R:=R) keys).
Proof.
  split; simpl.
  - intros t k p c Ht.
    by apply list_lookup_fmap_Some in Ht as (? & [= _ ->] & ?).
  - intros c cl. by destruct c.
  - by intros mm k c [=].
  - intros t1 t2 k1 k2 p1 p2 c Ht.
    by apply list_lookup_fmap_Some in Ht as (? & [= _ ->] & ?).
  - intros i Hi. by apply elem_of_nil in Hi.
Qed.

(** A step of thread [t], from [p0] to [p'], keeps [do_live] when the new
    records, map and log are accounted for. *)
Lemma step_live s t key p0 p' mm cs lg :
  do_live s → threads s !! t = Some (key, p0) →
  (∀ c, pc_call p0 = Some c → pc_call p' = Some c) →
  (∀ c, pc_call p' = Some c →
        pc_call p0 = Some c
        ∨ ((c < length cs)%nat
           ∧ ∀ t' k' p, threads s !! t' = Some (k', p) →
                        pc_call p = Some c → k' = key)) →
  (length (calls s) ≤ length cs)%nat →
  (∀ c cl', cs !! c = Some cl' →
        wg cl' = 0%nat
        ∨ (wg cl' = 1%nat
           ∧ (leads p' c
              ∨ ∃ t' k' p, t' ≠ t ∧ threads s !! t' = Some (k', p)
                           ∧ leads p c))) →
  (∀ mm' k c, mm = Some mm' → mm' !! k = Some c →
        (k = key ∧ owns p' c)
        ∨ ∃ t' p, t' ≠ t ∧ threads s !! t' = Some (k, p) ∧ owns p c) →
  (∀ i, i ∈ lg →
        i ∈ log s ∨ (inv_caller i = t ∧ pc_call p' = Some (inv_call i))) →
  do_live {| m := mm; calls := cs;
             threads := <[t := (key, p')]> (threads s); log := lg |}.
Proof.
  intros [Ha Hw Hm Hk Hl] Et Hpc Hnew Hlen Hwg Hmap Hlog.
  assert (t < length (threads s))%nat as Hlt by by eapply lookup_lt_Some.
  split; simpl.
  - intros t0 k p c Ht Hp. thread_at Ht.
    + destruct (Hnew c Hp) as [Hp0|[? _]]; [|done].
      specialize (Ha _ _ _ _ Et Hp0). lia.
    + specialize (Ha _ _ _ _ Ht Hp). lia.
  - intros c cl' Hc. destruct (Hwg c cl' Hc) as [?|[H1 Hlead]]; [by left|].
    right. split; [done|]. destruct Hlead as [Hlead|(t' & k' & p & Hne & Ht' & Hp)].
    + exists t, key, p'. by rewrite list_lookup_insert_eq.
    + exists t', k', p. by rewrite list_lookup_insert_ne.
  - intros mm' k c Hmm Hkc.
    destruct (Hmap mm' k c Hmm Hkc) as [[-> Ho]|(t' & p & Hne & Ht' & Hp)].
    + exists t, p'. by rewrite list_lookup_insert_eq.
    + exists t', p. by rewrite list_lookup_insert_ne.
  - intros t1 t2 k1 k2 p1 p2 c Ht1 Ht2 Hp1 Hp2.
    thread_at Ht1; thread_at Ht2; try done.
    + destruct (Hnew c Hp1) as [Hp0|[_ Hfresh]]; [by eauto|].
      symmetry. by eauto.
    + destruct (Hnew c Hp2) as [Hp0|[_ Hfresh]]; by eauto.
    + by eauto.
  - intros i Hi. destruct (Hlog i Hi) as [Hold|[<- Hp]].
    + destruct (Hl i Hold) as (k & p & Hi' & Hp).
      destruct (decide (inv_caller i = t)) as [Heq|Hne].
      * rewrite Heq in Hi'. rewrite Heq, list_lookup_insert_eq by done.
        simplify_eq. exists key, p'. by split; [|apply Hpc].
      * exists k, p. by rewrite list_lookup_insert_ne.
    + exists key, p'. by rewrite list_lookup_insert_eq.
Qed.

Lemma default_map_lookup (mo : option (gmap string nat)) k c :
  default ∅ mo !! k = Some c → mo = Some (default ∅ mo).
Proof. destruct mo; [done|]. simpl. by rewrite lookup_empty. Qed.

Lemma do_step_live s t s' : do_live s → step fn t s = Some s' → do_live s'.
Proof.
  intros Hs. pose proof Hs as [Ha Hw Hm Hk Hl]. unfold step.
  destruct (threads s !! t) as [[key p]|] eqn:Et; [|done].
  assert (∀ c cl, (∀ c', ¬ leads p c') → calls s !! c = Some cl →
            wg cl = 0%nat
            ∨ (wg cl = 1%nat
               ∧ ∃ t' k' p1, t' ≠ t ∧ threads s !! t' = Some (k', p1)
                             ∧ leads p1 c)) as Hw'.
  { intros c cl Hnl Hc. destruct (Hw c cl Hc) as [?|[H1 (t' & k' & p1 & Ht' & Hp1)]];
      [by left|]. right. split; [done|]. exists t', k', p1.
    split_and!; try done. intros ->. simplify_eq. by apply (Hnl c). }
  assert (∀ mm k c, (∀ c', ¬ owns p c') → m s = Some mm → mm !! k = Some c →
            ∃ t' p1, t' ≠ t ∧ threads s !! t' = Some (k, p1) ∧ owns p1 c)
    as Hm'.
  { intros mm k c Hno Hmm Hkc. destruct (Hm mm k c Hmm Hkc) as (t' & p1 & Ht' & Hp1).
    exists t', p1. split_and!; try done. intros ->. simplify_eq.
    by apply (Hno c). }
  destruct p as [|c|c|c|c|c|c x].
  - (* Enter *)
    assert (∀ c', ¬ leads (R:=R) Enter c') as Hnl by by intros c' [|].
    assert (∀ c', ¬ owns (R:=R) Enter c') as Hno by by intros c' [|[|]].
    destruct (default ∅ (m s) !! key) as [c|] eqn:Emm; intros [= <-].
    + pose proof (default_map_lookup _ _ _ Emm) as Hmm.
      destruct (Hm _ _ _ Hmm Emm) as (t0 & p0 & Ht0 & Hp0).
      assert (pc_call p0 = Some c) as Hc0.
      { by destruct Hp0 as [-> | [-> | ->]]. }
      eapply step_live; try done.
      * simpl. intros c' [= <-]. right. split; [by eauto|].
        intros t' k' p1 Ht' Hp1. by eauto.
      * intros c' cl' Hc'. destruct (Hw' c' cl' Hnl Hc') as [?|[? ?]]; by eauto.
      * intros mm' k c' [= <-] Hkc. right.
        rewrite Hmm in Hm'. by eapply Hm'.
      * by left.
    + eapply step_live; try done.
      * simpl. intros c' [= <-]. right. rewrite length_app. simpl.
        split; [lia|]. intros t' k' p1 Ht' Hp1.
        specialize (Ha _ _ _ _ Ht' Hp1). lia.
      * rewrite length_app. lia.
      * intros c' cl' Hc'. apply lookup_app_Some in Hc' as [Hc'|[Hge Hc']].
        -- destruct (Hw' c' cl' Hnl Hc') as [?|[? ?]]; by eauto.
        -- apply list_lookup_singleton_Some in Hc' as [Hz <-]. simpl.
           right. split; [done|]. left. left. f_equal. lia.
      * intros mm' k c' [= <-] Hkc.
        apply lookup_insert_Some in Hkc as [[<- <-]|[Hne Hkc]].
        -- left. split; [done | by left].
        -- right. pose proof (default_map_lookup _ _ _ Hkc) as Hmm.
           by eapply Hm'.
      * by left.
  - (* Wait *)
    destruct (calls s !! c) as [cl|] eqn:Ec; [|done].
    case_decide as Hwz; intros [= <-].
    assert (∀ c', ¬ leads (Wait (R:=R) c) c') as Hnl by by intros c' [|].
    assert (∀ c', ¬ owns (Wait (R:=R) c) c') as Hno by by intros c' [|[|]].
    unfold set_pc. eapply step_live; try done.
    + by eauto.
    + intros c' cl' Hc'. destruct (Hw' c' cl' Hnl Hc') as [?|[? ?]]; by eauto.
    + intros mm' k c' Hmm Hkc. right. by eapply Hm'.
    + by left.
  - (* CallFn *)
    destruct (fn key (length (log s))) as [r|]; [|done].
    intros [= <-]. eapply step_live; try done.
    + by eauto.
    + by rewrite length_alter.
    + intros c' cl' Hc'. rewrite list_lookup_alter in Hc'.
      assert (∃ cl, calls s !! c' = Some cl ∧ wg cl' = wg cl) as (cl & Hcl & ->).
      { case_decide; subst; destruct (calls s !! c') as [cl|]; simplify_eq/=;
          by eauto. }
      destruct (Hw c' cl Hcl) as [?|[H1 (t' & k' & p1 & Ht' & Hp1)]]; [by left|].
      right. split; [done|]. destruct (decide (t' = t)) as [->|Hne].
      * left. simplify_eq. destruct Hp1 as [[= ->]|[=]]. by right.
      * right. by eauto 10.
    + intros mm' k c' Hmm Hkc. destruct (Hm _ _ _ Hmm Hkc) as (t' & p1 & Ht' & Hp1).
      destruct (decide (t' = t)) as [->|Hne].
      * left. simplify_eq. split; [done|].
        destruct Hp1 as [[= ->]|[[=]|[=]]]. by right; left.
      * right. by eauto 10.
    + intros i Hi. apply elem_of_app in Hi as [?|Hi]; [by left|].
      apply list_elem_of_singleton in Hi as ->. by right.
  - (* WgDone *)
    intros [= <-]. eapply step_live; try done.
    + by eauto.
    + by rewrite length_alter.
    + intros c' cl' Hc'. rewrite list_lookup_alter in Hc'.
      case_decide as Hcc.
      * subst c'. destruct (calls s !! c) as [cl|] eqn:Ec; simplify_eq/=.
        left. destruct (Hw c cl Ec) as [->|[-> _]]; done.
      * destruct (Hw c' cl' Hc') as [?|[H1 (t' & k' & p1 & Ht' & Hp1)]];
          [by left|].
        right. split; [done|]. right. exists t', k', p1. split_and!; try done.
        intros ->. simplify_eq. by destruct Hp1 as [[=]|[=]].
    + intros mm' k c' Hmm Hkc. destruct (Hm _ _ _ Hmm Hkc) as (t' & p1 & Ht' & Hp1).
      destruct (decide (t' = t)) as [->|Hne].
      * left. simplify_eq. split; [done|].
        destruct Hp1 as [[=]|[[= ->]|[=]]]. by right; right.
      * right. by eauto 10.
    + by left.
  - (* Forget *)
    intros [= <-].
    assert (∀ c', ¬ leads (Forget (R:=R) c) c') as Hnl by by intros c' [|].
    eapply step_live; try done.
    + by eauto.
    + intros c' cl' Hc'. destruct (Hw' c' cl' Hnl Hc') as [?|[? ?]]; by eauto.
    + intros mm' k c' Hmm Hkc. destruct (m s) as [mm0|] eqn:Emm; [|done].
      simpl in Hmm. injection Hmm as <-.
      apply lookup_delete_Some in Hkc as [Hne Hkc].
      destruct (Hm _ _ _ eq_refl Hkc) as (t' & p1 & Ht' & Hp1).
      right. exists t', p1. split_and!; try done. intros ->. by simplify_eq.
    + by left.
  - (* Return *)
    intros [= <-].
    assert (∀ c', ¬ leads (Return (R:=R) c) c') as Hnl by by intros c' [|].
    assert (∀ c', ¬ owns (Return (R:=R) c) c') as Hno by by intros c' [|[|]].
    unfold set_pc. eapply step_live; try done.
    + by eauto.
    + intros c' cl' Hc'. destruct (Hw' c' cl' Hnl Hc') as [?|[? ?]]; by eauto.
    + intros mm' k c' Hmm Hkc. right. by eapply Hm'.
    + by left.
  - done.
Qed.

Lemma do_exec_live s t : do_live s → do_live (exec fn s t).
Proof.
  intros Hs. unfold exec.
  destruct (step fn t s) as [s'|] eqn:E; [|done]. by eapply do_step_live.
Qed.

Lemma do_run_live sched s : do_live s → do_live (run fn sched s).
Proof.
  unfold run. revert s.
  induction sched as [|t sched IH]; intros s Hs; simpl; [done|].
  by apply IH, do_exec_live.
Qed.

(** The shape of a step: the thread moves on, it keeps its key and the
    record it holds, and no counter of a [wg] goes up. *)
Lemma step_shape s t s' :
  step fn t s = Some s' →
  ∃ key p p',
    threads s !! t = Some (key, p)
    ∧ threads s' = <[t := (key, p')]> (threads s)
    ∧ (steps_left p' < steps_left p)%nat
    ∧ (∀ c cl, calls s !! c = Some cl →
         ∃ cl', calls s' !! c = Some cl' ∧ (wg cl' ≤ wg cl)%nat).
Proof.
  unfold step. destruct (threads s !! t) as [[key p]|] eqn:Et; [|done].
  assert (∀ c cl, calls s !! c = Some cl →
            ∃ cl', calls s !! c = Some cl' ∧ (wg cl' ≤ wg cl)%nat) as Hsame
    by by eauto.
  destruct p as [|c|c|c|c|c|c x].
  - destruct (default ∅ (m s) !! key) as [c|]; intros [= <-]; simpl.
    + exists key, Enter, (Wait c). split_and!; try done. simpl; lia.
    + exists key, Enter, (CallFn (length (calls s))).
      split_and!; try done; [simpl; lia|]. intros c cl Hc. exists cl.
      split; [|done]. by apply lookup_app_l_Some.
  - destruct (calls s !! c) as [cl|]; [|done].
    case_decide; intros [= <-]; simpl.
    exists key, (Wait c), (Return c). split_and!; try done. simpl; lia.
  - destruct (fn key (length (log s))) as [r|]; [|done].
    intros [= <-]; simpl. exists key, (CallFn c), (WgDone c).
    split_and!; try done; [simpl; lia|]. intros c' cl Hc.
    rewrite list_lookup_alter. case_decide; subst; rewrite Hc; by eauto.
  - intros [= <-]; simpl. exists key, (WgDone c), (Forget c).
    split_and!; try done; [simpl; lia|]. intros c' cl Hc.
    rewrite list_lookup_alter. case_decide; subst; rewrite Hc; simpl.
    + eexists. split; [done|]. simpl. lia.
    + by eauto.
  - intros [= <-]; simpl. exists key, (Forget c), (Return c).
    split_and!; try done. simpl; lia.
  - intros [= <-]; simpl.
    exists key, (Return c), (Returned c (calls s !! c ≫= val)).
    split_and!; try done. simpl; lia.
  - done.
Qed.

(** The steps of [Do], one by one. *)
Lemma step_cases s t s' :
  step fn t s = Some s' →
  ∃ key p p',
    threads s !! t = Some (key, p)
    ∧ threads s' = <[t := (key, p')]> (threads s)
    ∧ ((p = Enter
        ∧ ∃ c, default ∅ (m s) !! key = Some c ∧ p' = Wait c
               ∧ m s' = Some (default ∅ (m s))
               ∧ calls s' = calls s ∧ log s' = log s)
       ∨ (p = Enter ∧ default ∅ (m s) !! key = None
          ∧ p' = CallFn (length (calls s))
          ∧ m s' = Some (<[key := length (calls s)]> (default ∅ (m s)))
          ∧ calls s' = calls s ++ [mkCall 1 None] ∧ log s' = log s)
       ∨ (∃ c cl, p = Wait c ∧ p' = Return c
                  ∧ calls s !! c = Some cl ∧ wg cl = 0%nat
                  ∧ m s' = m s ∧ calls s' = calls s ∧ log s' = log s)
       ∨ (∃ c r, p = CallFn c ∧ p' = WgDone c
                 ∧ fn key (length (log s)) = Some r
                 ∧ m s' = m s ∧ calls s' = alter (set_val r) c (calls s)
                 ∧ log s' = log s ++ [mkInvocation t c r])
       ∨ (∃ c, p = WgDone c ∧ p' = Forget c
               ∧ m s' = m s ∧ calls s' = alter wg_Done c (calls s)
               ∧ log s' = log s)
       ∨ (∃ c, p = Forget c ∧ p' = Return c
               ∧ m s' = delete key <$> m s
               ∧ calls s' = calls s ∧ log s' = log s)
       ∨ (∃ c, p = Return c ∧ p' = Returned c (calls s !! c ≫= val)
               ∧ m s' = m s ∧ calls s' = calls s ∧ log s' = log s)).
Proof.
  unfold step. destruct (threads s !! t) as [[key p]|] eqn:Et; [|done].
  destruct p as [|c|c|c|c|c|c x].
  - destruct (default ∅ (m s) !! key) as [c|] eqn:E; intros [= <-]; simpl.
    + exists key, Enter, (Wait c). split_and!; try done. left.
      split; [done|]. by exists c.
    + exists key, Enter, (CallFn (length (calls s))). split_and!; try done.
      right; left. done.
  - destruct (calls s !! c) as [cl|] eqn:Ec; [|done].
    case_decide; intros [= <-]; simpl.
    exists key, (Wait c), (Return c). split_and!; try done.
    do 2 right; left. by exists c, cl.
  - destruct (fn key (length (log s))) as [r|] eqn:Er; [|done].
    intros [= <-]; simpl. exists key, (CallFn c), (WgDone c).
    split_and!; try done. do 3 right; left. by exists c, r.
  - intros [= <-]; simpl. exists key, (WgDone c), (Forget c).
    split_and!; try done. do 4 right; left. by exists c.
  - intros [= <-]; simpl. exists key, (Forget c), (Return c).
    split_and!; try done. do 5 right; left. by exists c.
  - intros [= <-]; simpl.
    exists key, (Return c), (Returned c (calls s !! c ≫= val)).
    split_and!; try done. do 6 right. by exists c.
  - done.
Qed.

Lemma init_own keys : do_own (init (R:=R) keys).
Proof.
  split; simpl.
  - intros t k p c Ht.
    apply list_lookup_fmap_Some in Ht as (? & [= _ ->] & ?). by intros [|[|]].
  - intros t1 t2 k1 k2 p1 p2 c Ht.
    apply list_lookup_fmap_Some in Ht as (? & [= _ ->] & ?).
    by intros _ [|[|]].
Qed.

Lemma do_step_own s t s' :
  do_live s → do_own s → step fn t s = Some s' → do_own s'.
Proof.
  intros [Ha _ _ _ _] [Ho Hu] Hs.
  destruct (step_cases _ _ _ Hs) as (key & p & p' & Et & Hth & Hc).
  assert (t < length (threads s))%nat as Hlt by by eapply lookup_lt_Some.
  assert (∀ k0 c0, owns p' c0 → k0 = key →
            default ∅ (m s') !! k0 = Some c0) as Hself.
  { intros k0 c0 Hp' ->.
    destruct Hc as [(-> & c & Hk & -> & Hm' & _)
                   |[(-> & Hk & -> & Hm' & Hcs & _)
                   |[(c & cl & -> & -> & _ & _ & Hm' & _)
                   |[(c & r & -> & -> & _ & Hm' & _)
                   |[(c & -> & -> & Hm' & _)
                   |[(c & -> & -> & Hm' & _)
                   |(c & -> & -> & Hm' & _)]]]]]];
      try (by destruct Hp' as [|[|]]).
    - rewrite Hm'. simpl. destruct Hp' as [[= <-]|[|]]; try done.
      by rewrite lookup_insert_eq.
    - rewrite Hm'. destruct Hp' as [|[[= <-]|]]; try done.
      eapply Ho; [done | by left].
    - rewrite Hm'. destruct Hp' as [|[|[= <-]]]; try done.
      eapply Ho; [done | by right; left]. }
  assert (∀ t0 k0 p0 c0, t0 ≠ t → threads s !! t0 = Some (k0, p0) →
            owns p0 c0 → default ∅ (m s') !! k0 = Some c0) as Hother.
  { intros t0 k0 p0 c0 Hne Ht0 Hp0. pose proof (Ho _ _ _ _ Ht0 Hp0) as Hk0.
    destruct Hc as [(-> & c & Hk & -> & Hm' & _)
                   |[(-> & Hk & -> & Hm' & Hcs & _)
                   |[(c & cl & -> & -> & _ & _ & Hm' & _)
                   |[(c & r & -> & -> & _ & Hm' & _)
                   |[(c & -> & -> & Hm' & _)
                   |[(c & -> & -> & Hm' & _)
                   |(c & -> & -> & Hm' & _)]]]]]];
      rewrite Hm'; try done.
    - simpl. rewrite lookup_insert_ne; [done|]. intros <-. congruence.
    - destruct (m s) as [mm|]; [|done]. simpl in *.
      rewrite lookup_delete_ne; [done|]. intros <-.
      pose proof (Ho _ _ _ _ Et (or_intror (or_intror eq_refl))) as Hk.
      simpl in Hk. rewrite Hk0 in Hk. injection Hk as ->.
      apply Hne. symmetry.
      eapply (Hu t t0); [done | done | by right; right | done]. }
  assert (∀ t0 k0 p0 c0, t0 ≠ t → threads s !! t0 = Some (k0, p0) →
            owns p0 c0 → owns p' c0 → False) as Hfresh.
  { intros t0 k0 p0 c0 Hne Ht0 Hp0 Hp'.
    destruct Hc as [(-> & c & Hk & -> & Hm' & _)
                   |[(-> & Hk & -> & Hm' & Hcs & _)
                   |[(c & cl & -> & -> & _ & _ & Hm' & _)
                   |[(c & r & -> & -> & _ & Hm' & _)
                   |[(c & -> & -> & Hm' & _)
                   |[(c & -> & -> & Hm' & _)
                   |(c & -> & -> & Hm' & _)]]]]]];
      try (by destruct Hp' as [|[|]]).
    - destruct Hp' as [[= <-]|[|]]; try done.
      assert (pc_call p0 = Some (length (calls s))) as Hpc
        by by destruct Hp0 as [-> | [-> | ->]].
      specialize (Ha _ _ _ _ Ht0 Hpc). lia.
    - destruct Hp' as [|[[= <-]|]]; try done. apply Hne. symmetry.
      eapply (Hu t t0); [done | done | by left | done].
    - destruct Hp' as [|[|[= <-]]]; try done. apply Hne. symmetry.
      eapply (Hu t t0); [done | done | by right; left | done]. }
  split.
  - intros t0 k0 p0 c0 Ht0 Hp0. rewrite Hth in Ht0. thread_at Ht0.
    + by apply Hself.
    + by eapply Hother.
  - intros t1 t2 k1 k2 p1 p2 c0 Ht1 Ht2 Hp1 Hp2.
    rewrite Hth in Ht1, Ht2.
    destruct (decide (t1 = t)) as [->|Hne1];
      destruct (decide (t2 = t)) as [->|Hne2]; try done.
    + rewrite list_lookup_insert_eq in Ht1 by done.
      rewrite list_lookup_insert_ne in Ht2 by done. simplify_eq.
      by destruct (Hfresh _ _ _ _ Hne2 Ht2 Hp2 Hp1).
    + rewrite list_lookup_insert_eq in Ht2 by done.
      rewrite list_lookup_insert_ne in Ht1 by done. simplify_eq.
      by destruct (Hfresh _ _ _ _ Hne1 Ht1 Hp1 Hp2).
    + rewrite list_lookup_insert_ne in Ht1, Ht2 by done. by eapply Hu.
Qed.

Lemma do_exec_own s t : do_live s → do_own s → do_own (exec fn s t).
Proof.
  intros Hl Hs. unfold exec.
  destruct (step fn t s) as [s'|] eqn:E; [|done]. by eapply do_step_own.
Qed.

Lemma do_run_own sched s :
  do_live s → do_own s → do_own (run fn sched s).
Proof.
  unfold run. revert s.
  induction sched as [|t sched IH]; intros s Hl Hs; simpl; [done|].
  apply IH; [by apply do_exec_live | by apply do_exec_own].
Qed.

Lemma exec_threads_length s t :
  length (threads (exec fn s t)) = length (threads s).
Proof.
  unfold exec. destruct (step fn t s) as [s'|] eqn:E; [|done]. simpl.
  destruct (step_shape _ _ _ E) as (key & p & p' & _ & -> & _).
  by rewrite length_insert.
Qed.

Lemma exec_keys s t : (threads (exec fn s t)).*1 = (threads s).*1.
Proof.
  unfold exec. destruct (step fn t s) as [s'|] eqn:E; [|done]. simpl.
  destruct (step_shape _ _ _ E) as (key & p & p' & Et & -> & _).
  rewrite list_fmap_insert. simpl. apply list_insert_id.
  by rewrite list_lookup_fmap, Et.
Qed.

Lemma run_threads_length sched s :
  length (threads (run fn sched s)) = length (threads s).
Proof.
  unfold run. revert s. induction sched as [|t sched IH]; intros s; simpl;
    [done|]. by rewrite IH, exec_threads_length.
Qed.

Lemma run_keys sched keys : (threads (run fn sched (init keys))).*1 = keys.
Proof.
  assert (∀ s, (threads (run fn sched s)).*1 = (threads s).*1) as Hgen.
  { unfold run. induction sched as [|t sched' IH]; intros s; simpl; [done|].
    by rewrite IH, exec_keys. }
  rewrite Hgen. simpl. rewrite <- list_fmap_compose.
  by rewrite list_fmap_id.
Qed.

Lemma run_thread_key sched keys t k p :
  threads (run fn sched (init keys)) !! t = Some (k, p) → keys !! t = Some k.
Proof.
  intros Ht. rewrite <- (run_keys sched keys), list_lookup_fmap, Ht. done.
Qed.

(** When every run of [fn] returns, a caller that has not returned can
    move, or the caller it waits for can. *)
Lemma do_progress s t k p :
  fn_returns fn →
  do_live s → threads s !! t = Some (k, p) → steps_left p ≠ 0%nat →
  ∃ t', is_Some (step fn t' s).
Proof.
  intros Hfn [Ha Hw _ _ _] Et Hp.
  destruct p as [|c|c|c|c|c|c x]; try (exists t; unfold step; rewrite Et; by eauto).
  - exists t. unfold step. rewrite Et.
    destruct (default ∅ (m s) !! k); by eauto.
  - destruct (lookup_lt_is_Some_2 (calls s) c) as [cl Hc]; [by eapply Ha|].
    destruct (Hw c cl Hc) as [Hz|[_ (t' & k' & p' & Ht' & Hp')]].
    + exists t. unfold step. rewrite Et, Hc. rewrite decide_True by done.
      by eauto.
    + exists t'. unfold step. rewrite Ht'. destruct Hp' as [->| ->]; [|by eauto].
      destruct (Hfn k' (length (log s))) as [r ->]. by eauto.
  - exists t. unfold step. rewrite Et.
    destruct (Hfn k (length (log s))) as [r ->]. by eauto.
Qed.

(** A caller that can move can still move after another caller's step. *)
Lemma enabled_stable s t t' :
  fn_returns fn →
  t' ≠ t → is_Some (step fn t s) → is_Some (step fn t (exec fn s t')).
Proof.
  intros Hfn Hne Hen. unfold exec.
  destruct (step fn t' s) as [s'|] eqn:E; [|done]. simpl.
  destruct (step_shape _ _ _ E) as (key & p & p' & Et' & Hth & _ & Hcalls).
  revert Hen. unfold step. rewrite Hth, list_lookup_insert_ne by done.
  destruct (threads s !! t) as [[k0 p0]|]; [|done].
  destruct p0 as [|c|c|c|c|c|c x]; try by eauto.
  - intros _. destruct (default ∅ (m s') !! k0); by eauto.
  - destruct (calls s !! c) as [cl|] eqn:Ec; [|by intros [? [=]]].
    case_decide as Hz; [|by intros [? [=]]]. intros _.
    destruct (Hcalls c cl Ec) as (cl' & -> & Hle).
    rewrite decide_True by lia. by eauto.
  - intros _. destruct (Hfn k0 (length (log s'))) as [r ->]. by eauto.
Qed.

Lemma returned_iff_no_steps_left s t k p :
  threads s !! t = Some (k, p) →
  steps_left p = 0%nat → ∃ c x, p = Returned c x ∧ returned s t = Some (c, x).
Proof.
  intros Et Hp. destruct p as [|c|c|c|c|c|c x]; try done.
  exists c, x. split; [done|]. unfold returned. by rewrite Et.
Qed.

Lemma run_app sched1 sched2 s :
  run fn (sched1 ++ sched2) s = run fn sched2 (run fn sched1 s).
Proof. unfold run. by rewrite fold_left_app. Qed.

(** A step of another caller leaves a caller where it is. *)
Lemma exec_other s t t' :
  t' ≠ t → threads (exec fn s t') !! t = threads s !! t.
Proof.
  intros Hne. unfold exec. destruct (step fn t' s) as [s'|] eqn:E; [|done].
  simpl. destruct (step_shape _ _ _ E) as (? & ? & ? & _ & -> & _).
  by rewrite list_lookup_insert_ne.
Qed.

(** While the caller that installed [c] is in [fn], the counter of [c.wg]
    is not zero: a caller at [c.wg.Wait()] cannot move. *)
Lemma waiter_blocked s t t' k k' c :
  do_inv fn s → threads s !! t = Some (k, CallFn c) →
  threads s !! t' = Some (k', Wait c) → step fn t' s = None.
Proof.
  intros [H1 _ _ _ _ H5 _ _ _] Et Et'. unfold step. rewrite Et'.
  destruct (calls s !! c) as [cl|] eqn:Ec; [|done].
  case_decide as Hz; [|done].
  destruct (H1 _ _ _ Et) as [_ Hv].
  destruct (H5 c) as [r Hr]; [by rewrite Ec; simpl; f_equal|]. congruence.
Qed.

(** A run of [fn] that does not return: the caller stays in it, and so do
    the callers that wait for it. *)
Lemma lost_run_blocks sched s t k c :
  do_inv fn s → threads s !! t = Some (k, CallFn c) →
  (∀ n, fn k n = None) →
  threads (run fn sched s) !! t = Some (k, CallFn c)
  ∧ ∀ t' k', threads s !! t' = Some (k', Wait c) →
             threads (run fn sched s) !! t' = Some (k', Wait c).
Proof.
  intros Hinv Et Hfn. revert s Hinv Et. unfold run.
  induction sched as [|t0 sched IH]; intros s Hinv Et; simpl; [done|].
  assert (threads (exec fn s t0) !! t = Some (k, CallFn c)) as Et1.
  { destruct (decide (t0 = t)) as [->|Hne]; [|by rewrite exec_other].
    unfold exec, step. by rewrite Et, Hfn. }
  destruct (IH _ (do_exec_inv fn _ t0 Hinv) Et1) as [IH1 IH2].
  split; [done|]. intros t' k' Et'. apply IH2.
  destruct (decide (t0 = t')) as [->|Hne]; [|by rewrite exec_other].
  unfold exec. by rewrite (waiter_blocked s t t' k k' c).
Qed.

(** X9.  [Do] deadlocks only on a run of [fn] that does not return.
    Provided every run of [fn] returns, in every state that callers of
    [Do] reach under any schedule either every caller has returned or some
    caller can take its next step.  A caller blocked in [c.wg.Wait()]
    waits for another caller of its key, the one that installed [c]: that
    one is at [c.wg.Done()] and can move, or it is in [fn] and moves when
    that run of [fn] returns.  [Do] does not protect itself from a run of
    [fn] that does not return ([fn] panics, ends the goroutine or blocks):
    [c.wg.Done()] and [delete(g.m, key)] are not deferred, so when no run
    of [fn] for the key returns, the caller in [fn] stays there, the key
    keeps its entry in the map, the callers waiting on [c] never return,
    and a caller of the key that enters becomes one of them. *)
Theorem X9_Do_deadlocks_only_on_a_lost_run
    (keys : list string) (sched : list nat) :
  (fn_returns fn →
   (∀ t, (t < length keys)%nat →
         is_Some (returned (run fn sched (init keys)) t))
   ∨ (∃ t, (t < length keys)%nat
           ∧ is_Some (step fn t (run fn sched (init keys)))))
  ∧ (∀ t k c,
       threads (run fn sched (init keys)) !! t = Some (k, Wait c) →
       step fn t (run fn sched (init keys)) = None →
       ∃ t', t' ≠ t
         ∧ ((threads (run fn sched (init keys)) !! t' = Some (k, WgDone c)
             ∧ is_Some (step fn t' (run fn sched (init keys))))
            ∨ (threads (run fn sched (init keys)) !! t' = Some (k, CallFn c)
               ∧ (is_Some (step fn t' (run fn sched (init keys)))
                  ↔ is_Some
                      (fn k (length (log (run fn sched (init keys)))))))))
  ∧ (∀ t k c,
       threads (run fn sched (init keys)) !! t = Some (k, CallFn c) →
       (∀ n, fn k n = None) →
       default ∅ (m (run fn sched (init keys))) !! k = Some c
       ∧ (∀ after,
            threads (run fn (sched ++ after) (init keys)) !! t
            = Some (k, CallFn c))
       ∧ (∀ t' k' after,
            threads (run fn sched (init keys)) !! t' = Some (k', Wait c) →
            returned (run fn (sched ++ after) (init keys)) t' = None)
       ∧ (∀ t',
            threads (run fn sched (init keys)) !! t' = Some (k, Enter) →
            threads (run fn (sched ++ [t']) (init keys)) !! t'
            = Some (k, Wait c))).
Proof.
  pose proof (do_run_live sched _ (init_live keys)) as Hlive.
  pose proof (do_run_inv fn sched _ (init_inv fn keys)) as Hinv.
  pose proof (do_run_own sched _ (init_live keys) (init_own keys)) as Hown.
  pose proof (run_threads_length sched (init keys)) as Hlen.
  simpl in Hlen. rewrite length_fmap in Hlen.
  split_and!.
  - intros Hfn.
    destruct (Forall_Exists_dec
                (λ x : string * pc, steps_left x.2 = 0%nat)
                (λ x : string * pc, steps_left x.2 ≠ 0%nat)
                (λ x, match Nat.eq_dec (steps_left x.2) 0%nat with
                      | left e => left e | right n => right n end)
                (threads (run fn sched (init keys)))) as [Hall|Hex].
    + left. intros t Ht.
      destruct (lookup_lt_is_Some_2 (threads (run fn sched (init keys))) t)
        as [[k p] Et]; [lia|].
      rewrite Forall_lookup in Hall. specialize (Hall t _ Et).
      simpl in Hall.
      destruct (returned_iff_no_steps_left _ _ _ _ Et Hall)
        as (c & x & _ & ->).
      by eauto.
    + right. apply Exists_exists in Hex as ([k p] & Hin & Hp). simpl in Hp.
      apply list_elem_of_lookup in Hin as [t Et].
      destruct (do_progress _ _ _ _ Hfn Hlive Et Hp) as [t' Hen].
      exists t'. split; [|done]. destruct Hen as [s' Hs'].
      destruct (step_shape _ _ _ Hs') as (? & ? & ? & Et' & _).
      apply lookup_lt_Some in Et'. lia.
  - intros t k c Et Hblocked.
    destruct Hlive as [Ha Hw _ Hk _].
    destruct (lookup_lt_is_Some_2 (calls (run fn sched (init keys))) c)
      as [cl Hc]; [by eapply Ha|].
    destruct (Hw c cl Hc) as [Hz|[_ (t' & k' & p' & Et' & Hp')]].
    { revert Hblocked. unfold step. rewrite Et, Hc.
      by rewrite decide_True by done. }
    assert (k' = k) as ->.
    { eapply Hk; [exact Et' | exact Et | | done].
      by destruct Hp' as [-> | ->]. }
    exists t'. split; [intros ->; simplify_eq; by destruct Hp' as [|]|].
    destruct Hp' as [-> | ->]; [right | left]; (split; [done|]).
    + unfold step. rewrite Et'.
      destruct (fn k (length (log (run fn sched (init keys))))); [|done].
      split; by eauto.
    + unfold step. rewrite Et'. by eauto.
  - intros t k c Et Hfn. split_and!.
    + destruct Hown as [Ho _]. eapply Ho; [done | by left].
    + intros after. rewrite run_app.
      by apply (lost_run_blocks after _ t k c Hinv Et Hfn).
    + intros t' k' after Et'. rewrite run_app.
      destruct (lost_run_blocks after _ t k c Hinv Et Hfn) as [_ Hw].
      unfold returned. by rewrite (Hw _ _ Et').
    + intros t' Et'. rewrite run_app.
      destruct Hown as [Ho _].
      pose proof (Ho _ _ _ _ Et (or_introl eq_refl)) as Hk.
      set (s := run fn sched (init keys)) in *.
      change (run fn [t'] s) with (exec fn s t').
      unfold exec, step. rewrite Et', Hk.
      simpl. apply list_lookup_insert_eq. by eapply lookup_lt_Some.
Qed.

Lemma sum_list_with_insert {A} (f : A → nat) (l : list A) i x y :
  l !! i = Some x →
  (sum_list_with f (<[i := y]> l) + f x = sum_list_with f l + f y)%nat.
Proof.
  revert i. induction l as [|a l IH]; intros [|i]; simpl; try done.
  - intros [= ->]. lia.
  - intros Hi. specialize (IH i Hi). lia.
Qed.

Lemma sum_list_with_pos {A} (f : A → nat) (l : list A) :
  sum_list_with f l ≠ 0%nat → ∃ i x, l !! i = Some x ∧ f x ≠ 0%nat.
Proof.
  induction l as [|a l IH]; simpl; [done|]. intros Hs.
  destruct (decide (f a = 0%nat)) as [Ha|Ha].
  - destruct IH as (i & x & Hi & Hx); [lia|]. by exists (S i), x.
  - by exists 0%nat, a.
Qed.

Lemma sum_list_with_0 {A} (f : A → nat) (l : list A) i x :
  sum_list_with f l = 0%nat → l !! i = Some x → f x = 0%nat.
Proof.
  revert i. induction l as [|a l IH]; intros [|i]; simpl; try done.
  - intros Hs [= ->]. lia.
  - intros Hs Hi. apply (IH i); [lia | done].
Qed.

Lemma work_step s t s' : step fn t s = Some s' → (work s' < work s)%nat.
Proof.
  intros Hs. destruct (step_shape _ _ _ Hs) as (key & p & p' & Et & Hth & Hlt & _).
  unfold work. rewrite Hth.
  pose proof (sum_list_with_insert (λ x : string * pc, steps_left x.2)
                (threads s) t (key, p) (key, p') Et) as Hsum.
  simpl in Hsum. lia.
Qed.

Lemma work_exec s t : (work (exec fn s t) ≤ work s)%nat.
Proof.
  unfold exec. destruct (step fn t s) as [s'|] eqn:E; simpl; [|lia].
  pose proof (work_step _ _ _ E). lia.
Qed.

Lemma work_run sched s : (work (run fn sched s) ≤ work s)%nat.
Proof.
  unfold run. revert s. induction sched as [|t sched IH]; intros s; simpl;
    [lia|]. pose proof (IH (exec fn s t)). pose proof (work_exec s t). lia.
Qed.

(** A round in which a caller that can move is scheduled makes
    progress. *)
Lemma round_works s r t :
  fn_returns fn →
  is_Some (step fn t s) → t ∈ r → (work (run fn r s) < work s)%nat.
Proof.
  intros Hfn. revert s. induction r as [|t' r IH]; intros s Hen Hin.
  - by apply elem_of_nil in Hin.
  - change (run fn (t' :: r) s) with (run fn r (exec fn s t')).
    destruct (decide (t' = t)) as [->|Hne].
    + destruct Hen as [s' Hs']. unfold exec. rewrite Hs'. simpl.
      pose proof (work_step _ _ _ Hs'). pose proof (work_run r s'). lia.
    + apply elem_of_cons in Hin as [->|Hin]; [done|].
      pose proof (IH (exec fn s t') (enabled_stable s t t' Hfn Hne Hen) Hin).
      pose proof (work_exec s t'). lia.
Qed.

Lemma fair_rounds n rounds s :
  fn_returns fn →
  do_live s → length (threads s) = n →
  Forall (λ r, ∀ t, (t < n)%nat → t ∈ r) rounds →
  (work (run fn (concat rounds) s) + length rounds ≤ work s)%nat
  ∨ work (run fn (concat rounds) s) = 0%nat.
Proof.
  intros Hfn Hlive Hn Hfair. revert s Hlive Hn.
  induction Hfair as [|r rounds Hr Hfair IH]; intros s Hlive Hn; simpl.
  - left. unfold run. simpl. lia.
  - rewrite run_app.
    destruct (IH (run fn r s)) as [Hle|Hz];
      [by apply do_run_live | by rewrite run_threads_length | | by right].
    destruct (decide (work s = 0%nat)) as [Hw|Hw].
    + right. pose proof (work_run r s).
      pose proof (work_run (concat rounds) (run fn r s)). lia.
    + left. destruct (sum_list_with_pos _ _ Hw) as (t0 & [k p] & Et0 & Hp).
      destruct (do_progress _ _ _ _ Hfn Hlive Et0 Hp) as [t Hen].
      assert (t < n)%nat as Ht.
      { destruct Hen as [s' Hs'].
        destruct (step_shape _ _ _ Hs') as (? & ? & ? & Et & _).
        apply lookup_lt_Some in Et. lia. }
      pose proof (round_works s r t Hfn Hen (Hr t Ht)). lia.
Qed.

Lemma work_init keys : work (init (R:=R) keys) = (5 * length keys)%nat.
Proof.
  unfold work, init. cbn [threads].
  induction keys as [|k keys IH]; [done|].
  rewrite fmap_cons. cbn [sum_list_with length snd steps_left].
  rewrite IH. lia.
Qed.

(** X10.  Provided every run of [fn] returns, under a fair schedule every
    caller of [Do] returns, with the pair some run of [fn] returned.  A
    schedule is taken in rounds, each of which gives every caller at least
    one turn, in any order and with any repetitions; the turn of a caller
    that is in [fn] is the return of that run.  After [5 n] rounds, for
    [n] callers, every caller has returned. *)
Theorem X10_every_caller_returns_under_a_fair_schedule
    (keys : list string) (rounds : list (list nat)) :
  fn_returns fn →
  (5 * length keys ≤ length rounds)%nat →
  Forall (λ r, ∀ t, (t < length keys)%nat → t ∈ r) rounds →
  ∀ t, (t < length keys)%nat →
    ∃ c r leader,
      returned (run fn (concat rounds) (init keys)) t = Some (c, Some r)
      ∧ mkInvocation leader c r ∈ log (run fn (concat rounds) (init keys)).
Proof.
  intros Hfn Hlen Hfair t Ht.
  pose proof (do_run_inv fn (concat rounds) _ (init_inv fn keys))
    as [_ _ _ _ Hval _ _ Hret _].
  assert (length (threads (init (R:=R) keys)) = length keys) as Hn
    by (simpl; by rewrite length_fmap).
  assert (work (run fn (concat rounds) (init keys)) = 0%nat) as Hz.
  { destruct (fair_rounds (length keys) rounds (init keys) Hfn
                (init_live keys) Hn Hfair) as [Hle|Hz]; [|done].
    rewrite work_init in Hle. lia. }
  destruct (lookup_lt_is_Some_2
              (threads (run fn (concat rounds) (init keys))) t)
    as [[k p] Et]; [rewrite run_threads_length; lia|].
  pose proof (sum_list_with_0 _ _ _ _ Hz Et) as Hp. simpl in Hp.
  destruct (returned_iff_no_steps_left _ _ _ _ Et Hp) as (c & x & -> & Hr).
  destruct (Hret _ _ _ _ Et) as (r & -> & Hv).
  destruct (Hval _ _ Hv) as [leader Hin].
  by exists c, r, leader.
Qed.

(** X11.  A caller of [Do] receives a pair that [fn] returned for its own
    key: the run of [fn] whose result it returns was made by a caller of
    the same key, so callers of different keys never share a call
    record. *)
Theorem X11_result_comes_from_a_run_for_the_same_key
    (keys : list string) (sched : list nat) t c x :
  returned (run fn sched (init keys)) t = Some (c, x) →
  ∃ key r leader n,
    keys !! t = Some key
    ∧ keys !! leader = Some key
    ∧ x = Some r
    ∧ log (run fn sched (init keys)) !! n = Some (mkInvocation leader c r)
    ∧ fn key n = Some r.
Proof.
  intros Hr.
  pose proof (do_run_inv fn sched _ (init_inv fn keys))
    as [_ _ _ _ Hval _ _ Hret Hfn].
  pose proof (do_run_live sched _ (init_live keys)) as [_ _ _ Hkey Hlog].
  unfold returned in Hr.
  destruct (threads (run fn sched (init keys)) !! t)
    as [[key [| | | | | |c' x']]|] eqn:Et; try done.
  injection Hr as -> ->.
  destruct (Hret _ _ _ _ Et) as (r & -> & Hv).
  destruct (Hval _ _ Hv) as [leader Hin].
  pose proof Hin as Hin'. apply list_elem_of_lookup in Hin' as [n Hn].
  destruct (Hfn n _ Hn) as (k1 & p1 & Hl1 & Hres). simpl in Hl1, Hres.
  destruct (Hlog _ Hin) as (k2 & p2 & Hl2 & Hp2). simpl in Hl2, Hp2.
  simplify_eq.
  assert (k1 = key) as -> by (eapply Hkey; [exact Hl1 | exact Et | done | done]).
  exists key, r, leader, n. split_and!; try done.
  - by eapply run_thread_key.
  - by eapply run_thread_key.
Qed.

(** X12.  The map holds calls in flight only.  In every reachable state an
    entry [key ↦ c] of [g.m] belongs to a caller of that key that has
    installed [c] and not yet deleted the key; so once every caller has
    returned the map is empty: [Do] leaves nothing behind. *)
Theorem X12_map_holds_calls_in_flight_only
    (keys : list string) (sched : list nat) :
  (∀ mm k c, m (run fn sched (init keys)) = Some mm → mm !! k = Some c →
     ∃ t p, keys !! t = Some k
            ∧ threads (run fn sched (init keys)) !! t = Some (k, p)
            ∧ owns p c)
  ∧ ((∀ t, (t < length keys)%nat →
           is_Some (returned (run fn sched (init keys)) t)) →
     ∀ mm, m (run fn sched (init keys)) = Some mm → mm = ∅).
Proof.
  pose proof (do_run_live sched _ (init_live keys)) as [_ _ Hmap _ _].
  split.
  - intros mm k c Hmm Hk. destruct (Hmap mm k c Hmm Hk) as (t & p & Et & Hp).
    exists t, p. split_and!; try done. by eapply run_thread_key.
  - intros Hall mm Hmm. apply map_empty. intros k.
    destruct (mm !! k) as [c|] eqn:Hk; [|done].
    destruct (Hmap mm k c Hmm Hk) as (t & p & Et & Hp).
    destruct (Hall t) as [[c' x] Hr].
    { pose proof (lookup_lt_Some _ _ _ Et) as Hlt.
      rewrite run_threads_length in Hlt. simpl in Hlt.
      by rewrite length_fmap in Hlt. }
    unfold returned in Hr. rewrite Et in Hr.
    by destruct Hp as [-> | [-> | ->]].
Qed.

(** A call of [Do] that finds no entry for its key and runs without
    interruption, its run of [fn] returning [r]: it installs a record, runs
    [fn], and returns what [fn] returned. *)
Lemma solo_Do s t k r :
  threads s !! t = Some (k, Enter) → default ∅ (m s) !! k = None →
  fn k (length (log s)) = Some r →
  returned (run fn [t; t; t; t; t] s) t = Some (length (calls s), Some r)
  ∧ log (run fn [t; t; t; t; t] s)
    = log s ++ [mkInvocation t (length (calls s)) r]
  ∧ default ∅ (m (run fn [t; t; t; t; t] s)) !! k = None.
Proof.
  intros Et Hk Hr.
  assert (t < length (threads s))%nat as Hlt by by eapply lookup_lt_Some.
  unfold run. cbn [fold_left].
  set (c := length (calls s)).
  (* [Enter] *)
  assert (exec fn s t
          = {| m := Some (<[k := c]> (default ∅ (m s)));
               calls := calls s ++ [mkCall 1 None];
               threads := <[t := (k, CallFn c)]> (threads s);
               log := log s |}) as ->.
  { unfold exec, step. by rewrite Et, Hk. }
  (* [fn()] *)
  match goal with |- context [exec fn (exec fn (exec fn (exec fn ?s1 t) t) t) t] =>
    assert (exec fn s1 t
            = {| m := Some (<[k := c]> (default ∅ (m s)));
                 calls := alter (set_val r) c (calls s ++ [mkCall 1 None]);
                 threads := <[t := (k, WgDone c)]> (threads s);
                 log := log s ++ [mkInvocation t c r] |}) as ->
  end.
  { unfold exec, step. cbn [threads m calls log].
    rewrite list_lookup_insert_eq by done. rewrite Hr. cbn [default].
    by rewrite list_insert_insert_eq. }
  (* [wg.Done()] *)
  match goal with |- context [exec fn (exec fn (exec fn ?s2 t) t) t] =>
    assert (exec fn s2 t
            = {| m := Some (<[k := c]> (default ∅ (m s)));
                 calls := alter wg_Done c
                            (alter (set_val r) c
                               (calls s ++ [mkCall 1 None]));
                 threads := <[t := (k, Forget c)]> (threads s);
                 log := log s ++ [mkInvocation t c r] |}) as ->
  end.
  { unfold exec, step. cbn [threads m calls log].
    rewrite list_lookup_insert_eq by done. cbn [default].
    by rewrite list_insert_insert_eq. }
  (* [delete(g.m, key)] *)
  match goal with |- context [exec fn (exec fn ?s3 t) t] =>
    assert (exec fn s3 t
            = {| m := Some (delete k (<[k := c]> (default ∅ (m s))));
                 calls := alter wg_Done c
                            (alter (set_val r) c
                               (calls s ++ [mkCall 1 None]));
                 threads := <[t := (k, Return c)]> (threads s);
                 log := log s ++ [mkInvocation t c r] |}) as ->
  end.
  { unfold exec, step. cbn [threads m calls log].
    rewrite list_lookup_insert_eq by done. cbn [default fmap option_fmap option_map].
    by rewrite list_insert_insert_eq. }
  (* [return c.val, c.err] *)
  match goal with |- context [exec fn ?s4 t] =>
    assert (exec fn s4 t
            = {| m := Some (delete k (<[k := c]> (default ∅ (m s))));
                 calls := alter wg_Done c
                            (alter (set_val r) c
                               (calls s ++ [mkCall 1 None]));
                 threads := <[t := (k, Returned c (Some r))]> (threads s);
                 log := log s ++ [mkInvocation t c r] |}) as ->
  end.
  { unfold exec, step, set_pc. cbn [threads m calls log].
    rewrite list_lookup_insert_eq by done. cbn [default].
    rewrite list_insert_insert_eq.
    rewrite !list_lookup_alter, !decide_True by done.
    unfold c. by rewrite list_lookup_middle by done. }
  unfold returned. cbn [threads m calls log default].
  rewrite list_lookup_insert_eq by done.
  split_and!; try done. unfold id. by rewrite lookup_delete_eq.
Qed.

(** X13.  [Do] does not cache.  A call for [key] that starts when no
    caller of [key] is between installing its call record and deleting the
    key (in particular when the earlier callers of [key] have all
    returned), and that runs to its end, its run of [fn] returning [r],
    runs [fn] once more and returns the result of that run, not the one an
    earlier caller got. *)
Theorem X13_Do_does_not_cache (keys : list string) (sched : list nat) t k r :
  threads (run fn sched (init keys)) !! t = Some (k, Enter) →
  (∀ t' p c, threads (run fn sched (init keys)) !! t' = Some (k, p) →
             ¬ owns p c) →
  fn k (length (log (run fn sched (init keys)))) = Some r →
  returned (run fn (sched ++ [t; t; t; t; t]) (init keys)) t
    = Some (length (calls (run fn sched (init keys))), Some r)
  ∧ log (run fn (sched ++ [t; t; t; t; t]) (init keys))
    = log (run fn sched (init keys))
      ++ [mkInvocation t (length (calls (run fn sched (init keys)))) r].
Proof.
  intros Et Hfree Hr.
  pose proof (do_run_live sched _ (init_live keys)) as [_ _ Hmap _ _].
  assert (default ∅ (m (run fn sched (init keys))) !! k = None) as Hk.
  { destruct (default ∅ (m (run fn sched (init keys))) !! k) as [c|] eqn:E;
      [|done].
    pose proof (default_map_lookup _ _ _ E) as Hmm.
    destruct (Hmap _ _ _ Hmm E) as (t' & p & Et' & Hp).
    by destruct (Hfree t' p c Et'). }
  rewrite run_app.
  destruct (solo_Do _ t k r Et Hk Hr) as (Hret & Hl & _). by split.
Qed.

(** What a step adds to the log was run by the caller that took it. *)
Lemma exec_log s t0 :
  ∃ l, log (exec fn s t0) = log s ++ l ∧ ∀ i, i ∈ l → inv_caller i = t0.
Proof.
  unfold exec. destruct (step fn t0 s) as [s'|] eqn:E; simpl.
  - destruct (step_cases _ _ _ E) as (key & p & p' & Et & Hth & Hc).
    destruct Hc as [(_ & c & _ & _ & _ & _ & ->)
                   |[(_ & _ & _ & _ & _ & ->)
                   |[(c & cl & _ & _ & _ & _ & _ & _ & ->)
                   |[(c & r & _ & _ & _ & _ & _ & ->)
                   |[(c & _ & _ & _ & _ & ->)
                   |[(c & _ & _ & _ & _ & ->)
                   |(c & _ & _ & _ & _ & ->)]]]]]];
      try (exists []; rewrite app_nil_r; split; [done|];
           intros i Hi; by apply elem_of_nil in Hi).
    exists [mkInvocation t0 c r]. split; [done|].
    intros i Hi. by apply list_elem_of_singleton in Hi as ->.
  - exists []. rewrite app_nil_r. split; [done|].
    intros i Hi. by apply elem_of_nil in Hi.
Qed.

(** A caller that found [c] in the map keeps to [c] and never runs
    [fn]. *)
Lemma waiter_exec s t t0 key c p :
  threads s !! t = Some (key, p) → waits p c →
  (∀ i, i ∈ log s → inv_caller i ≠ t) →
  ∃ p', threads (exec fn s t0) !! t = Some (key, p') ∧ waits p' c
        ∧ ∀ i, i ∈ log (exec fn s t0) → inv_caller i ≠ t.
Proof.
  intros Et Hp Hlog. destruct (decide (t0 = t)) as [->|Hne].
  - unfold exec. destruct (step fn t s) as [s'|] eqn:E; simpl; [|by eauto].
    destruct (step_cases _ _ _ E) as (key' & p0 & p' & Et' & Hth & Hc).
    rewrite Et in Et'. injection Et' as <- <-.
    assert (t < length (threads s))%nat as Hlt by by eapply lookup_lt_Some.
    exists p'. rewrite Hth, list_lookup_insert_eq by done.
    split; [done|].
    destruct Hc as [(-> & _)
                   |[(-> & _)
                   |[(c1 & cl & -> & -> & _ & _ & _ & _ & ->)
                   |[(c1 & r & -> & _)
                   |[(c1 & -> & _)
                   |[(c1 & -> & _)
                   |(c1 & -> & -> & _ & _ & ->)]]]]]];
      try (by destruct Hp as [|[|[? ?]]]).
    + split; [|done]. destruct Hp as [[= ->]|[|[? ?]]]; try done.
      by right; left.
    + split; [|done]. destruct Hp as [|[[= ->]|[? ?]]]; try done.
      right; right. by eauto.
  - exists p. rewrite exec_other by done. split_and!; try done.
    destruct (exec_log s t0) as (l & -> & Hl). intros i Hi.
    apply elem_of_app in Hi as [Hi|Hi]; [by apply Hlog|].
    rewrite (Hl i Hi). done.
Qed.

Lemma waiter_run sched s t key c p :
  threads s !! t = Some (key, p) → waits p c →
  (∀ i, i ∈ log s → inv_caller i ≠ t) →
  ∃ p', threads (run fn sched s) !! t = Some (key, p') ∧ waits p' c
        ∧ ∀ i, i ∈ log (run fn sched s) → inv_caller i ≠ t.
Proof.
  unfold run. revert s p.
  induction sched as [|t0 sched IH]; intros s p Et Hp Hlog; simpl;
    [by eauto|].
  destruct (waiter_exec s t t0 key c p Et Hp Hlog) as (p1 & Et1 & Hp1 & Hl1).
  by eapply IH.
Qed.

(** A caller that installed [c] keeps to [c], and once it is past [fn()]
    the log holds its run of [fn] for [c]. *)
Lemma installer_exec s t t0 key c n0 p :
  threads s !! t = Some (key, p) → (n0 ≤ length (log s))%nat →
  (p = CallFn c
   ∨ (past_fn p c
      ∧ ∃ n r, (n0 ≤ n)%nat ∧ log s !! n = Some (mkInvocation t c r)
               ∧ fn key n = Some r)) →
  ∃ p', threads (exec fn s t0) !! t = Some (key, p')
        ∧ (n0 ≤ length (log (exec fn s t0)))%nat
        ∧ (p' = CallFn c
           ∨ (past_fn p' c
              ∧ ∃ n r, (n0 ≤ n)%nat
                       ∧ log (exec fn s t0) !! n = Some (mkInvocation t c r)
                       ∧ fn key n = Some r)).
Proof.
  intros Et Hn0 Hp. destruct (decide (t0 = t)) as [->|Hne].
  - unfold exec. destruct (step fn t s) as [s'|] eqn:E; simpl; [|by eauto].
    destruct (step_cases _ _ _ E) as (key' & p0 & p' & Et' & Hth & Hc).
    rewrite Et in Et'. injection Et' as <- <-.
    assert (t < length (threads s))%nat as Hlt by by eapply lookup_lt_Some.
    exists p'. rewrite Hth, list_lookup_insert_eq by done.
    split; [done|].
    destruct Hc as [(-> & _)
                   |[(-> & _)
                   |[(c1 & cl & -> & _)
                   |[(c1 & r & -> & -> & Hr & _ & _ & ->)
                   |[(c1 & -> & -> & _ & _ & ->)
                   |[(c1 & -> & -> & _ & _ & ->)
                   |(c1 & -> & -> & _ & _ & ->)]]]]]].
    + by destruct Hp as [|[[|[|[|[? ?]]]] _]].
    + by destruct Hp as [|[[|[|[|[? ?]]]] _]].
    + by destruct Hp as [|[[|[|[|[? ?]]]] _]].
    + assert (c1 = c) as ->.
      { by destruct Hp as [[= ->]|[[|[|[|[? ?]]]] _]]. }
      rewrite length_app. split; [lia|]. right. split; [by left|].
      exists (length (log s)), r. split_and!; try done.
      by rewrite list_lookup_middle.
    + split; [done|]. right.
      destruct Hp as [|[[[= ->]|[|[|[? ?]]]] Hrun]]; try done.
      split; [by right; left | done].
    + split; [done|]. right.
      destruct Hp as [|[[|[[= ->]|[|[? ?]]]] Hrun]]; try done.
      split; [by right; right; left | done].
    + split; [done|]. right.
      destruct Hp as [|[[|[|[[= ->]|[? ?]]]] Hrun]]; try done.
      split; [right; right; right; by eauto | done].
  - exists p. rewrite exec_other by done.
    destruct (exec_log s t0) as (l & -> & _). rewrite length_app.
    split_and!; [done | lia |].
    destruct Hp as [?|[Hp (n & r & Hn & Hl & Hr)]]; [by left|].
    right. split; [done|]. exists n, r. split_and!; try done.
    by apply lookup_app_l_Some.
Qed.

Lemma installer_run sched s t key c n0 p :
  threads s !! t = Some (key, p) → (n0 ≤ length (log s))%nat →
  (p = CallFn c
   ∨ (past_fn p c
      ∧ ∃ n r, (n0 ≤ n)%nat ∧ log s !! n = Some (mkInvocation t c r)
               ∧ fn key n = Some r)) →
  ∃ p', threads (run fn sched s) !! t = Some (key, p')
        ∧ (p' = CallFn c
           ∨ (past_fn p' c
              ∧ ∃ n r, (n0 ≤ n)%nat
                       ∧ log (run fn sched s) !! n = Some (mkInvocation t c r)
                       ∧ fn key n = Some r)).
Proof.
  unfold run. revert s p.
  induction sched as [|t0 sched IH]; intros s p Et Hn0 Hp; simpl;
    [by eauto|].
  destruct (installer_exec s t t0 key c n0 p Et Hn0 Hp)
    as (p1 & Et1 & Hn1 & Hp1).
  by eapply IH.
Qed.

(** C2, amended.  In every state that callers of [Do] reach under any
    schedule: [fn] is run at most once for a call record (no two runs are
    for the same record), and every caller that returns from a call record,
    the one that installed it or one that found it registered in the map
    and waited, returns the pair [fn] returned in that run.  So the callers
    of one call record all receive the same pair.  The [n]-th run of [fn]
    recorded is the [n]-th invocation of the [fn] of its caller's key.

    Who shares a record is decided by the map.  A caller that enters
    between [g.m[key] = c] and [delete(g.m, key)] of another caller of the
    key finds [c] in the map: it allocates nothing, waits on [c], never
    runs [fn], and when it returns, it returns the pair of the run of [fn]
    made for [c] by another caller.  A caller that enters when no caller of
    its key is between these two statements (the map has no entry for the
    key: before any installation, or after the removal) installs a new
    record, and when it returns, it returns the pair of a run of [fn] that
    it made itself, for that record, after it entered. *)
Theorem C2_callers_of_a_call_share_one_run
    (keys : list string) (sched : list nat) :
  let s := run fn sched (init keys) in
  NoDup (inv_call <$> log s)
  ∧ (∀ t c x, returned s t = Some (c, x) →
       ∃ r leader, x = Some r ∧ mkInvocation leader c r ∈ log s)
  ∧ (∀ t1 t2 c x1 x2,
       returned s t1 = Some (c, x1) → returned s t2 = Some (c, x2) →
       x1 = x2)
  ∧ (∀ n i, log s !! n = Some i →
       ∃ k p, threads s !! inv_caller i = Some (k, p)
              ∧ fn k n = Some (inv_result i))
  ∧ (∀ t t0 key p0 c,
       threads s !! t = Some (key, Enter) →
       threads s !! t0 = Some (key, p0) → owns p0 c →
       default ∅ (m s) !! key = Some c
       ∧ threads (run fn (sched ++ [t]) (init keys)) !! t
         = Some (key, Wait c)
       ∧ calls (run fn (sched ++ [t]) (init keys)) = calls s
       ∧ ∀ after,
           (∀ i, i ∈ log (run fn (sched ++ t :: after) (init keys)) →
                 inv_caller i ≠ t)
           ∧ ∀ c' x,
               returned (run fn (sched ++ t :: after) (init keys)) t
               = Some (c', x) →
               c' = c
               ∧ ∃ r leader,
                   leader ≠ t ∧ x = Some r
                   ∧ mkInvocation leader c r
                     ∈ log (run fn (sched ++ t :: after) (init keys)))
  ∧ (∀ t key,
       threads s !! t = Some (key, Enter) →
       (∀ t' p c, threads s !! t' = Some (key, p) → ¬ owns p c) →
       default ∅ (m s) !! key = None
       ∧ threads (run fn (sched ++ [t]) (init keys)) !! t
         = Some (key, CallFn (length (calls s)))
       ∧ default ∅ (m (run fn (sched ++ [t]) (init keys))) !! key
         = Some (length (calls s))
       ∧ calls (run fn (sched ++ [t]) (init keys))
         = calls s ++ [mkCall 1 None]
       ∧ ∀ after c' x,
           returned (run fn (sched ++ t :: after) (init keys)) t
           = Some (c', x) →
           c' = length (calls s)
           ∧ ∃ n r,
               (length (log s) ≤ n)%nat
               ∧ log (run fn (sched ++ t :: after) (init keys)) !! n
                 = Some (mkInvocation t c' r)
               ∧ fn key n = Some r
               ∧ x = Some r).
Proof.
  intros s.
  pose proof (do_run_inv fn sched _ (init_inv fn keys))
    as [H1 H2 H3 H8 H4 H5 H6 H7 H9].
  pose proof (do_run_live sched _ (init_live keys)) as [Ha Hw Hmap Hk Hl].
  pose proof (do_run_own sched _ (init_live keys) (init_own keys))
    as [Ho Hu].
  fold s in H1, H2, H3, H8, H4, H5, H6, H7, H9, Ha, Hw, Hmap, Hk, Hl, Ho, Hu.
  assert (∀ s' t c x, do_inv fn s' → returned s' t = Some (c, x) →
            ∃ r, x = Some r ∧ val <$> calls s' !! c = Some (Some r)) as Hret.
  { intros s' t c x [_ _ _ _ _ _ _ H7' _]. unfold returned.
    destruct (threads s' !! t) as [[k [| | | | | |c' x']]|] eqn:Et; try done.
    intros [= -> ->]. by eapply H7'. }
  assert (do_inv fn s) as Hinv by (by split).
  split_and!.
  - done.
  - intros t c x Hr. destruct (Hret _ _ _ _ Hinv Hr) as (r & -> & Hv).
    destruct (H4 _ _ Hv) as [leader Hin]. by exists r, leader.
  - intros t1 t2 c x1 x2 Hr1 Hr2.
    destruct (Hret _ _ _ _ Hinv Hr1) as (r1 & -> & Hv1).
    destruct (Hret _ _ _ _ Hinv Hr2) as (r2 & -> & Hv2). congruence.
  - done.
  - intros t t0 key p0 c Et Et0 Hp0.
    pose proof (Ho _ _ _ _ Et0 Hp0) as Hkc.
    assert (t < length (threads s))%nat as Hlt by by eapply lookup_lt_Some.
    assert (exec fn s t
            = {| m := Some (default ∅ (m s)); calls := calls s;
                 threads := <[t := (key, Wait c)]> (threads s);
                 log := log s |}) as Hex.
    { unfold exec, step. by rewrite Et, Hkc. }
    split_and!.
    + done.
    + rewrite run_app. fold s. change (run fn [t] s) with (exec fn s t).
      rewrite Hex. simpl. by apply list_lookup_insert_eq.
    + rewrite run_app. fold s. change (run fn [t] s) with (exec fn s t).
      by rewrite Hex.
    + intros after.
      pose proof (do_run_inv fn (sched ++ t :: after) _ (init_inv fn keys))
        as Hinv'.
      rewrite run_app in *. fold s in Hinv' |- *.
      change (run fn (t :: after) s) with (run fn after (exec fn s t))
        in Hinv' |- *.
      destruct (waiter_run after (exec fn s t) t key c (Wait c))
        as (p' & Et' & Hp' & Hlog').
      { rewrite Hex. simpl. by apply list_lookup_insert_eq. }
      { by left. }
      { rewrite Hex. simpl. intros i Hi Hit.
        destruct (Hl i Hi) as (k1 & p1 & Ep1 & Hpc).
        rewrite Hit, Et in Ep1. by simplify_eq. }
      split; [done|]. intros c' x Hr.
      destruct (Hret _ _ _ _ Hinv' Hr) as (r & -> & Hv).
      assert (c' = c) as ->.
      { unfold returned in Hr. rewrite Et' in Hr.
        destruct Hp' as [->|[->|[x' ->]]]; by simplify_eq. }
      split; [done|].
      destruct Hinv' as [_ _ _ _ H4' _ _ _ _].
      destruct (H4' _ _ Hv) as [leader Hin]. exists r, leader.
      split_and!; try done. intros ->. by apply (Hlog' _ Hin).
  - intros t key Et Hfree.
    assert (default ∅ (m s) !! key = None) as Hkn.
    { destruct (default ∅ (m s) !! key) as [c|] eqn:E; [|done].
      pose proof (default_map_lookup _ _ _ E) as Hmm.
      destruct (Hmap _ _ _ Hmm E) as (t' & p & Et' & Hp).
      by destruct (Hfree t' p c Et'). }
    assert (t < length (threads s))%nat as Hlt by by eapply lookup_lt_Some.
    assert (exec fn s t
            = {| m := Some (<[key := length (calls s)]> (default ∅ (m s)));
                 calls := calls s ++ [mkCall 1 None];
                 threads := <[t := (key, CallFn (length (calls s)))]>
                              (threads s);
                 log := log s |}) as Hex.
    { unfold exec, step. by rewrite Et, Hkn. }
    split_and!.
    + done.
    + rewrite run_app. fold s. change (run fn [t] s) with (exec fn s t).
      rewrite Hex. simpl. by apply list_lookup_insert_eq.
    + rewrite run_app. fold s. change (run fn [t] s) with (exec fn s t).
      rewrite Hex. simpl. by rewrite lookup_insert_eq.
    + rewrite run_app. fold s. change (run fn [t] s) with (exec fn s t).
      by rewrite Hex.
    + intros after c' x Hr.
      pose proof (do_run_inv fn (sched ++ t :: after) _ (init_inv fn keys))
        as Hinv'.
      rewrite run_app in *. fold s in Hinv', Hr |- *.
      change (run fn (t :: after) s) with (run fn after (exec fn s t))
        in Hinv', Hr |- *.
      destruct (installer_run after (exec fn s t) t key (length (calls s))
                  (length (log s)) (CallFn (length (calls s))))
        as (p' & Et' & Hp').
      { rewrite Hex. simpl. by apply list_lookup_insert_eq. }
      { by rewrite Hex. }
      { by left. }
      destruct (Hret _ _ _ _ Hinv' Hr) as (r & -> & Hv).
      unfold returned in Hr. rewrite Et' in Hr.
      destruct Hp' as [->|[Hp' (n & r' & Hn & Hln & Hfn)]]; [done|].
      assert (c' = length (calls s)) as ->.
      { destruct Hp' as [->|[->|[->|[x' ->]]]]; by simplify_eq. }
      split; [done|]. exists n, r'. split_and!; try done.
      destruct Hinv' as [_ _ H3' _ H4' _ _ _ _].
      destruct (H4' _ _ Hv) as [leader Hin].
      apply list_elem_of_lookup in Hin as [n' Hn'].
      assert (n' = n) as ->.
      { eapply (NoDup_lookup _ _ _ _ H3');
          rewrite list_lookup_fmap; [by rewrite Hn' | by rewrite Hln]. }
      rewrite Hln in Hn'. by injection Hn' as -> ->.
Qed.

End Do_more.

(** Two callers of ["k"], the second one entering while the first runs
    [fn]: it finds the record of the first in the map and waits on it;
    one run, one result for both. *)
Lemma C2_witness :
  singleflight.returned
    (singleflight.run (λ _ n, Some n) [0; 1; 0; 0; 0; 0; 1; 1]%nat
       (singleflight.init ["k"; "k"])) 0%nat = Some (0%nat, Some 0%nat)
  ∧ singleflight.returned
      (singleflight.run (λ _ n, Some n) [0; 1; 0; 0; 0; 0; 1; 1]%nat
         (singleflight.init ["k"; "k"])) 1%nat = Some (0%nat, Some 0%nat)
  ∧ Some 0%nat = Some 0%nat
  ∧ singleflight.threads
      (singleflight.run (λ _ n, Some n) ([0] ++ [1])%nat
         (singleflight.init ["k"; "k"])) !! 1%nat
    = Some ("k", singleflight.Wait 0).
Proof.
  assert (singleflight.returned
    (singleflight.run (λ _ n, Some n) [0; 1; 0; 0; 0; 0; 1; 1]%nat
       (singleflight.init ["k"; "k"])) 0%nat = Some (0%nat, Some 0%nat))
    as H0 by (vm_compute; reflexivity).
  assert (singleflight.returned
    (singleflight.run (λ _ n, Some n) [0; 1; 0; 0; 0; 0; 1; 1]%nat
       (singleflight.init ["k"; "k"])) 1%nat = Some (0%nat, Some 0%nat))
    as H1 by (vm_compute; reflexivity).
  split; [exact H0|]. split; [exact H1|].
  pose proof (C2_callers_of_a_call_share_one_run (λ _ n, Some n) ["k"; "k"]
                [0; 1; 0; 0; 0; 0; 1; 1]%nat) as Hall.
  cbv zeta in Hall. destruct Hall as (_ & _ & Hsame & _).
  split; [exact (Hsame 0%nat 1%nat 0%nat _ _ H0 H1)|].
  pose proof (C2_callers_of_a_call_share_one_run (λ _ n, Some n) ["k"; "k"]
                [0]%nat) as Hone.
  cbv zeta in Hone. destruct Hone as (_ & _ & _ & _ & Hjoin & _).
  refine (proj1 (proj2 (Hjoin 1%nat 0%nat "k" (singleflight.CallFn 0) 0%nat
                          _ _ _))).
  - vm_compute; reflexivity.
  - vm_compute; reflexivity.
  - by left.
Defined.

(** C2 as stated fails: the second caller of ["k"] enters after the first
    one has removed its call record from the map, and before it returns.
    The two calls overlap in time, [fn] runs twice, and the callers get the
    results of different runs. *)
Lemma C2_counterexample :
  singleflight.overlap [0; 0; 0; 0; 1; 1; 1; 1; 1; 0]%nat 0 1 = true
  ∧ singleflight.returned
      (singleflight.run (λ _ n, Some n) [0; 0; 0; 0; 1; 1; 1; 1; 1]%nat
         (singleflight.init ["k"; "k"])) 0%nat = None
  ∧ singleflight.returned
      (singleflight.run (λ _ n, Some n) [0; 0; 0; 0; 1; 1; 1; 1; 1; 0]%nat
         (singleflight.init ["k"; "k"])) 0%nat = Some (0%nat, Some 0%nat)
  ∧ singleflight.returned
      (singleflight.run (λ _ n, Some n) [0; 0; 0; 0; 1; 1; 1; 1; 1; 0]%nat
         (singleflight.init ["k"; "k"])) 1%nat = Some (1%nat, Some 1%nat)
  ∧ ¬ (length
         (singleflight.invocations_by [0; 1]%nat
            (singleflight.run (λ _ n, Some n)
               [0; 0; 0; 0; 1; 1; 1; 1; 1; 0]%nat
               (singleflight.init ["k"; "k"]))) ≤ 1)%nat.
Proof.
  split_and!; try (vm_compute; reflexivity).
  vm_compute. lia.
Qed.

(** A run of [fn] that does not return: the first caller of ["k"] stays
    in [fn], the second one found its record and never returns, however
    often it is scheduled. *)
Lemma X9_witness :
  singleflight.threads
    (singleflight.run (λ _ _, @None nat) [0; 1]%nat
       (singleflight.init ["k"; "k"])) !! 0%nat
  = Some ("k", singleflight.CallFn 0)
  ∧ singleflight.threads
      (singleflight.run (λ _ _, @None nat) [0; 1]%nat
         (singleflight.init ["k"; "k"])) !! 1%nat
    = Some ("k", singleflight.Wait 0)
  ∧ singleflight.returned
      (singleflight.run (λ _ _, @None nat) ([0; 1] ++ [1; 0; 1; 1])%nat
         (singleflight.init ["k"; "k"])) 1%nat = None.
Proof.
  assert (singleflight.threads
            (singleflight.run (λ _ _, @None nat) [0; 1]%nat
               (singleflight.init ["k"; "k"])) !! 0%nat
          = Some ("k", singleflight.CallFn 0)) as E0
    by (vm_compute; reflexivity).
  assert (singleflight.threads
            (singleflight.run (λ _ _, @None nat) [0; 1]%nat
               (singleflight.init ["k"; "k"])) !! 1%nat
          = Some ("k", singleflight.Wait 0)) as E1
    by (vm_compute; reflexivity).
  split; [exact E0|]. split; [exact E1|].
  destruct (X9_Do_deadlocks_only_on_a_lost_run (λ _ _, @None nat)
              ["k"; "k"] [0; 1]%nat) as (_ & _ & Hlost).
  destruct (Hlost 0%nat "k" 0%nat E0 (λ _, eq_refl)) as (_ & _ & Hwait & _).
  exact (Hwait 1%nat "k" [1; 0; 1; 1]%nat E1).
Defined.

(** Two callers of ["k"] and one of ["j"], fifteen rounds in which the
    first caller has two turns; every run of [fn] returns. *)
Lemma X10_witness :
  singleflight.fn_returns (λ _ n, Some n)
  ∧ (5 * length ["k"; "k"; "j"] ≤ length (replicate 15 [2; 0; 1; 0]%nat))%nat
  ∧ Forall (λ r, ∀ t, (t < length ["k"; "k"; "j"])%nat → t ∈ r)
      (replicate 15 [2; 0; 1; 0]%nat)
  ∧ ∃ c r leader,
      singleflight.returned
        (singleflight.run (λ _ n, Some n)
           (concat (replicate 15 [2; 0; 1; 0]%nat))
           (singleflight.init ["k"; "k"; "j"])) 1%nat = Some (c, Some r)
      ∧ singleflight.mkInvocation leader c r
        ∈ singleflight.log
            (singleflight.run (λ _ n, Some n)
               (concat (replicate 15 [2; 0; 1; 0]%nat))
               (singleflight.init ["k"; "k"; "j"])).
Proof.
  assert (singleflight.fn_returns (λ (_ : string) n, Some n)) as Hfn
    by (intros k n; eexists; reflexivity).
  assert (Forall (λ r, ∀ t, (t < length ["k"; "k"; "j"])%nat → t ∈ r)
            (replicate 15 [2; 0; 1; 0]%nat)) as Hfair.
  { apply Forall_replicate. intros t Ht. simpl in Ht.
    destruct t as [|[|[|t]]]; [| | |lia]; repeat constructor. }
  split; [exact Hfn|]. split; [simpl; lia|]. split; [exact Hfair|].
  apply (X10_every_caller_returns_under_a_fair_schedule (λ _ n, Some n)
           ["k"; "k"; "j"] (replicate 15 [2; 0; 1; 0]%nat));
    [exact Hfn | simpl; lia | exact Hfair | simpl; lia].
Defined.

(** The second of two callers of ["k"], which waited for the first. *)
Lemma X11_witness :
  singleflight.returned
    (singleflight.run (λ _ n, Some n) [0; 1; 0; 0; 0; 0; 1; 1]%nat
       (singleflight.init ["k"; "k"])) 1%nat = Some (0%nat, Some 0%nat)
  ∧ ∃ key r leader n,
      ["k"; "k"] !! 1%nat = Some key
      ∧ ["k"; "k"] !! leader = Some key
      ∧ Some 0%nat = Some r
      ∧ singleflight.log
          (singleflight.run (λ _ n, Some n) [0; 1; 0; 0; 0; 0; 1; 1]%nat
             (singleflight.init ["k"; "k"])) !! n
        = Some (singleflight.mkInvocation leader 0%nat r)
      ∧ Some n = Some r.
Proof.
  assert (singleflight.returned
    (singleflight.run (λ _ n, Some n) [0; 1; 0; 0; 0; 0; 1; 1]%nat
       (singleflight.init ["k"; "k"])) 1%nat = Some (0%nat, Some 0%nat))
    as H1 by (vm_compute; reflexivity).
  split; [exact H1|].
  exact (X11_result_comes_from_a_run_for_the_same_key (λ _ n, Some n)
           ["k"; "k"] [0; 1; 0; 0; 0; 0; 1; 1]%nat 1%nat 0%nat _ H1).
Defined.

(** The second caller of ["k"] starts after the first one has returned:
    [fn] runs a second time. *)
Lemma X13_witness :
  singleflight.threads
    (singleflight.run (λ _ n, Some n) [0; 0; 0; 0; 0]%nat
       (singleflight.init ["k"; "k"])) !! 1%nat
  = Some ("k", singleflight.Enter)
  ∧ singleflight.returned
      (singleflight.run (λ _ n, Some n)
         ([0; 0; 0; 0; 0] ++ [1; 1; 1; 1; 1])%nat
         (singleflight.init ["k"; "k"])) 1%nat
    = Some (length (singleflight.calls
                      (singleflight.run (λ _ n, Some n) [0; 0; 0; 0; 0]%nat
                         (singleflight.init ["k"; "k"]))),
            Some 1%nat).
Proof.
  assert (singleflight.threads
            (singleflight.run (λ _ n, Some n) [0; 0; 0; 0; 0]%nat
               (singleflight.init ["k"; "k"])) !! 1%nat
          = Some ("k", singleflight.Enter)) as Et
    by (vm_compute; reflexivity).
  split; [exact Et|].
  refine (proj1 (X13_Do_does_not_cache (λ _ n, Some n) ["k"; "k"]
                   [0; 0; 0; 0; 0]%nat 1%nat "k" 1%nat Et _ _)).
  - intros t' p c Ht'. vm_compute in Ht'.
    destruct t' as [|[|t']]; simplify_eq; by intros [|[|]].
  - vm_compute; reflexivity.
Defined.

(** ** The peer picker: what discovery builds *)

Section Picker_more.
Context {Ring : Type} `{blockcache.ConsistentHash Ring}.
Import blockcache.

Local Abbreviation ClientPicker := (@ClientPicker Ring).
Implicit Types (p : ClientPicker) (key a : string) (dial : string → bool).

Lemma set_clients dial p a a' :
  clients (set dial p a) !! a'
  = if decide (a = a' ∧ dial a = true)
    then Some (mkClient a (p_svcName p)) else clients p !! a'.
Proof.
  unfold set, NewClient. destruct (dial a) eqn:Ed; simpl.
  - destruct (decide (a = a')) as [->|Hne].
    + rewrite lookup_insert_eq. by rewrite decide_True.
    + rewrite lookup_insert_ne by done. rewrite decide_False; [done|].
      by intros [? _].
  - rewrite decide_False; [done|]. by intros [_ ?].
Qed.

Lemma set_svcName dial p a : p_svcName (set dial p a) = p_svcName p.
Proof. unfold set. by destruct (NewClient dial a (p_svcName p)). Qed.

Lemma set_picker_inv dial self svc p a :
  a ≠ self → picker_inv dial self svc p → picker_inv dial self svc (set dial p a).
Proof.
  intros Hne (Hs & Hn & Hc). unfold picker_inv.
  rewrite set_selfAddr, set_svcName. split_and!; try done.
  intros a' c. rewrite set_clients. case_decide as Ha; [|by apply Hc].
  destruct Ha as [<- Hd]. intros [= <-]. by rewrite Hn.
Qed.

Lemma remove_picker_inv dial self svc p a :
  picker_inv dial self svc p → picker_inv dial self svc (remove p a).
Proof.
  intros (Hs & Hn & Hc). unfold picker_inv. simpl. split_and!; try done.
  intros a' c Ha'. apply lookup_delete_Some in Ha' as [_ Ha']. by apply Hc.
Qed.

Lemma fetchAllServices_picker_inv dial self svc p kvs :
  picker_inv dial self svc p →
  picker_inv dial self svc (fetchAllServices dial p kvs).
Proof.
  unfold fetchAllServices. revert p.
  induction kvs as [|a kvs IH]; intros p Hp; simpl; [done|].
  apply IH. destruct (bool_decide (a ≠ "")); simpl; [|done].
  case_bool_decide as Hne; [|done]. apply set_picker_inv; [|done].
  by destruct Hp as (<- & _).
Qed.

Lemma handleWatchEvents_picker_inv dial self svc p events :
  picker_inv dial self svc p →
  picker_inv dial self svc (handleWatchEvents dial p events).
Proof.
  unfold handleWatchEvents. revert p.
  induction events as [|ev events IH]; intros p Hp; simpl; [done|].
  apply IH. case_bool_decide as Hs; [done|].
  destruct (ev_Type ev); destruct (clients p !! ev_Value ev); try done.
  - apply set_picker_inv; [|done]. by destruct Hp as (<- & _).
  - by apply remove_picker_inv.
Qed.

Lemma discover_picker_inv dial self svc p d :
  picker_inv dial self svc p → picker_inv dial self svc (discover dial p d).
Proof.
  destruct d as [kvs|events|a]; simpl.
  - apply fetchAllServices_picker_inv.
  - apply handleWatchEvents_picker_inv.
  - apply remove_picker_inv.
Qed.

Lemma discovery_picker_inv dial self svc ds :
  picker_inv dial self svc
    (fold_left (discover dial) ds (emptyPicker (Ring:=Ring) self svc)).
Proof.
  assert (picker_inv dial self svc (emptyPicker (Ring:=Ring) self svc)) as H0.
  { unfold picker_inv. simpl. by split_and!. }
  revert H0. generalize (emptyPicker (Ring:=Ring) self svc) as p.
  induction ds as [|d ds IH]; intros p Hp; simpl; [done|].
  by apply IH, discover_picker_inv.
Qed.

(** X14.  Whatever the range reads, watch events and [Delete]s a picker
    has gone through, it keeps the address and the service name it was
    created with, and the handle stored under an address is the client
    that [NewClient] built for that very address and that service name,
    over a connection that could be made; the own address has no
    handle. *)
Theorem X14_handles_are_for_their_addresses
    dial (self svc : string) (ds : list discovery) a c :
  clients (fold_left (discover dial) ds (emptyPicker (Ring:=Ring) self svc))
    !! a = Some c →
  addr c = a ∧ svcName c = svc ∧ dial a = true ∧ a ≠ self
  ∧ selfAddr (fold_left (discover dial) ds (emptyPicker (Ring:=Ring) self svc))
    = self
  ∧ p_svcName
      (fold_left (discover dial) ds (emptyPicker (Ring:=Ring) self svc))
    = svc.
Proof.
  intros Hc. destruct (discovery_picker_inv dial self svc ds) as (Hs & Hn & Hall).
  destruct (Hall a c Hc) as (-> & Hd & Hne). by split_and!.
Qed.

(** X15.  The range read registers exactly the advertised addresses that
    are not empty, are not the own address and can be connected to: after
    [fetchAllServices] an address has a handle when it had one before or
    is such an address of the response, and in no other case. *)
Theorem X15_fetchAllServices_registers_the_reachable_peers
    dial p (kvs : list string) a :
  is_Some (clients (fetchAllServices dial p kvs) !! a)
  ↔ is_Some (clients p !! a)
    ∨ (a ∈ kvs ∧ a ≠ "" ∧ a ≠ selfAddr p ∧ dial a = true).
Proof.
  unfold fetchAllServices. revert p.
  induction kvs as [|a0 kvs IH]; intros p; simpl.
  - split; [by left|]. intros [?|[Hin _]]; [done|].
    by apply elem_of_nil in Hin.
  - rewrite IH. clear IH.
    assert (selfAddr
              (if bool_decide (a0 ≠ "") && bool_decide (a0 ≠ selfAddr p)
               then set dial p a0 else p) = selfAddr p) as ->.
    { destruct (_ && _); [apply set_selfAddr | done]. }
    rewrite elem_of_cons.
    destruct (bool_decide (a0 ≠ "")) eqn:E1; simpl.
    + apply bool_decide_eq_true in E1.
      case_bool_decide as E2.
      * rewrite set_clients. case_decide as Ha.
        -- destruct Ha as [-> Hd]. split; [|by eauto].
           intros _. right. by split_and!; [left| | |].
        -- split.
           ++ intros [?|(? & ? & ? & ?)]; [by left | right; by split_and!; [right| | |]].
           ++ intros [?|([->|?] & ? & ? & ?)]; [by left | | right; by split_and!].
              destruct Ha. by split.
      * split.
        -- intros [?|(? & ? & ? & ?)]; [by left | right; by split_and!; [right| | |]].
        -- intros [?|([->|?] & ? & ? & ?)]; [by left | | right; by split_and!].
           by destruct E2.
    + apply bool_decide_eq_false in E1.
      split.
      * intros [?|(? & ? & ? & ?)]; [by left | right; by split_and!; [right| | |]].
      * intros [?|([->|?] & ? & ? & ?)]; [by left | | right; by split_and!].
        by destruct E1.
Qed.

Lemma handleWatchEvents_selfAddr dial p events :
  selfAddr (handleWatchEvents dial p events) = selfAddr p.
Proof.
  unfold handleWatchEvents. revert p.
  induction events as [|ev events IH]; intros p; simpl; [done|].
  rewrite IH. case_bool_decide; [done|].
  destruct (ev_Type ev); destruct (clients p !! ev_Value ev); try done.
  apply set_selfAddr.
Qed.

Lemma handleWatchEvents_app dial p ev1 ev2 :
  handleWatchEvents dial p (ev1 ++ ev2)
  = handleWatchEvents dial (handleWatchEvents dial p ev1) ev2.
Proof. unfold handleWatchEvents. by rewrite fold_left_app. Qed.

(** Events about other addresses leave the handle of [a] alone. *)
Lemma handleWatchEvents_others dial p events a :
  (∀ e, e ∈ events → ev_Value e ≠ a) →
  clients (handleWatchEvents dial p events) !! a = clients p !! a.
Proof.
  unfold handleWatchEvents. revert p.
  induction events as [|ev events IH]; intros p Hne; simpl; [done|].
  rewrite IH by (intros e He; apply Hne; by right).
  assert (ev_Value ev ≠ a) as Hev by (apply Hne; by left).
  case_bool_decide; [done|].
  destruct (ev_Type ev); destruct (clients p !! ev_Value ev); try done.
  - rewrite set_clients. rewrite decide_False; [done|]. by intros [? _].
  - simpl. by rewrite lookup_delete_ne.
Qed.

(** X16.  In a batch of watch events the last event about an address
    decides, for an address other than the own one.  When it is a delete,
    the address has no handle after the batch.  When it is a put and the
    address can be connected to, the address has a handle after the batch:
    the one it had when the event came, which a put does not replace, or
    else a new one for that address and the picker's service name. *)
Theorem X16_last_watch_event_decides
    dial p (before after : list Event) (e : Event) :
  ev_Value e ≠ selfAddr p →
  (∀ e', e' ∈ after → ev_Value e' ≠ ev_Value e) →
  (ev_Type e = EventTypeDelete →
   clients (handleWatchEvents dial p (before ++ e :: after)) !! ev_Value e
     = None)
  ∧ (ev_Type e = EventTypePut → dial (ev_Value e) = true →
     clients (handleWatchEvents dial p (before ++ e :: after)) !! ev_Value e
       = Some (mkClient (ev_Value e) (p_svcName p))
     ∨ clients (handleWatchEvents dial p (before ++ e :: after)) !! ev_Value e
       = clients (handleWatchEvents dial p before) !! ev_Value e
       ∧ is_Some (clients (handleWatchEvents dial p before) !! ev_Value e)).
Proof.
  intros Hself Hafter.
  rewrite handleWatchEvents_app.
  change (e :: after) with ([e] ++ after). rewrite handleWatchEvents_app.
  rewrite handleWatchEvents_others by done.
  pose proof (handleWatchEvents_selfAddr dial p before) as Hs.
  assert (p_svcName (handleWatchEvents dial p before) = p_svcName p) as Hn.
  { clear. unfold handleWatchEvents. revert p.
    induction before as [|ev events IH]; intros p; simpl; [done|].
    rewrite IH. case_bool_decide; [done|].
    destruct (ev_Type ev); destruct (clients p !! ev_Value ev); try done.
    apply set_svcName. }
  revert Hs Hn. generalize (handleWatchEvents dial p before) as p1.
  intros p1 Hs Hn. unfold handleWatchEvents at 1 3. simpl.
  rewrite bool_decide_false by by rewrite Hs.
  split.
  - intros ->. destruct (clients p1 !! ev_Value e) eqn:E; [|done].
    simpl. apply lookup_delete_eq.
  - intros -> Hd. destruct (clients p1 !! ev_Value e) eqn:E.
    + right. by rewrite E.
    + left. rewrite set_clients, decide_True by done. by rewrite Hn.
Qed.

Section Ring_laws.
(** What the picker relies on in a ring: the nodes it holds are those
    added and not removed, and it answers a key with one of its nodes or
    with the empty string. *)
Variable members : Ring → gset string.
Hypothesis members_New : members ring_New = ∅.
Hypothesis members_Add : ∀ r node, members (ring_Add r node) = {[node]} ∪ members r.
Hypothesis members_Remove :
  ∀ r node, members (ring_Remove r node) = members r ∖ {[node]}.
Hypothesis members_Get :
  ∀ r key, ring_Get r key ≠ "" → ring_Get r key ∈ members r.

Lemma discover_members dial p d :
  members (consHash p) = dom (clients p) →
  members (consHash (discover dial p d)) = dom (clients (discover dial p d)).
Proof.
  assert (∀ p a, members (consHash p) = dom (clients p) →
            members (consHash (set dial p a)) = dom (clients (set dial p a)))
    as Hset.
  { intros p0 a Hp. unfold set. destruct (NewClient dial a (p_svcName p0)); simpl;
      [|done]. by rewrite members_Add, dom_insert_L, Hp. }
  assert (∀ p a, members (consHash p) = dom (clients p) →
            members (consHash (remove p a)) = dom (clients (remove p a)))
    as Hrem.
  { intros p0 a Hp. simpl. by rewrite members_Remove, dom_delete_L, Hp. }
  destruct d as [kvs|events|a]; simpl.
  - unfold fetchAllServices. revert p.
    induction kvs as [|a kvs IH]; intros p Hp; simpl; [done|].
    apply IH. destruct (_ && _); [by apply Hset | done].
  - unfold handleWatchEvents. revert p.
    induction events as [|ev events IH]; intros p Hp; simpl; [done|].
    apply IH. case_bool_decide; [done|].
    destruct (ev_Type ev); destruct (clients p !! ev_Value ev); try done.
    + by apply Hset.
    + by apply Hrem.
  - by apply Hrem.
Qed.

(** X17.  The ring and the client map of a picker name the same peers:
    whatever the range reads, watch events and [Delete]s, the nodes of the
    ring are the addresses of the client map.  So [PickPeer] never takes
    the branch in which the ring names a node without a handle: when the
    ring answers a key with an address, [PickPeer] returns the client for
    that address, with [ok = true] and [self = false]. *)
Theorem X17_ring_and_client_map_name_the_same_peers
    dial (self svc : string) (ds : list discovery) key :
  members
    (consHash (fold_left (discover dial) ds (emptyPicker self svc)))
  = dom (clients (fold_left (discover dial) ds (emptyPicker self svc)))
  ∧ (ring_Get
       (consHash (fold_left (discover dial) ds (emptyPicker self svc))) key
     ≠ "" →
     PickPeer (fold_left (discover dial) ds (emptyPicker self svc)) key
     = (Some
          (mkClient
             (ring_Get
                (consHash
                   (fold_left (discover dial) ds (emptyPicker self svc)))
                key) svc), true, false)).
Proof.
  assert (members
            (consHash (fold_left (discover dial) ds (emptyPicker self svc)))
          = dom (clients (fold_left (discover dial) ds (emptyPicker self svc))))
    as Hdom.
  { assert (members (consHash (emptyPicker self svc))
            = dom (clients (emptyPicker (Ring:=Ring) self svc))) as H0.
    { simpl. by rewrite members_New, dom_empty_L. }
    revert H0. generalize (emptyPicker (Ring:=Ring) self svc) as p.
    induction ds as [|d ds IH]; intros p Hp; simpl; [done|].
    by apply IH, discover_members. }
  split; [done|]. intros Hget.
  pose proof (members_Get _ _ Hget) as Hin. rewrite Hdom in Hin.
  apply elem_of_dom in Hin as [c Hc].
  destruct (discovery_picker_inv dial self svc ds) as (Hs & _ & Hall).
  destruct (Hall _ _ Hc) as (-> & _ & Hne).
  unfold PickPeer, ClientPicker_PeerPicker, ClientPicker_PickPeer.
  rewrite bool_decide_true by done. rewrite Hc.
  by rewrite bool_decide_false by by rewrite Hs.
Qed.

Lemma discovery_members dial (self svc : string) (ds : list discovery) :
  members (consHash (fold_left (discover dial) ds (emptyPicker self svc)))
  = dom (clients (fold_left (discover dial) ds (emptyPicker self svc))).
Proof.
  assert (members (consHash (emptyPicker self svc))
          = dom (clients (emptyPicker (Ring:=Ring) self svc))) as Hempty.
  { simpl. by rewrite members_New, dom_empty_L. }
  revert Hempty. generalize (emptyPicker (Ring:=Ring) self svc) as p.
  induction ds as [|d ds IH]; intros p Hp; simpl; [done|].
  by apply IH, discover_members.
Qed.

(** C5.  On a picker that discovery has built (range reads, watch events
    and [Delete]s, from the picker [NewClientPicker] starts with), with a
    non-empty own address and a ring that holds the nodes added and not
    removed and answers a key with one of its nodes or the empty string:
    [PickPeer] returns [(nil, true, true)], or any result with [ok] and
    [self] both true, exactly when the ring maps the key to the own
    address, which it never does, the own address being neither in the
    ring nor in the client map; it returns [(clients[a], true, false)]
    when the ring maps the key to an address [a], which is then a known
    remote one; it returns [(nil, false, false)] when the ring gives no
    address or one without a handle; and a handle it returns is never for
    the own address, and never comes with [self = true]. *)
Theorem C5_PickPeer_on_a_discovered_picker
    dial (self svc : string) (ds : list discovery) p key :
  self ≠ "" →
  p = fold_left (discover dial) ds (emptyPicker self svc) →
  (PickPeer p key = (None, true, true)
   ↔ ring_Get (consHash p) key = selfAddr p)
  ∧ ((∃ peer, PickPeer p key = (peer, true, true))
     ↔ ring_Get (consHash p) key = selfAddr p)
  ∧ ring_Get (consHash p) key ≠ selfAddr p
  ∧ clients p !! selfAddr p = None
  ∧ (ring_Get (consHash p) key ≠ "" →
     ∃ c, clients p !! ring_Get (consHash p) key = Some c
          ∧ addr c = ring_Get (consHash p) key
          ∧ PickPeer p key = (Some c, true, false))
  ∧ (ring_Get (consHash p) key = ""
     ∨ clients p !! ring_Get (consHash p) key = None →
     PickPeer p key = (None, false, false))
  ∧ (∀ peer ok self',
       PickPeer p key = (peer, ok, self') →
       self' = false
       ∧ ∀ c, peer = Some c → ok = true ∧ addr c ≠ selfAddr p).
Proof.
  intros Hself ->.
  set (p := fold_left (discover dial) ds (emptyPicker self svc)).
  destruct (discovery_picker_inv dial self svc ds) as (Hs & _ & Hall).
  pose proof (discovery_members dial self svc ds) as Hmem.
  fold p in Hs, Hall, Hmem.
  assert (clients p !! selfAddr p = None) as Hout.
  { destruct (clients p !! selfAddr p) as [c|] eqn:E; [|done].
    destruct (Hall _ _ E) as (_ & _ & Hne). by rewrite Hs in Hne. }
  assert (ring_Get (consHash p) key ≠ selfAddr p) as Hnot.
  { intros Heq. assert (ring_Get (consHash p) key ≠ "") as Hne
      by by rewrite Heq, Hs.
    pose proof (members_Get _ _ Hne) as Hin. rewrite Hmem in Hin.
    apply elem_of_dom in Hin as [c Hc]. rewrite Heq in Hc. congruence. }
  assert (∀ peer ok self', PickPeer p key = (peer, ok, self') →
            self' = false ∧ ∀ c, peer = Some c → ok = true ∧ addr c ≠ selfAddr p)
    as Hres.
  { intros peer ok self'.
    unfold PickPeer, ClientPicker_PeerPicker, ClientPicker_PickPeer.
    case_bool_decide as Hne; [|by intros [= <- <- <-]].
    destruct (clients p !! ring_Get (consHash p) key) as [c|] eqn:Hc;
      [|by intros [= <- <- <-]].
    rewrite bool_decide_false by done. intros [= <- <- <-].
    split; [done|]. intros c' [= <-]. split; [done|].
    destruct (Hall _ _ Hc) as (-> & _ & Hne'). simpl. by rewrite Hs. }
  split_and!; try done.
  - split; [|done]. intros Hp. by destruct (Hres _ _ _ Hp).
  - split; [|done]. intros [peer Hp]. by destruct (Hres _ _ _ Hp).
  - intros Hne. pose proof (members_Get _ _ Hne) as Hin. rewrite Hmem in Hin.
    apply elem_of_dom in Hin as [c Hc]. exists c.
    destruct (Hall _ _ Hc) as (Heq & _ & _).
    split_and!; [done | by rewrite Heq |].
    unfold PickPeer, ClientPicker_PeerPicker, ClientPicker_PickPeer.
    rewrite bool_decide_true by done. rewrite Hc.
    by rewrite bool_decide_false by done.
  - intros Hfail.
    unfold PickPeer, ClientPicker_PeerPicker, ClientPicker_PickPeer.
    case_bool_decide as Hne; [|done].
    destruct Hfail as [Hfail|Hfail]; [done | by rewrite Hfail].
Qed.

End Ring_laws.
End Picker_more.

(** A range read that advertises the own address, a peer and an empty
    value. *)
Lemma X14_witness :
  blockcache.clients
    (fold_left (blockcache.discover (λ _, true))
       [blockcache.Fetched ["A"; "B"; ""]]
       (blockcache.emptyPicker (Ring:=list string) "A" "svc")) !! "B"
  = Some (blockcache.mkClient "B" "svc")
  ∧ blockcache.addr (blockcache.mkClient "B" "svc") = "B"
  ∧ blockcache.svcName (blockcache.mkClient "B" "svc") = "svc"
  ∧ "B" ≠ "A".
Proof.
  assert (blockcache.clients
            (fold_left (blockcache.discover (λ _, true))
               [blockcache.Fetched ["A"; "B"; ""]]
               (blockcache.emptyPicker (Ring:=list string) "A" "svc")) !! "B"
          = Some (blockcache.mkClient "B" "svc")) as Hc
    by (vm_compute; reflexivity).
  split; [exact Hc|].
  destruct (X14_handles_are_for_their_addresses (λ _, true) "A" "svc"
              [blockcache.Fetched ["A"; "B"; ""]] "B" _ Hc)
    as (Ha & Hn & _ & Hne & _).
  by split_and!.
Defined.

(** A peer that comes and goes within one batch. *)
Lemma X16_witness :
  blockcache.ev_Value (blockcache.mkEvent blockcache.EventTypeDelete "B")
  ≠ blockcache.selfAddr (blockcache.emptyPicker (Ring:=list string) "A" "svc")
  ∧ (∀ e', e' ∈ [blockcache.mkEvent blockcache.EventTypePut "C"] →
           blockcache.ev_Value e'
           ≠ blockcache.ev_Value
               (blockcache.mkEvent blockcache.EventTypeDelete "B"))
  ∧ blockcache.clients
      (blockcache.handleWatchEvents (λ _, true)
         (blockcache.emptyPicker (Ring:=list string) "A" "svc")
         ([blockcache.mkEvent blockcache.EventTypePut "B"]
          ++ blockcache.mkEvent blockcache.EventTypeDelete "B"
             :: [blockcache.mkEvent blockcache.EventTypePut "C"]))
    !! "B" = None.
Proof.
  assert (blockcache.ev_Value
            (blockcache.mkEvent blockcache.EventTypeDelete "B")
          ≠ blockcache.selfAddr
              (blockcache.emptyPicker (Ring:=list string) "A" "svc")) as H1
    by (simpl; discriminate).
  assert (∀ e', e' ∈ [blockcache.mkEvent blockcache.EventTypePut "C"] →
            blockcache.ev_Value e'
            ≠ blockcache.ev_Value
                (blockcache.mkEvent blockcache.EventTypeDelete "B")) as H2.
  { intros e' He. apply list_elem_of_singleton in He as ->. simpl.
    discriminate. }
  split; [exact H1|]. split; [exact H2|].
  exact (proj1 (X16_last_watch_event_decides (λ _, true)
                  (blockcache.emptyPicker (Ring:=list string) "A" "svc")
                  [blockcache.mkEvent blockcache.EventTypePut "B"]
                  [blockcache.mkEvent blockcache.EventTypePut "C"]
                  (blockcache.mkEvent blockcache.EventTypeDelete "B") H1 H2)
           eq_refl).
Defined.

(** The ring of the examples keeps the nodes added and not removed, and
    answers with one of them. *)
Lemma list_ring_members_New :
  list_to_set (C:=gset string) (blockcache.ring_New (Ring:=list string)) = ∅.
Proof. reflexivity. Qed.

Lemma list_ring_members_Add (r : list string) node :
  list_to_set (C:=gset string) (blockcache.ring_Add r node)
  = {[node]} ∪ list_to_set r.
Proof.
  simpl. rewrite list_to_set_app_L. simpl.
  rewrite (right_id_L ∅ (∪)). apply (comm_L (∪)).
Qed.

Lemma list_ring_members_Remove (r : list string) node :
  list_to_set (C:=gset string) (blockcache.ring_Remove r node)
  = list_to_set r ∖ {[node]}.
Proof.
  simpl. apply set_eq. intros x.
  rewrite elem_of_difference, !elem_of_list_to_set, list_elem_of_filter,
    elem_of_singleton.
  tauto.
Qed.

Lemma list_ring_members_Get (r : list string) key :
  blockcache.ring_Get r key ≠ "" →
  blockcache.ring_Get r key ∈ list_to_set (C:=gset string) r.
Proof.
  cbn [blockcache.ring_Get blockcache.list_ring].
  destruct r as [|n r]; [done|].
  destruct ((n :: r) !! _) as [x|] eqn:E; [|done]. cbn [default]. intros _.
  apply elem_of_list_to_set. by eapply list_elem_of_lookup_2.
Qed.

(** Two peers found by the range read, on the ring of the examples: the
    key ["k42"] belongs to the second one. *)
Lemma X17_witness :
  list_to_set (C:=gset string) (blockcache.ring_New (Ring:=list string)) = ∅
  ∧ (∀ (r : list string) node,
       list_to_set (C:=gset string) (blockcache.ring_Add r node)
       = {[node]} ∪ list_to_set r)
  ∧ (∀ (r : list string) node,
       list_to_set (C:=gset string) (blockcache.ring_Remove r node)
       = list_to_set r ∖ {[node]})
  ∧ (∀ (r : list string) key,
       blockcache.ring_Get r key ≠ "" →
       blockcache.ring_Get r key ∈ list_to_set (C:=gset string) r)
  ∧ blockcache.ring_Get
      (blockcache.consHash
         (fold_left (blockcache.discover (λ _, true))
            [blockcache.Fetched ["B"; "C"]]
            (blockcache.emptyPicker (Ring:=list string) "A" "svc"))) "k42"
    ≠ ""
  ∧ blockcache.PickPeer
      (fold_left (blockcache.discover (λ _, true))
         [blockcache.Fetched ["B"; "C"]]
         (blockcache.emptyPicker (Ring:=list string) "A" "svc")) "k42"
    = (Some (blockcache.mkClient "C" "svc"), true, false).
Proof.
  assert (blockcache.ring_Get
            (blockcache.consHash
               (fold_left (blockcache.discover (λ _, true))
                  [blockcache.Fetched ["B"; "C"]]
                  (blockcache.emptyPicker (Ring:=list string) "A" "svc")))
            "k42" ≠ "") as Hget by (vm_compute; discriminate).
  split; [reflexivity|].
  split; [exact list_ring_members_Add|].
  split; [exact list_ring_members_Remove|].
  split; [exact list_ring_members_Get|].
  split; [exact Hget|].
  exact (proj2 (X17_ring_and_client_map_name_the_same_peers
                  (list_to_set (C:=gset string)) eq_refl
                  list_ring_members_Add list_ring_members_Remove
                  list_ring_members_Get (λ _, true) "A" "svc"
                  [blockcache.Fetched ["B"; "C"]] "k42") Hget).
Defined.

(** A picker at ["A"] that has discovered ["B"] and ["C"], on the ring of
    the examples: the key ["k42"] belongs to ["C"], and the handle of
    ["C"] comes back as a remote peer. *)
Lemma C5_witness :
  "A" ≠ ""
  ∧ blockcache.PickPeer
      (fold_left (blockcache.discover (λ _, true))
         [blockcache.Fetched ["A"; "B"];
          blockcache.Watched
            [blockcache.mkEvent blockcache.EventTypePut "C"]]
         (blockcache.emptyPicker (Ring:=list string) "A" "block-cache"))
      "k42"
    = (Some (blockcache.mkClient "C" "block-cache"), true, false).
Proof.
  assert ("A" ≠ "") as Hne by discriminate.
  split; [exact Hne|].
  destruct (C5_PickPeer_on_a_discovered_picker
              (list_to_set (C:=gset string)) list_ring_members_New
              list_ring_members_Add list_ring_members_Remove
              list_ring_members_Get (λ _, true) "A" "block-cache"
              [blockcache.Fetched ["A"; "B"];
               blockcache.Watched
                 [blockcache.mkEvent blockcache.EventTypePut "C"]]
              _ "k42" Hne eq_refl) as (_ & _ & _ & _ & Hremote & _).
  destruct Hremote as (c & Hc & _ & Hp); [vm_compute; discriminate|].
  rewrite Hp. f_equal. f_equal. vm_compute in Hc. by injection Hc as <-.
Defined.

(** ** Groups: what the methods leave alone, the registry, the options *)

Section Group_more.
Import blockcache.
Context {Cache CacheOptions : Type} `{CacheAPI Cache CacheOptions}.
Context {P : Type} `{PeerPicker P}.

Local Abbreviation Group := (@Group Cache P).
Local Abbreviation World := (@World Cache P).
Local Abbreviation call := (@call CacheOptions P).
Local Abbreviation GroupOption := (@GroupOption CacheOptions P).
Implicit Types (g : Group) (w : World) (ctx : Ctx) (key nm : string).
Implicit Types (i j : nat).

Lemma same_config_refl g : same_config g g.
Proof. by repeat split. Qed.

Lemma same_config_trans g1 g2 g3 :
  same_config g1 g2 → same_config g2 g3 → same_config g1 g3.
Proof.
  intros (? & ? & ? & ? & ?) (? & ? & ? & ? & ?).
  repeat split; congruence.
Qed.

Lemma from_getter_frame g ctx key :
  same_config g (from_getter g ctx key).1.2
  ∧ mainCache (from_getter g ctx key).1.2 = mainCache g
  ∧ (from_getter g ctx key).2 = [EvGetter ctx key].
Proof.
  unfold from_getter. destruct (getter g ctx key) as [b [e|]]; simpl;
    by repeat split.
Qed.

Lemma loadData_frame g ctx key :
  same_config g (loadData g ctx key).1.2
  ∧ mainCache (loadData g ctx key).1.2 = mainCache g
  ∧ ((loadData g ctx key).2 = [] ∨ (loadData g ctx key).2 = [EvGetter ctx key]).
Proof.
  assert (same_config g (from_getter g ctx key).1.2
          ∧ mainCache (from_getter g ctx key).1.2 = mainCache g
          ∧ ((from_getter g ctx key).2 = []
             ∨ (from_getter g ctx key).2 = [EvGetter ctx key])) as Hfg.
  { destruct (from_getter_frame g ctx key) as (? & ? & ?). by eauto. }
  unfold loadData. destruct (peers g) as [pk|] eqn:Ep; [|done].
  destruct (PickPeer pk key) as [[peer ok] isSelf].
  destruct (ok && negb isSelf); [|done].
  destruct peer as [peer|]; simpl;
    [|split_and!; [apply same_config_refl | done | by left]].
  split_and!; [apply same_config_refl | done | by left].
Qed.

Lemma load_frame g ctx key now elapsed :
  same_config g (load g ctx key now elapsed).1.2
  ∧ ((load g ctx key now elapsed).2 = []
     ∨ (load g ctx key now elapsed).2 = [EvGetter ctx key]).
Proof.
  unfold load. destruct (loadData_frame g ctx key) as (Hc & _ & Hev).
  destruct (loadData g ctx key) as [[[[view [e|]]|msg] g1] evs];
    simpl in *; done.
Qed.

Lemma Get_frame g ctx key now elapsed :
  same_config g (Get g ctx key now elapsed).1.2
  ∧ ((Get g ctx key now elapsed).2 = []
     ∨ (Get g ctx key now elapsed).2 = [EvGetter ctx key]).
Proof.
  unfold Get. destruct (closed g =? 1);
    [split; [apply same_config_refl | by left]|].
  case_bool_decide; [split; [apply same_config_refl | by left]|].
  destruct (Cache_Get (mainCache g) ctx key now) as [[val|] cache].
  - simpl. split; [by repeat split | by left].
  - destruct (load_frame (set_mainCache g cache) ctx key now elapsed)
      as [Hc Hev]. done.
Qed.

Lemma Set_frame g ctx key (value : bytes) now :
  same_config g (Set_ g ctx key value now).1.2
  ∧ stats (Set_ g ctx key value now).1.2 = stats g.
Proof.
  unfold Set_. destruct (closed g =? 1); [by repeat split|].
  destruct (_ || _); by repeat split.
Qed.

Lemma Delete_frame g ctx key :
  same_config g (Delete g ctx key).1.2
  ∧ stats (Delete g ctx key).1.2 = stats g.
Proof.
  unfold Delete. destruct (closed g =? 1); [by repeat split|].
  case_bool_decide; by repeat split.
Qed.

Lemma Clear_frame g : same_config g (Clear g) ∧ stats (Clear g) = stats g.
Proof. unfold Clear. destruct (closed g =? 1); by repeat split. Qed.

(** X18.  What the methods of a group leave alone.  [Get], [Set],
    [Delete] and [Clear] never change the name, the getter, the picker,
    the expiration or the [closed] flag of the group; [Set], [Delete] and
    [Clear] never touch the statistics.  [Get] asks the getter at most
    once, for the key and with the context it was given, and not at all on
    a closed group, for an empty key or on a local hit.  A call rejected
    for an empty key or an empty value leaves the group exactly as it
    was. *)
Theorem X18_methods_leave_the_configuration_alone
    g ctx key (value : bytes) now elapsed :
  (same_config g (Get g ctx key now elapsed).1.2
   ∧ same_config g (Set_ g ctx key value now).1.2
   ∧ same_config g (Delete g ctx key).1.2
   ∧ same_config g (Clear g))
  ∧ (stats (Set_ g ctx key value now).1.2 = stats g
     ∧ stats (Delete g ctx key).1.2 = stats g
     ∧ stats (Clear g) = stats g)
  ∧ ((Get g ctx key now elapsed).2 = []
     ∨ (Get g ctx key now elapsed).2 = [EvGetter ctx key])
  ∧ (closed g = 1 ∨ key = ""
     ∨ (∃ v c, Cache_Get (mainCache g) ctx key now = (Some v, c)) →
     (Get g ctx key now elapsed).2 = [])
  ∧ (key = "" →
     (Get g ctx key now elapsed).1.2 = g
     ∧ (Set_ g ctx key value now).1.2 = g
     ∧ (Delete g ctx key).1.2 = g)
  ∧ (value = [] → (Set_ g ctx key value now).1.2 = g).
Proof.
  destruct (Get_frame g ctx key now elapsed) as [HG Hev].
  destruct (Set_frame g ctx key value now) as [HS HSs].
  destruct (Delete_frame g ctx key) as [HD HDs].
  destruct (Clear_frame g) as [HC HCs].
  split_and!; try done.
  - intros Hcase. unfold Get. destruct (closed g =? 1) eqn:Ec; [done|].
    case_bool_decide as Hk; [done|].
    destruct Hcase as [Hc|[Hk'|(v & c & Hhit)]].
    + rewrite Hc in Ec. done.
    + done.
    + by rewrite Hhit.
  - intros ->. unfold Get, Set_, Delete.
    destruct (closed g =? 1); [done|]. by rewrite bool_decide_true.
  - intros ->. unfold Set_. destruct (closed g =? 1); [done|].
    simpl. by rewrite orb_true_r.
Qed.

(** *** The registry *)

Lemma store_group_registry_ok w i g g' :
  registry_ok w → heap w !! i = Some g → same_config g g' →
  registry_ok (store_group w i g').
Proof.
  intros Hw Hi (Hn & _ & _ & _ & Hc) nm j Hj. simpl in *.
  destruct (Hw nm j Hj) as (G & HG & HGn & HGc).
  destruct (decide (j = i)) as [->|Hne].
  - exists g'. rewrite list_lookup_insert_eq by by eapply lookup_lt_Some.
    simplify_eq. split_and!; congruence.
  - exists G. by rewrite list_lookup_insert_ne.
Qed.

Lemma do_call_registry_ok w (c : call) :
  registry_ok w → registry_ok (do_call w c).2.
Proof.
  intros Hw. destruct c as [i ctx key now elapsed|i ctx key value now
                            |i ctx key|i|i|nm cacheBytes gt opts]; simpl.
  - destruct (heap w !! i) as [g|] eqn:Ei; [|done].
    pose proof (proj1 (Get_frame g ctx key now elapsed)) as Hc.
    destruct (Get g ctx key now elapsed) as [[[[view err]|msg] g'] evs];
      simpl in *; by eapply store_group_registry_ok.
  - destruct (heap w !! i) as [g|] eqn:Ei; [|done].
    pose proof (proj1 (Set_frame g ctx key value now)) as Hc.
    destruct (Set_ g ctx key value now) as [[err g'] ts].
    simpl in *. by eapply store_group_registry_ok.
  - destruct (heap w !! i) as [g|] eqn:Ei; [|done].
    pose proof (proj1 (Delete_frame g ctx key)) as Hc.
    destruct (Delete g ctx key) as [[err g'] ts].
    simpl in *. by eapply store_group_registry_ok.
  - destruct (heap w !! i) as [g|] eqn:Ei; [|done]. simpl.
    eapply store_group_registry_ok; [done | done | apply Clear_frame].
  - unfold Close. destruct (heap w !! i) as [g|] eqn:Ei; [|done].
    destruct (closed g =? 0) eqn:E0; [|done]. simpl.
    intros nm j Hj. simpl in *.
    apply lookup_delete_Some in Hj as [Hne Hj].
    destruct (Hw nm j Hj) as (G & HG & HGn & HGc).
    exists G. split; [|done].
    rewrite list_lookup_insert_ne; [done|]. intros ->. simplify_eq.
  - unfold NewGroup. destruct gt as [gt|]; [|done]. simpl.
    intros nm' j Hj. simpl in *.
    apply lookup_insert_Some in Hj as [[<- <-]|[Hne Hj]].
    + eexists. split; [apply list_lookup_middle; done|].
      destruct (apply_options_name_closed opts
                  {| name := nm; getter := gt;
                     mainCache :=
                       NewCache (with_MaxBytes DefaultCacheOptions cacheBytes);
                     peers := None; expiration := 0; closed := 0;
                     stats := mkStats 0 0 0 0 0 0 0 0 |}) as [-> ->].
      done.
    + destruct (Hw nm' j Hj) as (G & HG & HGn & HGc).
      exists G. split; [|done]. by apply lookup_app_l_Some.
Qed.

Lemma do_calls_registry_ok (cs : list call) :
  registry_ok (do_calls (emptyWorld (Cache:=Cache) (P:=P)) cs).
Proof.
  assert (registry_ok (emptyWorld (Cache:=Cache) (P:=P))) as Hempty.
  { intros nm i Hi. simpl in Hi. by rewrite lookup_empty in Hi. }
  revert Hempty. unfold do_calls. generalize (emptyWorld (Cache:=Cache) (P:=P)) as w.
  induction cs as [|c cs IH]; intros w Hw; simpl; [done|].
  by apply IH, do_call_registry_ok.
Qed.


Lemma Close_locked_open w i G :
  heap w !! i = Some G → closed G = 0 →
  Close_locked w i
  = Deadlock
      (store_group w i
         (set_mainCache (set_closed G 1) (Cache_Close (mainCache G)))).
Proof. intros Hi Hc. unfold Close_locked. by rewrite Hi, Hc. Qed.


(** *** [NewGroup] and its options *)


Lemma apply_options_cache (opts : list GroupOption) g1 g2 :
  name g1 = name g2 → getter g1 = getter g2 → peers g1 = peers g2 →
  expiration g1 = expiration g2 → closed g1 = closed g2 →
  stats g1 = stats g2 →
  (mainCache g1 = mainCache g2 ∨ ∃ co, WithCacheOptions co ∈ opts) →
  fold_left apply_option opts g1 = fold_left apply_option opts g2.
Proof.
  revert g1 g2. induction opts as [|o opts IH];
    intros g1 g2 Hn Hg Hp He Hc Hs Hm; simpl.
  - destruct Hm as [Hm|[co Hin]]; [|by apply elem_of_nil in Hin].
    destruct g1, g2; simpl in *; congruence.
  - apply IH; try by destruct o; simpl.
    destruct o as [d|pk|co]; simpl.
    + destruct Hm as [?|[co' Hin]]; [by left|]. right.
      apply elem_of_cons in Hin as [?|?]; [done | by eauto].
    + destruct Hm as [?|[co' Hin]]; [by left|]. right.
      apply elem_of_cons in Hin as [?|?]; [done | by eauto].
    + by left.
Qed.

(** X22.  With the option [WithCacheOptions], the [cacheBytes] argument of
    [NewGroup] has no effect: the option replaces the cache that was built
    from [cacheBytes] by one built from its own options, so the group is
    the same whatever [cacheBytes] was. *)
Theorem X22_WithCacheOptions_overrides_cacheBytes
    w nm (cacheBytes cacheBytes' : Z) (gt : option Getter)
    (opts : list GroupOption) (co : CacheOptions) :
  WithCacheOptions co ∈ opts →
  NewGroup w nm cacheBytes gt opts = NewGroup w nm cacheBytes' gt opts.
Proof.
  intros Hin. unfold NewGroup. destruct gt as [gt|]; [|done].
  rewrite (apply_options_cache opts
             {| name := nm; getter := gt;
                mainCache :=
                  NewCache (with_MaxBytes DefaultCacheOptions cacheBytes);
                peers := None; expiration := 0; closed := 0;
                stats := mkStats 0 0 0 0 0 0 0 0 |}
             {| name := nm; getter := gt;
                mainCache :=
                  NewCache (with_MaxBytes DefaultCacheOptions cacheBytes');
                peers := None; expiration := 0; closed := 0;
                stats := mkStats 0 0 0 0 0 0 0 0 |}); try done.
  right. by exists co.
Qed.

(** *** Deletions that come from a peer *)

(** X23.  A deletion that arrives over RPC is forwarded again.
    [Server.Delete] hands the group the inbound context as it is, where
    [Server.Set] marks it first; [Client.Delete] sends no context.  So for
    an inbound context without the marker, an open registered group and a
    key that the picker gives to another node, [Server.Delete] deletes the
    key locally, answers [true], and starts a [syncToPeers] that sends
    [Delete(group, key)] to that node; a [Server.Set] for the same
    request starts nothing. *)
Theorem X23_inbound_Delete_is_forwarded_again
    w ctx (req : Request) i G (pk : P) (peer : Client) now :
  GetGroup w (req_Group req) = Some i → heap w !! i = Some G →
  closed G ≠ 1 → req_Key req ≠ "" →
  Value ctx "from_peer" = None →
  peers G = Some pk → PickPeer pk (req_Key req) = (Some peer, true, false) →
  Server_Delete w ctx req
  = (Ret (Some true, None),
     store_group w i
       (set_mainCache G (Cache_Delete (mainCache G) (req_Key req))),
     [GoSync ctx "delete" (req_Key req) []])
  ∧ run_gtask (set_mainCache G (Cache_Delete (mainCache G) (req_Key req)))
      (GoSync ctx "delete" (req_Key req) [])
    = Ret [RpcDelete peer (name G) (req_Key req)]
  ∧ (Server_Set w ctx req now).2 = [].
Proof.
  intros Hi HG Hc Hk Hm Hp Hpick. split_and!.
  - assert (Delete G ctx (req_Key req)
            = (None,
               set_mainCache G (Cache_Delete (mainCache G) (req_Key req)),
               [GoSync ctx "delete" (req_Key req) []])) as Hd.
    { unfold Delete.
      rewrite (proj2 (Z.eqb_neq _ _) Hc), (bool_decide_false _ Hk).
      rewrite (bool_decide_false (Value ctx "from_peer" ≠ None))
        by (intros Hx; by apply Hx).
      by rewrite (bool_decide_true (peers G ≠ None)) by by rewrite Hp. }
    unfold Server_Delete. rewrite Hi, HG, Hd. by rewrite bool_decide_true.
  - unfold run_gtask, syncToPeers. simpl. by rewrite Hp, Hpick.
  - apply Server_Set_starts_nothing.
Qed.

(** *** Reads that load *)

(** X24.  A read that loads.  On an open group, for a key that misses the
    local cache and has no remote owner, with a getter that succeeds:
    [Get] asks the getter once, returns a view of the bytes it gave, adds
    the view to the cache (with the deadline [now + expiration] when the
    group has a positive expiration, without one otherwise), and counts
    one load, one loader hit and the time the load took.  When that cache
    then holds the key, the next [Get] is a local hit: it returns the
    cached view, counts one local hit and does not ask the getter. *)
Theorem X24_Get_loads_from_the_getter_and_caches
    g ctx key now elapsed cache' (value : bytes) :
  closed g ≠ 1 → key ≠ "" →
  Cache_Get (mainCache g) ctx key now = (None, cache') →
  peers g = None
  ∨ (∃ pk peer ok self, peers g = Some pk
       ∧ PickPeer pk key = (peer, ok, self) ∧ (ok = false ∨ self = true)) →
  getter g ctx key = (value, None) →
  ∃ g',
    Get g ctx key now elapsed
      = (Ret (mkByteView value, None), g', [EvGetter ctx key])
    ∧ mainCache g'
      = (if 0 <? expiration g
         then Cache_AddWithExpiration cache' key (mkByteView value)
                (now + expiration g) now
         else Cache_Add cache' key (mkByteView value) now)
    ∧ stats g'
      = add_loads 1 (add_loadDuration elapsed (add_loaderHits 1 (stats g)))
    ∧ same_config g g'
    ∧ ∀ ctx' now' elapsed' view cache'',
        Cache_Get (mainCache g') ctx' key now' = (Some view, cache'') →
        Get g' ctx' key now' elapsed'
        = (Ret (view, None),
           set_stats (set_mainCache g' cache'')
             (add_localHits 1 (stats g')), []).
Proof.
  intros Hc Hk Hm Hlocal Hg.
  rewrite (Get_miss _ _ _ _ _ _ Hc Hk Hm). unfold load.
  rewrite loadData_local by done. unfold from_getter. simpl. rewrite Hg.
  eexists. split; [reflexivity|]. simpl.
  split_and!; try done.
  intros ctx' now' elapsed' view cache'' Hhit. unfold Get. simpl.
  rewrite (proj2 (Z.eqb_neq _ _) Hc), (bool_decide_false _ Hk).
  by rewrite Hhit.
Qed.

(** *** The counters *)

Lemma apply_options_stats (opts : list GroupOption) g :
  stats (fold_left apply_option opts g) = stats g.
Proof.
  revert g. induction opts as [|o opts IH]; intros g; simpl; [done|].
  rewrite IH. by destruct o.
Qed.

Lemma stats_ok_load st elapsed :
  stats_ok st →
  stats_ok (add_loads 1 (add_loadDuration elapsed (add_loaderHits 1 st)))
  ∧ stats_ok
      (add_loaderErrors 1 (add_loads 1 (add_loadDuration elapsed st))).
Proof.
  intros (H1 & H2 & H3 & H4). unfold stats_ok. simpl.
  split; (split_and!; try done); rewrite H4.
  - rewrite wrap64_add_l, wrap64_add_l. f_equal. lia.
  - rewrite wrap64_add_l, wrap64_add_r. f_equal. lia.
Qed.

Lemma Get_stats_ok g ctx key now elapsed :
  stats_ok (stats g) → stats_ok (stats (Get g ctx key now elapsed).1.2).
Proof.
  intros Hs. unfold Get. destruct (closed g =? 1); [done|].
  case_bool_decide; [done|].
  destruct (Cache_Get (mainCache g) ctx key now) as [[val|] cache]; simpl.
  { destruct Hs as (? & ? & ? & ?). by split_and!. }
  unfold load.
  assert (∀ g0 : Group, stats_ok (stats g0) →
            match from_getter g0 ctx key with
            | (Panic msg, g1, evs) => stats_ok (stats g1)
            | (Ret (view, Some err), g1, evs) =>
                stats_ok (add_loaderErrors 1
                            (add_loads 1
                               (add_loadDuration elapsed (stats g1))))
            | (Ret (view, None), g1, evs) =>
                stats_ok (add_loads 1 (add_loadDuration elapsed (stats g1)))
            end) as Hfg.
  { intros g0 Hs0. unfold from_getter.
    destruct (getter g0 ctx key) as [b [e|]]; simpl.
    - by apply stats_ok_load.
    - by apply (stats_ok_load _ elapsed) in Hs0 as [? _]. }
  assert (match loadData (set_mainCache g cache) ctx key with
          | (Panic msg, g1, evs) => stats_ok (stats g1)
          | (Ret (view, Some err), g1, evs) =>
              stats_ok (add_loaderErrors 1
                          (add_loads 1
                             (add_loadDuration elapsed (stats g1))))
          | (Ret (view, None), g1, evs) =>
              stats_ok (add_loads 1 (add_loadDuration elapsed (stats g1)))
          end) as Hld.
  { unfold loadData. simpl. destruct (peers g) as [pk|]; [|by apply Hfg].
    destruct (PickPeer pk key) as [[peer ok] isSelf].
    destruct (ok && negb isSelf); [|by apply Hfg].
    by destruct peer. }
  destruct (loadData (set_mainCache g cache) ctx key)
    as [[[[view [e|]]|msg] g1] evs]; simpl; done.
Qed.

Lemma do_call_stats_ok w (c : call) :
  (∀ i G, heap w !! i = Some G → stats_ok (stats G)) →
  ∀ i G, heap (do_call w c).2 !! i = Some G → stats_ok (stats G).
Proof.
  intros Hw.
  assert (∀ j g0 g1, heap w !! j = Some g0 → stats_ok (stats g1) →
            ∀ i G, heap (store_group w j g1) !! i = Some G →
                   stats_ok (stats G)) as Hstore.
  { intros j g0 g1 Hj Hg1 i G. simpl. intros Hi.
    apply list_lookup_insert_Some in Hi as [(_ & <- & _)|(_ & Hi)];
      [done | by eauto]. }
  destruct c as [j ctx key now elapsed|j ctx key value now
                 |j ctx key|j|j|nm cacheBytes gt opts]; simpl.
  - destruct (heap w !! j) as [g|] eqn:Ej; [|done].
    pose proof (Get_stats_ok g ctx key now elapsed (Hw _ _ Ej)) as Hs.
    destruct (Get g ctx key now elapsed) as [[[[view err]|msg] g'] evs];
      simpl in *; by eapply Hstore.
  - destruct (heap w !! j) as [g|] eqn:Ej; [|done].
    pose proof (proj2 (Set_frame g ctx key value now)) as Hs.
    destruct (Set_ g ctx key value now) as [[err g'] ts].
    simpl in *. eapply Hstore; [done|]. rewrite Hs. by eauto.
  - destruct (heap w !! j) as [g|] eqn:Ej; [|done].
    pose proof (proj2 (Delete_frame g ctx key)) as Hs.
    destruct (Delete g ctx key) as [[err g'] ts].
    simpl in *. eapply Hstore; [done|]. rewrite Hs. by eauto.
  - destruct (heap w !! j) as [g|] eqn:Ej; [|done]. simpl.
    eapply Hstore; [done|]. rewrite (proj2 (Clear_frame g)). by eauto.
  - unfold Close. destruct (heap w !! j) as [g|] eqn:Ej; [|done].
    destruct (closed g =? 0); [|done]. simpl.
    intros i G Hi.
    apply list_lookup_insert_Some in Hi as [(_ & <- & _)|(_ & Hi)];
      [simpl; by eauto | by eauto].
  - unfold NewGroup. destruct gt as [gt|]; [|done]. simpl.
    intros i G Hi.
    apply lookup_app_Some in Hi as [Hi|[_ Hi]]; [by eauto|].
    apply list_lookup_singleton_Some in Hi as [_ <-].
    rewrite apply_options_stats. simpl. by split_and!.
Qed.

(** X25.  The counters of a group.  Whatever calls the process has made,
    in every group [localMisses], [peerHits] and [peerMisses] are still
    zero: no method counts a local miss, and a fetch from a peer does not
    return.  [loads] is the sum of [loaderHits] and [loaderErrors] in
    64-bit arithmetic: every load that was counted ended with the getter's
    value or with its error. *)
Theorem X25_counters_of_a_group (cs : list call) i G :
  heap (do_calls emptyWorld cs) !! i = Some G →
  localMisses (stats G) = 0 ∧ peerHits (stats G) = 0
  ∧ peerMisses (stats G) = 0
  ∧ loads (stats G) = wrap64 (loaderHits (stats G) + loaderErrors (stats G)).
Proof.
  assert (∀ w : World,
            (∀ i G, heap w !! i = Some G → stats_ok (stats G)) →
            ∀ i G, heap (do_calls w cs) !! i = Some G → stats_ok (stats G))
    as Hgen.
  { unfold do_calls. induction cs as [|c cs' IH]; intros w Hw; simpl; [done|].
    by apply IH, do_call_stats_ok. }
  intros Hi. apply (Hgen emptyWorld) in Hi; [done|].
  intros j G0. by destruct j.
Qed.

(** *** The server after [Close] *)

(** X26.  Once a group has been closed, the server does not find it: a
    [Get], [Set] or [Delete] request for its name is answered with the
    error [group <name> not found], not with the error of a closed group,
    and changes nothing. *)
Theorem X26_server_does_not_find_a_closed_group
    w i G ctx key (value : bytes) now elapsed :
  heap w !! i = Some G → closed G = 0 →
  Server_Get (Close w i).2 ctx (mkRequest (name G) key value) now elapsed
  = (Ret (None, Some (group_not_found (name G))), (Close w i).2, [])
  ∧ Server_Set (Close w i).2 ctx (mkRequest (name G) key value) now
    = (Ret (None, Some (group_not_found (name G))), (Close w i).2, [])
  ∧ Server_Delete (Close w i).2 ctx (mkRequest (name G) key value)
    = (Ret (None, Some (group_not_found (name G))), (Close w i).2, [])
  ∧ group_not_found (name G) ≠ errors_New "group is closed"
  ∧ group_not_found (name G) ≠ errors_New "cache group is closed".
Proof.
  intros Hi Hc.
  destruct (Close_unregisters_the_name w i G Hi Hc) as [_ Hn].
  unfold Server_Get, Server_Set, Server_Delete. simpl. rewrite Hn.
  split_and!; try done.
  unfold group_not_found, errors_New. simpl. intros [= Heq].
  apply (f_equal String.length) in Heq.
  rewrite !string_length_app in Heq. simpl in Heq. lia.
Qed.

End Group_more.


(** A group created with cache options of its own, for two values of
    [cacheBytes]. *)
Lemma X22_witness :
  blockcache.NewGroup (Cache:=blockcache.lruWrapper)
    (P:=blockcache.ClientPicker (Ring:=list string))
    blockcache.emptyWorld "g" 1 (Some (λ _ _, ([], None)))
    [blockcache.WithCacheOptions (store.mkOptions 10 0 0 0 0 false)]
  = blockcache.NewGroup blockcache.emptyWorld "g" 2
      (Some (λ _ _, ([], None)))
      [blockcache.WithCacheOptions (store.mkOptions 10 0 0 0 0 false)].
Proof.
  apply (X22_WithCacheOptions_overrides_cacheBytes
           (Cache:=blockcache.lruWrapper)
           (P:=blockcache.ClientPicker (Ring:=list string))
           blockcache.emptyWorld "g" 1 2 (Some (λ _ _, ([], None)))
           [blockcache.WithCacheOptions (store.mkOptions 10 0 0 0 0 false)]
           (store.mkOptions 10 0 0 0 0 false)).
  constructor.
Defined.

(** A [Delete] request for a key of node ["B"] arrives at node ["A"]: it
    is sent on to ["B"]. *)
Lemma X23_witness :
  (blockcache.Server_Delete
     (blockcache.NewGroup (Cache:=blockcache.lruWrapper)
        (P:=blockcache.ClientPicker (Ring:=list string))
        blockcache.emptyWorld "g" 1024
        (Some (λ _ _, ([], None)))
        [blockcache.WIthPeers
           (Some (blockcache.mkPicker "A" "block-cache" ["B"]
                    {["B" := blockcache.mkClient "B" "block-cache"]}))]).2
     blockcache.Background
     (blockcache.mkRequest "g" "k" [])).2
  = [blockcache.GoSync blockcache.Background "delete" "k" []].
Proof.
  pose proof (X23_inbound_Delete_is_forwarded_again
                (Cache:=blockcache.lruWrapper)
                (P:=blockcache.ClientPicker (Ring:=list string))
                (blockcache.NewGroup (Cache:=blockcache.lruWrapper)
                   (P:=blockcache.ClientPicker (Ring:=list string))
                   blockcache.emptyWorld "g" 1024
                   (Some (λ _ _, ([], None)))
                   [blockcache.WIthPeers
                      (Some (blockcache.mkPicker "A" "block-cache" ["B"]
                               {["B" := blockcache.mkClient "B" "block-cache"]}))]).2
                blockcache.Background
                (blockcache.mkRequest "g" "k" []) 0%nat) as Hx.
  specialize (Hx _ (blockcache.mkPicker "A" "block-cache" ["B"]
                      {["B" := blockcache.mkClient "B" "block-cache"]})
                (blockcache.mkClient "B" "block-cache") 0 eq_refl eq_refl).
  destruct Hx as (Hd & _).
  - simpl. lia.
  - done.
  - reflexivity.
  - reflexivity.
  - vm_compute. reflexivity.
  - by rewrite Hd.
Defined.

(** A first read of ["k"] on a group without peers. *)
Lemma X24_witness :
  (blockcache.Get
     (blockcache.mkGroup (Cache:=blockcache.lruWrapper)
        (P:=blockcache.ClientPicker (Ring:=list string))
        "g" (λ _ _, ([Byte.x76], None))
        (blockcache.NewCache (store.mkOptions 1024 0 0 0 0 false))
        None 0 0 (blockcache.mkStats 0 0 0 0 0 0 0 0))
     blockcache.Background "k" 0 7).1.1
  = blockcache.Ret (blockcache.mkByteView [Byte.x76], None).
Proof.
  destruct (X24_Get_loads_from_the_getter_and_caches
              (blockcache.mkGroup (Cache:=blockcache.lruWrapper)
                 (P:=blockcache.ClientPicker (Ring:=list string))
                 "g" (λ _ _, ([Byte.x76], None))
                 (blockcache.NewCache (store.mkOptions 1024 0 0 0 0 false))
                 None 0 0 (blockcache.mkStats 0 0 0 0 0 0 0 0))
              blockcache.Background "k" 0 7
              (blockcache.mkWrapper (store.mkOptions 1024 0 0 0 0 false)
                 (Some (store.newLRUCache
                          (store.mkOptions 1024 0 0 0 0 false))) 0 1)
              [Byte.x76])
    as (g' & Hg & _).
  - simpl. lia.
  - done.
  - reflexivity.
  - by left.
  - reflexivity.
  - by rewrite Hg.
Defined.

(** A group that has served one read. *)
Lemma X25_witness :
  ∃ G,
    blockcache.heap
      (blockcache.do_calls (Cache:=blockcache.lruWrapper)
         (P:=blockcache.ClientPicker (Ring:=list string))
         blockcache.emptyWorld
         [blockcache.CallNewGroup "g" 1024
            (Some (λ _ _, ([Byte.x76], None))) [];
          blockcache.CallGet 0 blockcache.Background "k" 0 7]) !! 0%nat
    = Some G
    ∧ blockcache.loads (blockcache.stats G)
      = wrap64 (blockcache.loaderHits (blockcache.stats G)
                + blockcache.loaderErrors (blockcache.stats G)).
Proof.
  eexists. split; [reflexivity|].
  eapply (X25_counters_of_a_group (Cache:=blockcache.lruWrapper)
            (P:=blockcache.ClientPicker (Ring:=list string))
            [blockcache.CallNewGroup "g" 1024
               (Some (λ _ _, ([Byte.x76], None))) [];
             blockcache.CallGet 0 blockcache.Background "k" 0 7] 0%nat).
  reflexivity.
Defined.

(** A group is created and closed, then asked for over RPC. *)
Lemma X26_witness :
  blockcache.Server_Get
    (blockcache.Close
       (blockcache.NewGroup (Cache:=blockcache.lruWrapper)
          (P:=blockcache.ClientPicker (Ring:=list string))
          blockcache.emptyWorld "g" 1024 (Some (λ _ _, ([], None))) []).2
       0).2
    blockcache.Background (blockcache.mkRequest "g" "k" []) 0 0
  = (blockcache.Ret (None, Some (blockcache.group_not_found "g")),
     (blockcache.Close
        (blockcache.NewGroup (Cache:=blockcache.lruWrapper)
           (P:=blockcache.ClientPicker (Ring:=list string))
           blockcache.emptyWorld "g" 1024 (Some (λ _ _, ([], None))) []).2
        0).2, []).
Proof.
  pose proof (X26_server_does_not_find_a_closed_group
                (Cache:=blockcache.lruWrapper)
                (P:=blockcache.ClientPicker (Ring:=list string))
                (blockcache.NewGroup (Cache:=blockcache.lruWrapper)
                   (P:=blockcache.ClientPicker (Ring:=list string))
                   blockcache.emptyWorld "g" 1024
                   (Some (λ _ _, ([], None))) []).2
                0%nat) as Hx.
  specialize (Hx _ blockcache.Background "k" [] 0 0 eq_refl eq_refl).
  exact (proj1 Hx).
Defined.

(** ** The LRU store: the order of eviction *)

Section LRU_order.
Context {V : Type} `{store.Value V}.
Import store.

Local Abbreviation lruEntry := (@lruEntry V).
Local Abbreviation lruCache := (@lruCache V).
Implicit Types (c : lruCache) (l ev : list lruEntry) (e : lruEntry).
Implicit Types (k : string) (v : V) (now duration : Z).

Lemma ll_Remove_app_back k l e :
  key e ≠ k → ll_Remove k (l ++ [e]) = ll_Remove k l ++ [e].
Proof.
  intros Hne. induction l as [|a l IH]; simpl.
  - by rewrite decide_False.
  - case_decide; [done|]. by rewrite IH.
Qed.

(** What is left of a list when a prefix that holds its last but one
    entry is taken away. *)
Lemma back_prefix l e (n : lruEntry) ev rest :
  l ++ [e; n] = ev ++ rest → e ∉ rest → rest = [] ∨ rest = [n].
Proof.
  revert ev. induction l as [|a l IH]; intros ev Heq Hout.
  - destruct ev as [|x [|y [|z ev]]]; simpl in *; simplify_eq.
    + destruct Hout. by left.
    + by right.
    + by left.
  - destruct ev as [|x ev]; simpl in *; simplify_eq.
    + destruct Hout. right. apply elem_of_app. right. by left.
    + by eapply IH.
Qed.

(** A write to another key evicts the entry at the MRU end last. *)
Lemma write_evicts_the_back_last c l e k' v duration now :
  lru_inv c → ll c = l ++ [e] → k' ≠ key e →
  is_Some (items_lookup (key e)
             (ll (SetWithExpiration c k' v duration now)))
  ∨ ∀ k'', k'' ≠ k' →
      items_lookup k'' (ll (SetWithExpiration c k' v duration now)) = None.
Proof.
  intros Hc Hll Hne.
  destruct (SetWithExpiration_before_eviction c k' v duration now)
    as (c' & Heq & Hll' & _).
  destruct (removeOldest_loop_prefix (length (ll c')) c')
    as (ev & Hpre & _).
  fold (removeOldest c') in Hpre. rewrite <- Heq in Hpre.
  rewrite Hll', Hll, ll_Remove_app_back in Hpre by done.
  rewrite <- app_assoc in Hpre. simpl in Hpre.
  destruct (items_lookup (key e)
              (ll (SetWithExpiration c k' v duration now))) as [e'|] eqn:El;
    [left; by eauto | right].
  assert (e ∉ ll (SetWithExpiration c k' v duration now)) as Hout.
  { intros Hin. apply items_lookup_None in El. apply El.
    apply list_elem_of_fmap. by exists e. }
  destruct (back_prefix _ _ _ _ _ Hpre Hout) as [-> | ->]; intros k'' Hk''.
  - done.
  - simpl. by rewrite decide_False by (simpl; congruence).
Qed.

(** X27.  The entry read last is evicted last.  After a [Get] that hits
    key [k], a write to another key either leaves [k] in the store or has
    evicted every entry the store held: what is left then is at most the
    entry just written. *)
Theorem X27_entry_read_last_is_evicted_last
    c k e k' v duration now now' :
  lru_inv c → items_lookup k (ll c) = Some e →
  (∀ expireTime, expiredTime c !! k = Some expireTime → now ≤ expireTime) →
  k' ≠ k →
  (Get c k now).1.1 = (Some (value e), true)
  ∧ (is_Some (items_lookup k
                (ll (SetWithExpiration (Get c k now).1.2 k' v duration now')))
     ∨ ∀ k'', k'' ≠ k' →
         items_lookup k''
           (ll (SetWithExpiration (Get c k now).1.2 k' v duration now'))
         = None).
Proof.
  intros Hc Hl Hexp Hne.
  destruct (Get_hit c k e now Hl Hexp) as (c1 & Hg & Hll & _).
  pose proof (Get_inv c k now Hc) as Hc1.
  rewrite Hg in *. simpl in *. split; [done|].
  destruct (items_lookup_Some _ _ _ Hl) as [Hk _]. subst k.
  by eapply write_evicts_the_back_last.
Qed.

End LRU_order.

(** The order test of the suite on a store of 10 bytes: ["a"] is read
    before ["d"] is written, and stays. *)
Lemma X27_witness :
  store.lru_inv
    (store.run (store.mkOptions 10 0 0 0 0 false)
       [store.OpSet "a" "1" 0; store.OpSet "b" "2" 0; store.OpSet "c" "3" 0])
  ∧ store.items_lookup "a"
      (store.ll
         (store.run (store.mkOptions 10 0 0 0 0 false)
            [store.OpSet "a" "1" 0; store.OpSet "b" "2" 0;
             store.OpSet "c" "3" 0]))
    = Some (store.mkEntry "a" "1")
  ∧ "d" ≠ "a"
  ∧ (store.Get
       (store.run (store.mkOptions 10 0 0 0 0 false)
          [store.OpSet "a" "1" 0; store.OpSet "b" "2" 0;
           store.OpSet "c" "3" 0]) "a" 1).1.1 = (Some "1", true).
Proof.
  pose proof (lru_run_inv (V:=string) (store.mkOptions 10 0 0 0 0 false)
                [store.OpSet "a" "1" 0; store.OpSet "b" "2" 0;
                 store.OpSet "c" "3" 0]) as Hinv.
  assert (store.items_lookup "a"
            (store.ll
               (store.run (store.mkOptions 10 0 0 0 0 false)
                  [store.OpSet "a" "1" 0; store.OpSet "b" "2" 0;
                   store.OpSet "c" "3" 0]))
          = Some (store.mkEntry "a" "1")) as Hl by (vm_compute; reflexivity).
  assert ("d" ≠ "a") as Hne by discriminate.
  split; [exact Hinv|]. split; [exact Hl|]. split; [exact Hne|].
  refine (proj1 (X27_entry_read_last_is_evicted_last _ "a" _ "d" "4444444" 0
                   1 2 Hinv Hl _ Hne)).
  intros t Ht. vm_compute in Ht. discriminate.
Defined.

(** ** The draft of the LRU store *)

Section Draft_facts.
Context {V : Type} `{store.Value V}.
Import store_draft.

Local Abbreviation lruEntry := (@store.lruEntry V).
Local Abbreviation lruCache := (@lruCache V).
Local Abbreviation op := (@op V).
Implicit Types (c : lruCache) (e : lruEntry) (k : string) (v : V).

(** Nothing writes an expiry, and every key has one node. *)
Lemma draft_exec_inv c (o : op) :
  expiredTime c = ∅ ∧ NoDup (map store.key (ll c)) →
  expiredTime (exec c o) = ∅ ∧ NoDup (map store.key (ll (exec c o))).
Proof.
  intros [He Hn]. destruct o as [k now1 now2|k v|k]; simpl.
  - unfold Get. rewrite He, lookup_empty.
    destruct (store.items_lookup k (ll c)) as [ele|] eqn:El; simpl; [|done].
    split; [done|]. destruct (items_lookup_Some _ _ _ El) as [Hk _].
    constructor; [|by apply NoDup_Remove].
    rewrite Hk. apply items_lookup_None. by apply items_lookup_Remove_eq.
  - unfold Set_.
    destruct (store.items_lookup k (ll c)) as [ele|] eqn:El; simpl.
    + split; [done|]. constructor; [|by apply NoDup_Remove].
      apply items_lookup_None. by apply items_lookup_Remove_eq.
    + split; [done|]. constructor; [|done]. by apply items_lookup_None.
  - unfold Delete.
    destruct (store.items_lookup k (ll c)) as [ele|] eqn:El; simpl; [|done].
    split; [by rewrite He, delete_empty | by apply NoDup_Remove].
Qed.

Lemma draft_run_inv (opts : store.Options) (history : list op) :
  expiredTime (run opts history) = ∅
  ∧ NoDup (map store.key (ll (run opts history))).
Proof.
  unfold run.
  assert (expiredTime (newLRUCache (V:=V) opts) = ∅
          ∧ NoDup (map store.key (ll (newLRUCache (V:=V) opts)))) as H0'.
  { split; [done | constructor]. }
  revert H0'. generalize (newLRUCache (V:=V) opts) as c.
  induction history as [|o os IH]; intros c Hc; simpl; [done|].
  by apply IH, draft_exec_inv.
Qed.

(** X28.  The draft's [Get] panics on every key that is not stored, and
    nothing it stores ever expires.  After any history of [Set], [Get] and
    [Delete] on a fresh draft store the expiry map is empty, since no
    method writes it; so a [Get] of a stored key returns its value and
    moves the entry to the front, and a [Get] of any other key passes the
    nil element of [c.items[key]] to [MoveToFront] and panics, leaving the
    store as it was. *)
Theorem X28_draft_Get_panics_on_a_missing_key
    (opts : store.Options) (history : list op) k now1 now2 :
  expiredTime (run opts history) = ∅
  ∧ (store.items_lookup k (ll (run opts history)) = None →
     Get (run opts history) k now1 now2
     = (Panicked "nil pointer dereference", run opts history, []))
  ∧ (∀ e, store.items_lookup k (ll (run opts history)) = Some e →
       (Get (run opts history) k now1 now2).1.1
       = Returned (Some (store.value e)) true
       ∧ ll (Get (run opts history) k now1 now2).1.2
         = e :: store.ll_Remove k (ll (run opts history))
       ∧ (Get (run opts history) k now1 now2).2 = []).
Proof.
  destruct (draft_run_inv opts history) as [He _].
  split; [done|]. unfold Get. rewrite He, lookup_empty. split.
  - by intros ->.
  - by intros e ->.
Qed.

Lemma draft_exec_maxBytes c c' (o : op) :
  usedBytes c = usedBytes c' → ll c = ll c' →
  expiredTime c = expiredTime c' → onEvicted c = onEvicted c' →
  evictedLog c = evictedLog c' →
  usedBytes (exec c o) = usedBytes (exec c' o)
  ∧ ll (exec c o) = ll (exec c' o)
  ∧ expiredTime (exec c o) = expiredTime (exec c' o)
  ∧ onEvicted (exec c o) = onEvicted (exec c' o)
  ∧ evictedLog (exec c o) = evictedLog (exec c' o).
Proof.
  intros Hu Hl He Ho Hlog. destruct o as [k now1 now2|k v|k]; simpl.
  - unfold Get. rewrite <- Hl, <- He.
    destruct (store.items_lookup k (ll c)) as [ele|]; simpl.
    + destruct (expiredTime c !! k) as [t|]; simpl.
      * destruct (t <? now1); simpl; [by rewrite Hu, Hl, He, Ho, Hlog|].
        destruct (t <? now2); simpl; by rewrite ?Hl.
      * by rewrite Hl.
    + destruct (expiredTime c !! k) as [t|]; simpl; [|done].
      by destruct (t <? now2).
  - unfold Set_. rewrite <- Hl.
    destruct (store.items_lookup k (ll c)) as [ele|]; simpl;
      by rewrite Hu, ?Hl.
  - unfold Delete. rewrite <- Hl.
    destruct (store.items_lookup k (ll c)) as [ele|]; simpl; [|done].
    by rewrite Hu, Hl, He, Ho, Hlog.
Qed.

(** X29.  The draft never evicts.  [Set] stores its entry at the front
    and keeps every other entry, whatever [maxBytes] is; [Get] keeps every
    entry; an entry leaves the store by [Delete] of its key only.  The
    entries and the byte counter of the store are the same for every value
    of [MaxBytes] in the options: the field is never read. *)
Theorem X29_draft_never_evicts
    (opts : store.Options) (history : list op) (o : op) k :
  (∀ v, o = OpSet k v →
     store.items_lookup k (ll (exec (run opts history) o))
     = Some (store.mkEntry k v))
  ∧ ((∀ v, o ≠ OpSet k v) → o ≠ OpDelete k →
     store.items_lookup k (ll (exec (run opts history) o))
     = store.items_lookup k (ll (run opts history)))
  ∧ (∀ maxBytes',
       ll (run opts history)
       = ll (run (store.mkOptions maxBytes' (store.BucketCount opts)
                    (store.CapPerBucket opts) (store.Level2Cap opts)
                    (store.CleanupInterval opts) (store.OnEvicted opts))
               history)
       ∧ usedBytes (run opts history)
         = usedBytes
             (run (store.mkOptions maxBytes' (store.BucketCount opts)
                     (store.CapPerBucket opts) (store.Level2Cap opts)
                     (store.CleanupInterval opts) (store.OnEvicted opts))
                history)).
Proof.
  destruct (draft_run_inv opts history) as [He Hn].
  split_and!.
  - intros v ->. simpl. unfold Set_.
    destruct (store.items_lookup k (ll (run opts history))); simpl;
      by rewrite decide_True.
  - intros Hset Hdel. destruct o as [k0 now1 now2|k0 v|k0]; simpl.
    + unfold Get. rewrite He, lookup_empty.
      destruct (store.items_lookup k0 (ll (run opts history))) as [ele|] eqn:El;
        simpl; [|done].
      destruct (items_lookup_Some _ _ _ El) as [Hk _].
      destruct (decide (k = k0)) as [->|Hne].
      * by rewrite decide_True, El.
      * rewrite decide_False by congruence.
        by apply items_lookup_Remove_ne.
    + assert (k ≠ k0) as Hne by (intros ->; by apply (Hset v)).
      unfold Set_.
      destruct (store.items_lookup k0 (ll (run opts history))) as [ele|] eqn:El;
        simpl; rewrite decide_False by done; [|done].
      by apply items_lookup_Remove_ne.
    + assert (k ≠ k0) as Hne by (intros ->; by apply Hdel).
      unfold Delete.
      destruct (store.items_lookup k0 (ll (run opts history))) as [ele|] eqn:El;
        simpl; [|done].
      destruct (items_lookup_Some _ _ _ El) as [Hk _]. rewrite Hk.
      by apply items_lookup_Remove_ne.
  - intros maxBytes'. unfold run.
    assert (∀ c c' : lruCache,
              usedBytes c = usedBytes c' → ll c = ll c' →
              expiredTime c = expiredTime c' → onEvicted c = onEvicted c' →
              evictedLog c = evictedLog c' →
              ll (fold_left exec history c) = ll (fold_left exec history c')
              ∧ usedBytes (fold_left exec history c)
                = usedBytes (fold_left exec history c')) as Hgen.
    { clear. induction history as [|o os IH]; intros c c' Hu Hl He Ho Hlog;
        simpl; [done|].
      destruct (draft_exec_maxBytes c c' o Hu Hl He Ho Hlog)
        as (? & ? & ? & ? & ?). by apply IH. }
    by apply Hgen.
Qed.

Lemma wrap64_neq a d : 0 < d < 2^64 → wrap64 (a - d) ≠ wrap64 a.
Proof.
  intros Hd Heq.
  destruct (wrap64_repr (a - d)) as [k1 H1].
  destruct (wrap64_repr a) as [k2 H2]. lia.
Qed.

(** X30.  The draft's byte counter loses the bytes of every entry that is
    rewritten.  [Set] on a stored key takes the bytes of the old entry off
    [usedBytes] and adds nothing for the new value.  So on a store whose
    counter is right, a [Set] of a new key keeps it right, and a [Set] of a
    stored key leaves it short of the stored bytes by the size of the
    entry just written. *)
Theorem X30_draft_counter_loses_rewritten_entries c k v :
  usedBytes c = wrap64 (store.live_bytes (ll c)) →
  (store.items_lookup k (ll c) = None →
   usedBytes (Set_ c k v).2 = wrap64 (store.live_bytes (ll (Set_ c k v).2)))
  ∧ (is_Some (store.items_lookup k (ll c)) →
     usedBytes (Set_ c k v).2
     = wrap64 (store.live_bytes (ll (Set_ c k v).2)
               - (Z.of_nat (String.length k) + store.Len v))
     ∧ (0 < Z.of_nat (String.length k) + store.Len v < 2^64 →
        usedBytes (Set_ c k v).2
        ≠ wrap64 (store.live_bytes (ll (Set_ c k v).2)))).
Proof.
  intros Hu. split.
  - intros Hn. unfold Set_. rewrite Hn. simpl.
    rewrite Hu, wrap64_add_l, wrap64_add_r. f_equal. lia.
  - intros [e He]. unfold Set_. rewrite He. simpl.
    destruct (items_lookup_Some _ _ _ He) as [Hk _].
    rewrite (live_bytes_Remove _ _ _ He), Hk.
    assert (wrap64 (usedBytes c
                    - wrap64 (Z.of_nat (String.length k)
                              + store.Len (store.value e)))
            = wrap64 (Z.of_nat (String.length k) + store.Len v
                      + (store.live_bytes (ll c)
                         - (Z.of_nat (String.length k)
                            + store.Len (store.value e)))
                      - (Z.of_nat (String.length k) + store.Len v))) as Heq.
    { rewrite Hu, wrap64_sub_l, wrap64_sub_r. f_equal. lia. }
    split; [done|]. intros Hd. rewrite Heq. by apply wrap64_neq.
Qed.

End Draft_facts.

(** A draft store with two entries, read at a key it does not hold. *)
Lemma X28_witness :
  store.items_lookup "c"
    (store_draft.ll
       (store_draft.run (V:=string) (store.mkOptions 100 0 0 0 0 false)
          [store_draft.OpSet "a" "1"; store_draft.OpSet "b" "2"])) = None
  ∧ (store_draft.Get
       (store_draft.run (V:=string) (store.mkOptions 100 0 0 0 0 false)
          [store_draft.OpSet "a" "1"; store_draft.OpSet "b" "2"])
       "c" 0 0).1.1
    = store_draft.Panicked "nil pointer dereference".
Proof.
  assert (store.items_lookup "c"
            (store_draft.ll
               (store_draft.run (V:=string) (store.mkOptions 100 0 0 0 0 false)
                  [store_draft.OpSet "a" "1"; store_draft.OpSet "b" "2"]))
          = None) as Hn by (vm_compute; reflexivity).
  split; [exact Hn|].
  destruct (X28_draft_Get_panics_on_a_missing_key
              (V:=string) (store.mkOptions 100 0 0 0 0 false)
              [store_draft.OpSet "a" "1"; store_draft.OpSet "b" "2"]
              "c" 0 0) as (_ & Hp & _).
  by rewrite (Hp Hn).
Defined.

(** A draft store of one byte holds three entries of two bytes. *)
Lemma X29_witness :
  store.items_lookup "a"
    (store_draft.ll
       (store_draft.exec
          (store_draft.run (V:=string) (store.mkOptions 1 0 0 0 0 false)
             [store_draft.OpSet "a" "1"; store_draft.OpSet "b" "2"])
          (store_draft.OpSet "c" "3")))
  = store.items_lookup "a"
      (store_draft.ll
         (store_draft.run (V:=string) (store.mkOptions 1 0 0 0 0 false)
            [store_draft.OpSet "a" "1"; store_draft.OpSet "b" "2"])).
Proof.
  destruct (X29_draft_never_evicts
              (V:=string) (store.mkOptions 1 0 0 0 0 false)
              [store_draft.OpSet "a" "1"; store_draft.OpSet "b" "2"]
              (store_draft.OpSet "c" "3") "a") as (_ & Hkeep & _).
  apply Hkeep; [intros v|]; discriminate.
Defined.

(** A key written twice: the counter is at zero, the entry takes three
    bytes. *)
Lemma X30_witness :
  store_draft.usedBytes
    (store_draft.run (V:=string) (store.mkOptions 100 0 0 0 0 false)
       [store_draft.OpSet "a" "1"])
  = wrap64
      (store.live_bytes
         (store_draft.ll
            (store_draft.run (V:=string) (store.mkOptions 100 0 0 0 0 false)
               [store_draft.OpSet "a" "1"])))
  ∧ store_draft.usedBytes
      (store_draft.Set_
         (store_draft.run (V:=string) (store.mkOptions 100 0 0 0 0 false)
            [store_draft.OpSet "a" "1"]) "a" "22").2
    ≠ wrap64
        (store.live_bytes
           (store_draft.ll
              (store_draft.Set_
                 (store_draft.run (V:=string)
                    (store.mkOptions 100 0 0 0 0 false)
                    [store_draft.OpSet "a" "1"]) "a" "22").2)).
Proof.
  assert (store_draft.usedBytes
            (store_draft.run (V:=string) (store.mkOptions 100 0 0 0 0 false)
               [store_draft.OpSet "a" "1"])
          = wrap64
              (store.live_bytes
                 (store_draft.ll
                    (store_draft.run (V:=string)
                       (store.mkOptions 100 0 0 0 0 false)
                       [store_draft.OpSet "a" "1"])))) as Hu
    by (vm_compute; reflexivity).
  split; [exact Hu|].
  destruct (X30_draft_counter_loses_rewritten_entries
              (store_draft.run (V:=string) (store.mkOptions 100 0 0 0 0 false)
                 [store_draft.OpSet "a" "1"]) "a" "22" Hu) as (_ & Hold).
  destruct Hold as (_ & Hne).
  - vm_compute. by eauto.
  - apply Hne. vm_compute. split; reflexivity.
Defined.
